(** * The [sandbox] package: matching engine, hash table, maze, unit converter

    Shallow embeddings of [order_matcher.py], [hash_table.py], [maze.py] and
    [unit_conversion_exercise.py], and proofs about them.  For the matching
    engine: price-time priority, execution price, crossing, quantity
    conservation, rejection of non-positive quantities, registry
    membership, the two read operations and the allocation of ids.  For the
    hash table: that every method returns, what [get] returns after
    [insert] and [delete], what [len] counts, and what happens when
    [max_load] is too large.  For the maze: that a search returns a path,
    finds one when there is one, and breadth first a shortest one.  For the
    unit converter: which keys [parse] leaves in [parsing_info].

    Modelling choices for the matching engine.
    - Prices and quantities are Python numbers; they are modelled as exact
      integers ([Z]), so [min], [-] and the comparisons are the exact ones.
    - An [Order] is a mutable Python object that is shared by [_by_seq],
      [_by_id] and the local variable [taker].  The model keeps the objects
      in a [store] (a list indexed by object reference) and lets the two
      dictionaries and the local variables hold references into it.
    - [heapq] is the Python standard library, not code of the repository.  A
      heap is observed only through [heap[0]], [heappush], [heappop] and its
      truth value, and its elements are totally ordered tuples, so it is
      modelled by the ascending list of its elements: [heap[0]] is the head,
      [heappop] drops the head and [heappush] inserts in order.
    - [datetime.now()] is written into [Order.time] and into the trade
      records and never read back; both fields are left out.
    - The [while] loops of [_match_buy] and [_match_sell] are recursive
      functions on a number of remaining loop tests (fuel); [_match_buy] and
      [_match_sell] supply one test more than the opposite queue has
      entries, and [match_loop_returns] and [add_order_returns] show that
      this is never exhausted.

    Modelling choices for the other three files.
    - A function returns an [outcome]: a value or a Python exception.
    - Keys of the hash table are a type with decidable equality (for [==])
      and a function [hash] into the integers.  A float is the rational it
      denotes: the table multiplies floats by its capacity only, a power of
      two, and that product is exact.
    - An [_Entry] is referenced by one cell of one list, so the assignment
      to its [value] is a write of the cell.
    - The loops of the hash table are given as many turns as [_storage] has
      cells, the searches of the maze one turn per cell of the grid and two
      more; the results on the methods and on the searches show that these
      suffice.
    - [deque], [set] and [dict] of the maze are a list, a [gset] and a
      [gmap]; a grid is a list of lists of integers.
    - The floats of the unit converter are a type with a product and with
      [1 / value], which can raise [ZeroDivisionError]; nothing else is
      assumed of them.
    - [logging.py] wraps the standard library's formatter and is not
      modelled. *)

From Stdlib Require Import ZArith String List Lia.
From stdpp Require Import base option list gmap strings sorting.

Local Open Scope string_scope.
Local Open Scope list_scope.
Local Open Scope Z_scope.

(** ** Data model *)

(** A reference to an [Order] object. *)
Abbreviation loc := nat (only parsing).

(** [class Order] (the field [time] is never read). *)
Record Order := mkOrder {
  id : nat;
  side : string;
  price : Z;
  quantity : Z;
  sequence : nat
}.

(** The dict appended to [Engine.trades] by [_record_trade]. *)
Record Trade := mkTrade {
  t_price : Z;
  t_quantity : Z;
  taker_side : string;
  maker_order_id : nat;
  taker_order_id : nat
}.

(** A queue entry: [(-price, sequence)] for bids, [(price, sequence)] for asks. *)
Definition entry := (Z * nat)%type.

(** [class Engine]: the attributes set by [__init__], and the object store.
    [_seq] and [_next_order_id] hold the next value of their [count]. *)
Record Engine := mkEngine {
  bids : list entry;
  asks : list entry;
  _seq : nat;
  _next_order_id : nat;
  trades : list Trade;
  _by_seq : gmap nat loc;
  _by_id : gmap nat loc;
  store : list Order
}.

(** [Engine.__init__] *)
Definition init : Engine :=
  mkEngine [] [] 0%nat 1%nat [] ∅ ∅ [].

Definition set_bids (h : list entry) (s : Engine) : Engine :=
  mkEngine h (asks s) (_seq s) (_next_order_id s) (trades s)
           (_by_seq s) (_by_id s) (store s).

Definition set_asks (h : list entry) (s : Engine) : Engine :=
  mkEngine (bids s) h (_seq s) (_next_order_id s) (trades s)
           (_by_seq s) (_by_id s) (store s).

Definition set_store (st : list Order) (s : Engine) : Engine :=
  mkEngine (bids s) (asks s) (_seq s) (_next_order_id s) (trades s)
           (_by_seq s) (_by_id s) st.

(** ** Outcomes *)

(** How a call can fail: [AttributeError] is the Python exception raised by
    [maker.quantity] when [maker] is [None]; the other two belong to the
    model (a reference outside the store, a loop out of fuel). *)
Inductive error := AttributeError | InvalidReference | FuelExhausted.

Inductive result (A : Type) :=
| Ok (a : A)
| Err (e : error).
Arguments Ok {A} a.
Arguments Err {A} e.

#[global] Instance result_ret : MRet result := fun A a => Ok a.
#[global] Instance result_bind : MBind result := fun A B k r =>
  match r with
  | Ok a => k a
  | Err e => Err e
  end.

(** ** Tuple order and [heapq] *)

(** Python's [<=] on the tuples [(key, sequence)]. *)
Definition entry_leb (a b : entry) : bool :=
  (a.1 <? b.1) || ((a.1 =? b.1) && (a.2 <=? b.2)%nat).

Definition entry_le (a b : entry) : Prop :=
  a.1 < b.1 ∨ (a.1 = b.1 ∧ (a.2 ≤ b.2)%nat).

(** [heapq.heappush] *)
Fixpoint heappush (h : list entry) (x : entry) : list entry :=
  match h with
  | [] => [x]
  | y :: t => if entry_leb x y then x :: h else y :: heappush t x
  end.

(** ** Object access *)

Definition deref (s : Engine) (l : loc) : result Order :=
  match store s !! l with
  | Some o => Ok o
  | None => Err InvalidReference
  end.

Definition with_quantity (q : Z) (o : Order) : Order :=
  mkOrder (id o) (side o) (price o) q (sequence o).

(** [o.quantity -= q] *)
Definition sub_quantity (l : loc) (q : Z) (s : Engine) : result Engine :=
  o ← deref s l;
  Ok (set_store (<[l := with_quantity (quantity o - q) o]> (store s)) s).

(** ** Operations *)

(** [Engine._push] *)
Definition _push (order : loc) (s : Engine) : result Engine :=
  o ← deref s order;
  if String.eqb (side o) "buy"
  then Ok (set_bids (heappush (bids s) (- price o, sequence o)) s)
  else Ok (set_asks (heappush (asks s) (price o, sequence o)) s).

(** The [while heap:] loop of [_peek_top]: the heap that is left and the
    order that is returned. *)
Fixpoint peek_loop (s : Engine) (heap : list entry)
  : result (list entry * option loc) :=
  match heap with
  | [] => Ok ([], None)
  | (_, seq) :: rest =>
      match _by_seq s !! seq with
      | None => peek_loop s rest
      | Some l =>
          o ← deref s l;
          if quantity o <=? 0 then peek_loop s rest else Ok (heap, Some l)
      end
  end.

(** [Engine._peek_top] *)
Definition _peek_top (side : string) (s : Engine)
  : result (Engine * option loc) :=
  if String.eqb side "buy"
  then '(h, r) ← peek_loop s (bids s); Ok (set_bids h s, r)
  else '(h, r) ← peek_loop s (asks s); Ok (set_asks h s, r).

(** The [while heap:] loop of [_pop_top]. *)
Fixpoint pop_loop (s : Engine) (heap : list entry)
  : result (list entry * option loc) :=
  match heap with
  | [] => Ok ([], None)
  | (_, seq) :: rest =>
      match _by_seq s !! seq with
      | None => pop_loop s rest
      | Some l =>
          o ← deref s l;
          if 0 <? quantity o then Ok (rest, Some l) else pop_loop s rest
      end
  end.

(** [Engine._pop_top] *)
Definition _pop_top (side : string) (s : Engine)
  : result (Engine * option loc) :=
  if String.eqb side "buy"
  then '(h, r) ← pop_loop s (bids s); Ok (set_bids h s, r)
  else '(h, r) ← pop_loop s (asks s); Ok (set_asks h s, r).

(** [Engine.best_bid] *)
Definition best_bid (s : Engine) : result (Engine * option (Z * Z)) :=
  '(s1, r) ← _peek_top "buy" s;
  match r with
  | Some l => o ← deref s1 l; Ok (s1, Some (price o, quantity o))
  | None => Ok (s1, None)
  end.

(** [Engine.best_ask] *)
Definition best_ask (s : Engine) : result (Engine * option (Z * Z)) :=
  '(s1, r) ← _peek_top "sell" s;
  match r with
  | Some l => o ← deref s1 l; Ok (s1, Some (price o, quantity o))
  | None => Ok (s1, None)
  end.

(** [Engine._record_trade] *)
Definition _record_trade (price quantity : Z) (taker_side : string)
    (maker_id taker_id : nat) (s : Engine) : Engine :=
  mkEngine (bids s) (asks s) (_seq s) (_next_order_id s)
           (trades s ++ [mkTrade price quantity taker_side maker_id taker_id])
           (_by_seq s) (_by_id s) (store s).

(** [Engine._cleanup] *)
Definition _cleanup (taker maker : loc) (q : Z) (s : Engine) : result Engine :=
  s1 ← sub_quantity taker q s;
  s2 ← sub_quantity maker q s1;
  m ← deref s2 maker;
  if 0 <? quantity m
  then _push maker s2
  else Ok (mkEngine (bids s2) (asks s2) (_seq s2) (_next_order_id s2)
                    (trades s2)
                    (delete (sequence m) (_by_seq s2))
                    (delete (id m) (_by_id s2)) (store s2)).

(** The [while] loop of [_match_buy]; [fuel] bounds the number of times the
    loop condition is evaluated. *)
Fixpoint match_buy_loop (fuel : nat) (taker : loc) (s : Engine)
  : result Engine :=
  match fuel with
  | O => Err FuelExhausted
  | S fuel' =>
      t ← deref s taker;
      if (0 <? quantity t) && negb (bool_decide (asks s = []))
      then
        '(s1, best) ← _peek_top "sell" s;
        match best with
        | None => Ok s1
        | Some b =>
            bo ← deref s1 b;
            t1 ← deref s1 taker;
            if price bo >? price t1 then Ok s1
            else
              '(s2, maker) ← _pop_top "sell" s1;
              match maker with
              | None => Err AttributeError
              | Some m =>
                  t2 ← deref s2 taker;
                  mo ← deref s2 m;
                  let q := Z.min (quantity t2) (quantity mo) in
                  let s3 := _record_trade (price mo) q "buy" (id mo) (id t2) s2 in
                  s4 ← _cleanup taker m q s3;
                  match_buy_loop fuel' taker s4
              end
        end
      else Ok s
  end.

(** [Engine._match_buy] *)
Definition _match_buy (taker : loc) (s : Engine) : result Engine :=
  match_buy_loop (S (length (asks s))) taker s.

(** The [while] loop of [_match_sell]. *)
Fixpoint match_sell_loop (fuel : nat) (taker : loc) (s : Engine)
  : result Engine :=
  match fuel with
  | O => Err FuelExhausted
  | S fuel' =>
      t ← deref s taker;
      if (0 <? quantity t) && negb (bool_decide (bids s = []))
      then
        '(s1, best) ← _peek_top "buy" s;
        match best with
        | None => Ok s1
        | Some b =>
            bo ← deref s1 b;
            t1 ← deref s1 taker;
            if price bo <? price t1 then Ok s1
            else
              '(s2, maker) ← _pop_top "buy" s1;
              match maker with
              | None => Err AttributeError
              | Some m =>
                  t2 ← deref s2 taker;
                  mo ← deref s2 m;
                  let q := Z.min (quantity t2) (quantity mo) in
                  let s3 := _record_trade (price mo) q "sell" (id mo) (id t2) s2 in
                  s4 ← _cleanup taker m q s3;
                  match_sell_loop fuel' taker s4
              end
        end
      else Ok s
  end.

(** [Engine._match_sell] *)
Definition _match_sell (taker : loc) (s : Engine) : result Engine :=
  match_sell_loop (S (length (bids s))) taker s.

(** [Engine.add_order]: the state after the call and the returned id. *)
Definition add_order (sd : string) (p q : Z) (s : Engine)
  : result (Engine * nat) :=
  if q <=? 0 then Ok (s, 0%nat)
  else
    let seq := _seq s in
    let order_id := _next_order_id s in
    let taker := length (store s) in
    let s0 := mkEngine (bids s) (asks s) (S seq) (S order_id) (trades s)
                       (_by_seq s) (_by_id s)
                       (store s ++ [mkOrder order_id sd p q seq]) in
    s1 ← (if String.eqb sd "buy" then _match_buy taker s0
          else _match_sell taker s0);
    t ← deref s1 taker;
    if 0 <? quantity t
    then
      s2 ← _push taker
             (mkEngine (bids s1) (asks s1) (_seq s1) (_next_order_id s1)
                       (trades s1)
                       (<[seq := taker]> (_by_seq s1))
                       (<[order_id := taker]> (_by_id s1)) (store s1));
      Ok (s2, order_id)
    else Ok (s1, 0%nat).

(** ** Runs of the public interface *)

Inductive call :=
| AddOrder (sd : string) (p q : Z)
| BestBid
| BestAsk.

(** One call: the new state and the ids it returned (one id for
    [add_order], none for the two reads). *)
Definition step (c : call) (s : Engine) : result (Engine * list nat) :=
  match c with
  | AddOrder sd p q => '(s', r) ← add_order sd p q s; Ok (s', [r])
  | BestBid => '(s', _) ← best_bid s; Ok (s', [])
  | BestAsk => '(s', _) ← best_ask s; Ok (s', [])
  end.

(** A sequence of calls: the final state and the ids returned by the
    [add_order] calls, in call order. *)
Fixpoint run (cs : list call) (s : Engine) : result (Engine * list nat) :=
  match cs with
  | [] => Ok (s, [])
  | c :: cs' =>
      '(s1, r) ← step c s;
      '(s2, rs) ← run cs' s1;
      Ok (s2, r ++ rs)
  end.

(** The states an engine can be in: [init] followed by calls. *)
Definition reachable (s : Engine) : Prop :=
  ∃ cs ids, run cs init = Ok (s, ids).

(** ** Vocabulary of the properties *)

(** The order [o] is registered at reference [l]: both dictionaries hold it. *)
Definition resting (s : Engine) (l : loc) (o : Order) : Prop :=
  store s !! l = Some o
  ∧ _by_seq s !! sequence o = Some l
  ∧ _by_id s !! id o = Some l.

(** The queue entry [_push] writes for an order, and the queue it goes to. *)
Definition key_of (o : Order) : entry :=
  if String.eqb (side o) "buy" then (- price o, sequence o)
  else (price o, sequence o).

Definition queue_of (o : Order) (s : Engine) : list entry :=
  if String.eqb (side o) "buy" then bids s else asks s.

(** A queue entry that no longer names a live order. *)
Definition tombstone (s : Engine) (e : entry) : Prop :=
  match _by_seq s !! e.2 with
  | None => True
  | Some l => ∃ o, store s !! l = Some o ∧ quantity o ≤ 0
  end.

(** The quantity traded by the order with id [i], as maker or as taker. *)
Definition participates (i : nat) (t : Trade) : bool :=
  (maker_order_id t =? i)%nat || (taker_order_id t =? i)%nat.

Fixpoint filled (i : nat) (ts : list Trade) : Z :=
  match ts with
  | [] => 0
  | t :: ts' => (if participates i t then t_quantity t else 0) + filled i ts'
  end.

(** The remaining quantity of the order with id [i] if it is registered,
    and 0 if it is not. *)
Definition remaining (s : Engine) (i : nat) : Z :=
  match _by_id s !! i with
  | Some l =>
      match store s !! l with
      | Some o => quantity o
      | None => 0
      end
  | None => 0
  end.

(** The quantities submitted by the accepted [add_order] calls, in call
    order: entry [i] is the quantity submitted for the order with id [S i]. *)
Fixpoint submitted (cs : list call) : list Z :=
  match cs with
  | [] => []
  | AddOrder _ _ q :: cs' => if q <=? 0 then submitted cs' else q :: submitted cs'
  | _ :: cs' => submitted cs'
  end.

(** The crossing test of the taker's side. *)
Definition crosses (sd : string) (maker_price taker_price : Z) : Prop :=
  if String.eqb sd "buy" then maker_price ≤ taker_price
  else taker_price ≤ maker_price.

(** The state [s] with the [side] string of the object at [l] replaced. *)
Definition with_side (sd : string) (o : Order) : Order :=
  mkOrder (id o) sd (price o) (quantity o) (sequence o).

Definition relabel (l : loc) (sd : string) (s : Engine) : Engine :=
  set_store (alter (with_side sd) l (store s)) s.

(** ** One turn of the matching loops

    [match_iter true] is one evaluation of the loop condition and body of
    [_match_buy], [match_iter false] one of [_match_sell]; the flag tells
    whether the loop goes on.  The loops are unfolded into it by
    [match_buy_loop_unfold] and [match_sell_loop_unfold]. *)

Definition opposite (buy : bool) : string := if buy then "sell" else "buy".
Definition side_name (buy : bool) : string := if buy then "buy" else "sell".
Definition opp_queue (buy : bool) (s : Engine) : list entry :=
  if buy then asks s else bids s.
Definition no_cross (buy : bool) (maker_price taker_price : Z) : bool :=
  if buy then maker_price >? taker_price else maker_price <? taker_price.

Definition match_iter (buy : bool) (taker : loc) (s : Engine)
  : result (Engine * bool) :=
  t ← deref s taker;
  if (0 <? quantity t) && negb (bool_decide (opp_queue buy s = []))
  then
    '(s1, best) ← _peek_top (opposite buy) s;
    match best with
    | None => Ok (s1, false)
    | Some b =>
        bo ← deref s1 b;
        t1 ← deref s1 taker;
        if no_cross buy (price bo) (price t1) then Ok (s1, false)
        else
          '(s2, maker) ← _pop_top (opposite buy) s1;
          match maker with
          | None => Err AttributeError
          | Some m =>
              t2 ← deref s2 taker;
              mo ← deref s2 m;
              let q := Z.min (quantity t2) (quantity mo) in
              let s3 := _record_trade (price mo) q (side_name buy)
                                      (id mo) (id t2) s2 in
              s4 ← _cleanup taker m q s3;
              Ok (s4, true)
          end
    end
  else Ok (s, false).

Definition match_loop_of (buy : bool) : nat → loc → Engine → result Engine :=
  if buy then match_buy_loop else match_sell_loop.

Definition set_opp (buy : bool) (h : list entry) (s : Engine) : Engine :=
  if buy then set_asks h s else set_bids h s.

(** The state after a turn that trades: the taker [t] at [tk] meets the
    maker [mo] at [m], whose entry was at the head of the opposite queue
    and [rest] behind it. *)
Definition fill (buy : bool) (tk m : loc) (t mo : Order) (rest : list entry)
    (s : Engine) : Engine :=
  let q := Z.min (quantity t) (quantity mo) in
  let st := <[m := with_quantity (quantity mo - q) mo]>
              (<[tk := with_quantity (quantity t - q) t]> (store s)) in
  let tr := trades s ++
             [mkTrade (price mo) q (side_name buy) (id mo) (id t)] in
  let s2 := set_opp buy rest s in
  if 0 <? quantity mo - q
  then
    if String.eqb (side mo) "buy"
    then mkEngine (heappush (bids s2) (- price mo, sequence mo)) (asks s2)
                  (_seq s) (_next_order_id s) tr (_by_seq s) (_by_id s) st
    else mkEngine (bids s2) (heappush (asks s2) (price mo, sequence mo))
                  (_seq s) (_next_order_id s) tr (_by_seq s) (_by_id s) st
  else mkEngine (bids s2) (asks s2) (_seq s) (_next_order_id s) tr
                (delete (sequence mo) (_by_seq s))
                (delete (id mo) (_by_id s)) st.

(** The state in which [add_order] starts to match: both counters are
    advanced and the taker is allocated at the end of the store. *)
Definition alloc (sd : string) (p q : Z) (s : Engine) : Engine :=
  mkEngine (bids s) (asks s) (S (_seq s)) (S (_next_order_id s)) (trades s)
           (_by_seq s) (_by_id s)
           (store s ++ [mkOrder (_next_order_id s) sd p q (_seq s)]).

(** The state in which [add_order] returns an id: the taker [t] is
    registered under [seq] and [order_id] and pushed on its side. *)
Definition settle (seq order_id : nat) (tk : loc) (t : Order) (s : Engine)
  : Engine :=
  if String.eqb (side t) "buy"
  then mkEngine (heappush (bids s) (- price t, sequence t)) (asks s)
                (_seq s) (_next_order_id s) (trades s)
                (<[seq := tk]> (_by_seq s)) (<[order_id := tk]> (_by_id s))
                (store s)
  else mkEngine (bids s) (heappush (asks s) (price t, sequence t))
                (_seq s) (_next_order_id s) (trades s)
                (<[seq := tk]> (_by_seq s)) (<[order_id := tk]> (_by_id s))
                (store s).

(** The calls that only read. *)
Definition is_read (c : call) : bool :=
  match c with
  | AddOrder _ _ _ => false
  | BestBid | BestAsk => true
  end.

(** [s'] answers [best_bid] and [best_ask] as [s] does: the registry and the
    objects are those of [s], and the loop of [_peek_top] ends alike on the
    queues of both. *)
Definition same_reads (s s' : Engine) : Prop :=
  _by_seq s' = _by_seq s ∧ store s' = store s
  ∧ peek_loop s (bids s') = peek_loop s (bids s)
  ∧ peek_loop s (asks s') = peek_loop s (asks s).

(** The state reached from [init] by the calls [cs]. *)
Definition state_after (cs : list call) : Engine :=
  match run cs init with
  | Ok (s, _) => s
  | Err _ => init
  end.

(** Two asks at the same price, the first for 3 and the second for 4. *)
Definition two_asks : list call :=
  [AddOrder "sell" 100 3; AddOrder "sell" 100 4].

(** One bid for 5 at 100. *)
Definition one_bid : list call := [AddOrder "buy" 100 5].

(** Two asks at different prices: 3 at 100, then 4 at 99. *)
Definition two_levels : list call :=
  [AddOrder "sell" 100 3; AddOrder "sell" 99 4].

(** A bid for 5 at 90 and an ask for 5 at 95. *)
Definition bid_and_ask : list call :=
  [AddOrder "buy" 90 5; AddOrder "sell" 95 5].

(** ** What a matching loop has done so far

    [trade_ok buy tk p s0 t]: the trade [t] is between the taker at [tk],
    whose limit price is [p], and a maker that was registered when the loop
    started in [s0], on the opposite side, at a price that passes the
    crossing test; the trade carries the maker's price. *)
Definition trade_ok (buy : bool) (tk : loc) (p : Z) (s0 : Engine) (t : Trade)
  : Prop :=
  ∃ m mo, _by_seq s0 !! m = Some m ∧ store s0 !! m = Some mo ∧ m ≠ tk
    ∧ String.eqb (side mo) "buy" = negb buy
    ∧ no_cross buy (price mo) p = false
    ∧ 0 < t_quantity t
    ∧ t = mkTrade (price mo) (t_quantity t) (side_name buy) (S m) (S tk).

(** [progress buy tk p s0 s new]: the loop started in [s0] and is in [s]
    after recording the trades [new]. *)
Record progress (buy : bool) (tk : loc) (p : Z) (s0 s : Engine)
    (new : list Trade) : Prop := {
  pg_trades : trades s = trades s0 ++ new;
  pg_seq : _seq s = _seq s0;
  pg_next : _next_order_id s = _next_order_id s0;
  pg_own : if buy then bids s = bids s0 else asks s = asks s0;
  pg_opp : ∀ e, e ∈ opp_queue buy s → e ∈ opp_queue buy s0;
  pg_by_seq : ∀ k l, _by_seq s !! k = Some l → _by_seq s0 !! k = Some l;
  pg_by_id : ∀ k l, _by_id s !! k = Some l → _by_id s0 !! k = Some l;
  pg_len : length (store s) = length (store s0);
  pg_store : ∀ l o0, store s0 !! l = Some o0 →
    ∃ o, store s !! l = Some o ∧ id o = id o0 ∧ side o = side o0
         ∧ price o = price o0 ∧ sequence o = sequence o0
         ∧ quantity o0 = quantity o + filled (S l) new;
  pg_new : Forall (trade_ok buy tk p s0) new;
  pg_prio : ∀ l1 l2 o1 o2 pre t post,
    _by_seq s0 !! l1 = Some l1 → store s0 !! l1 = Some o1 →
    store s0 !! l2 = Some o2 →
    String.eqb (side o1) "buy" = negb buy →
    price o1 = price o2 → (l1 < l2)%nat →
    new = pre ++ t :: post → maker_order_id t = S l2 →
    filled (S l1) pre = quantity o1
}.

(** [conserved subs s]: [subs] lists, by reference, the quantity every
    order of the store was created with, and for each order that quantity
    is what the order has left plus what the trade log says it traded; the
    log names no order that has not been created. *)
Definition conserved (subs : list Z) (s : Engine) : Prop :=
  length subs = length (store s)
  ∧ (∀ l o, store s !! l = Some o →
       subs !! l = Some (quantity o + filled (S l) (trades s)))
  ∧ Forall (λ t, (maker_order_id t ≤ length (store s))%nat
                 ∧ (taker_order_id t ≤ length (store s))%nat) (trades s).

(** ** The invariant of the engine

    [inv None] holds between calls; [inv (Some taker)] holds inside
    [add_order] while [taker] is being matched and is not registered yet.
    In the states that can be reached the reference of an order is its
    sequence number, and its id is one more. *)

Record inv (tk : option loc) (s : Engine) : Prop := {
  inv_bids_sorted : StronglySorted entry_le (bids s);
  inv_asks_sorted : StronglySorted entry_le (asks s);
  inv_seq : _seq s = length (store s);
  inv_next_id : _next_order_id s = S (length (store s));
  inv_store : ∀ l o, store s !! l = Some o →
    sequence o = l ∧ id o = S l ∧ 0 ≤ quantity o;
  inv_by_seq : ∀ k l, _by_seq s !! k = Some l →
    k = l ∧ ∃ o, store s !! l = Some o ∧ 0 < quantity o
                 ∧ key_of o ∈ queue_of o s;
  inv_by_id : ∀ k l, _by_id s !! k = Some l ↔
    k = S l ∧ _by_seq s !! l = Some l;
  inv_bids : ∀ e, e ∈ bids s →
    ∃ o, store s !! e.2 = Some o ∧ e = key_of o ∧ side o = "buy";
  inv_asks : ∀ e, e ∈ asks s →
    ∃ o, store s !! e.2 = Some o ∧ e = key_of o ∧ side o ≠ "buy";
  inv_live : ∀ l o, store s !! l = Some o → 0 < quantity o →
    tk ≠ Some l → _by_seq s !! l = Some l;
  inv_taker : ∀ l, tk = Some l →
    (l < length (store s))%nat ∧ _by_seq s !! l = None
}.

(** ** Vocabulary of the further properties *)

(** [o1] stands before [o2] in their queue: its entry is smaller in the
    tuple order, by a better price or by an earlier sequence number. *)
Definition before (o1 o2 : Order) : Prop :=
  ¬ entry_le (key_of o2) (key_of o1).

(** The makers of a loop are taken in queue order: a trade against [o2] is
    recorded only when every order before it is filled. *)
Definition queue_order (buy : bool) (s0 : Engine) (new : list Trade) : Prop :=
  ∀ l1 l2 o1 o2 pre t post,
    _by_seq s0 !! l1 = Some l1 → store s0 !! l1 = Some o1 →
    store s0 !! l2 = Some o2 →
    String.eqb (side o1) "buy" = negb buy → before o1 o2 →
    new = pre ++ t :: post → maker_order_id t = S l2 →
    filled (S l1) pre = quantity o1.

(** No resting bid reaches the price of a resting ask. *)
Definition uncrossed (s : Engine) : Prop :=
  ∀ l1 o1 l2 o2, resting s l1 o1 → resting s l2 o2 →
    side o1 = "buy" → side o2 ≠ "buy" → price o1 < price o2.

(** Every queue entry names a registered order, and no entry is repeated. *)
Definition tight (s : Engine) : Prop :=
  NoDup (bids s) ∧ NoDup (asks s)
  ∧ (∀ e : entry, e ∈ bids s ∨ e ∈ asks s → _by_seq s !! e.2 = Some e.2).

(** A record of the trade log is well formed for an engine whose next id
    is [next]. *)
Definition trade_wf (next : nat) (t : Trade) : Prop :=
  0 < t_quantity t
  ∧ (1 ≤ maker_order_id t)%nat
  ∧ (maker_order_id t < taker_order_id t)%nat
  ∧ (taker_order_id t < next)%nat
  ∧ (taker_side t = "buy" ∨ taker_side t = "sell").

(** * The hash table ([hash_table.py]), the maze ([maze.py]) and the unit
    converter ([unit_conversion_exercise.py])

    The outcomes of the functions of these three files: a value, or one of
    the Python exceptions they raise; [OutOfFuel] is the model's (a loop
    that has used up the number of turns it was given). *)

Inductive exn :=
  KeyError | IndexError | ValueError | ZeroDivisionError | OutOfFuel.

Inductive outcome (A : Type) :=
| Ret (a : A)
| Raise (e : exn).
Arguments Ret {A} a.
Arguments Raise {A} e.

#[global] Instance outcome_ret : MRet outcome := fun A a => Ret a.
#[global] Instance outcome_bind : MBind outcome := fun A B k r =>
  match r with
  | Ret a => k a
  | Raise e => Raise e
  end.

(** The loop of [_next_pow2]: [while cap < n: cap <<= 1]. *)
Fixpoint next_pow2_loop (fuel : nat) (cap n : Z) : outcome Z :=
  match fuel with
  | O => Raise OutOfFuel
  | S fuel' =>
      if cap <? n then next_pow2_loop fuel' (Z.shiftl cap 1) n else Ret cap
  end.

(** [OpenAddressingHashTable._next_pow2]; the loop condition is tested at
    most once more than [n] has binary digits. *)
Definition _next_pow2 (n : Z) : outcome Z :=
  next_pow2_loop (S (Z.to_nat (Z.log2_up n))) 1 n.

(** [neighbors] of [maze.py]: the cells it yields, in the order it yields
    them. *)
Definition neighbors (current : Z * Z) (rows cols : Z) : list (Z * Z) :=
  let '(r, c) := current in
  omap (λ d : Z * Z,
          let '(dr, dc) := d in
          let nr := r + dr in
          let nc := c + dc in
          if (0 <=? nr) && (nr <? rows) && (0 <=? nc) && (nc <? cols)
          then Some (nr, nc) else None)
       [(1, 0); (-1, 0); (0, 1); (0, -1)].

(** ** The maze searches ([maze.py]) *)

(** A cell [(r, c)] of the grid. *)
Abbreviation cell := (Z * Z)%type (only parsing).

(** [l[i]] on a Python sequence: a negative index counts from the end, and
    an index outside the sequence raises [IndexError]. *)
Definition getitem {A} (l : list A) (i : Z) : outcome A :=
  let j := if i <? 0 then i + Z.of_nat (length l) else i in
  if j <? 0 then Raise IndexError
  else match l !! Z.to_nat j with
       | Some x => Ret x
       | None => Raise IndexError
       end.

(** [grid[nr][nc]]. *)
Definition grid_at (grid : list (list Z)) (n : cell) : outcome Z :=
  row ← getitem grid n.1; getitem row n.2.

(** The three containers of a search: the deque [q] of
    [bfs_maze_problem] or the list [stack] of [dfs_maze_problem], the set
    [visited] and the dict [parent] (whose values are a cell or [None]). *)
Record search := mkSearch {
  pending : list cell;
  visited : gset cell;
  parent : gmap cell (option cell)
}.

(** The body of [for nr, nc in neighbors(...)], for one yielded cell:
    [and] reads the grid only for a cell that is not in [visited]. *)
Definition visit (grid : list (list Z)) (current : cell) (st : search)
    (n : cell) : outcome search :=
  if bool_decide (n ∈ visited st) then Ret st
  else
    v ← grid_at grid n;
    if v =? 1
    then Ret (mkSearch (pending st ++ [n]) ({[n]} ∪ visited st)
                       (<[n := Some current]> (parent st)))
    else Ret st.

(** The [for] loop over the cells [neighbors] yields. *)
Fixpoint for_neighbors (grid : list (list Z)) (current : cell) (st : search)
    (ns : list cell) : outcome search :=
  match ns with
  | [] => Ret st
  | n :: ns' => st' ← visit grid current st n; for_neighbors grid current st' ns'
  end.

(** The loop of [_create_path]: [path] grows at its end while [current]
    follows [parent]; [parent[current]] raises [KeyError] for a missing
    key; the result is [path[::-1]]. *)
Fixpoint create_path_loop (fuel : nat) (current : option cell)
    (parent : gmap cell (option cell)) (path : list cell)
  : outcome (list cell) :=
  match current with
  | None => Ret (reverse path)
  | Some c =>
      match fuel with
      | O => Raise OutOfFuel
      | S fuel' =>
          match parent !! c with
          | None => Raise KeyError
          | Some p => create_path_loop fuel' p parent (path ++ [c])
          end
      end
  end.

(** [_create_path]; a chain of parents without a cycle has at most as many
    cells as [parent] has keys. *)
Definition _create_path (current : cell) (parent : gmap cell (option cell))
  : outcome (list cell) :=
  create_path_loop (S (size parent)) (Some current) parent [].

(** [q.popleft()] and [stack.pop()], with [None] for the empty container
    (on which the [while] loop ends). *)
Definition popleft (l : list cell) : option (cell * list cell) :=
  match l with
  | [] => None
  | x :: l' => Some (x, l')
  end.

Definition pop (l : list cell) : option (cell * list cell) :=
  match reverse l with
  | [] => None
  | x :: l' => Some (x, reverse l')
  end.

(** The [while] loop of the two searches; [take] is [popleft] or [pop]. *)
Fixpoint search_loop (take : list cell → option (cell * list cell))
    (fuel : nat) (grid : list (list Z)) (rows cols : Z) (goal : cell)
    (st : search) : outcome (list cell) :=
  match fuel with
  | O => Raise OutOfFuel
  | S fuel' =>
      match take (pending st) with
      | None => Ret []
      | Some (current_cell, rest) =>
          if bool_decide (current_cell = goal)
          then _create_path current_cell (parent st)
          else
            st' ← for_neighbors grid current_cell
                    (mkSearch rest (visited st) (parent st))
                    (neighbors current_cell rows cols);
            search_loop take fuel' grid rows cols goal st'
      end
  end.

(** The text the two searches share: they differ in the end of the
    container the next cell is taken from.  Every cell enters the container
    at most once, and apart from [start] only cells of the grid do, so the
    loop makes at most [rows * cols + 1] turns and one more test. *)
Definition maze_problem (take : list cell → option (cell * list cell))
    (grid : list (list Z)) (start goal : cell) : outcome (list cell) :=
  row0 ← getitem grid 0;
  let rows := Z.of_nat (length grid) in
  let cols := Z.of_nat (length row0) in
  if (start.1 >? rows) || (goal.1 >? rows)
     || (start.2 >? cols) || (goal.2 >? cols)
  then Raise ValueError
  else search_loop take (S (S (length grid * length row0))) grid rows cols goal
         (mkSearch [start] {[start]} {[start := None]}).

(** [bfs_maze_problem]. *)
Definition bfs_maze_problem (grid : list (list Z)) (start goal : cell)
  : outcome (list cell) :=
  maze_problem popleft grid start goal.

(** [dfs_maze_problem]. *)
Definition dfs_maze_problem (grid : list (list Z)) (start goal : cell)
  : outcome (list cell) :=
  maze_problem pop grid start goal.

(** One move of a search: to a cell [neighbors] yields and that holds 1. *)
Definition move (grid : list (list Z)) (rows cols : Z) (a b : cell) : Prop :=
  b ∈ neighbors a rows cols ∧ grid_at grid b = Ret 1.

(** A list of cells in which each cell but the first is related to the one
    before it. *)
Fixpoint walk (R : cell → cell → Prop) (l : list cell) : Prop :=
  match l with
  | a :: l' =>
      match l' with
      | b :: _ => R a b ∧ walk R l'
      | [] => True
      end
  | [] => True
  end.

(** [l] is the list of cells from a root of [parent] to [c]. *)
Inductive chain (parent : gmap cell (option cell)) : cell → list cell → Prop :=
| chain_root c : parent !! c = Some None → chain parent c [c]
| chain_step c p l :
    parent !! c = Some (Some p) → chain parent p l → chain parent c (l ++ [c]).

(** A grid with a first row whose rows all have the length of that row. *)
Definition rectangular (grid : list (list Z)) : bool :=
  match grid with
  | [] => false
  | row0 :: _ => forallb (λ row, (length row =? length row0)%nat) grid
  end.

(** The numbers of rows and of columns the searches read off a grid. *)
Definition rows_of (grid : list (list Z)) : Z := Z.of_nat (length grid).
Definition cols_of (grid : list (list Z)) : Z :=
  Z.of_nat (length (default [] (grid !! 0%nat))).

(** What holds of the containers of a search from [start] for [goal], at
    every test of the [while] loop ([cur = None]) and, while the
    neighbours of a cell [c] are being visited, with [cur = Some c]. *)
Record sinv (grid : list (list Z)) (rows cols : Z) (start goal : cell)
    (cur : option cell) (st : search) : Prop := mkSinv {
  si_dom : ∀ c, c ∈ visited st ↔ is_Some (parent st !! c);
  si_pend : ∀ c, c ∈ pending st → c ∈ visited st;
  si_nodup : NoDup (pending st);
  si_start : start ∈ visited st;
  si_chain : ∀ c, c ∈ visited st →
    ∃ l, chain (parent st) c l ∧ head l = Some start ∧ NoDup l
         ∧ (∀ x, x ∈ l → x ∈ visited st) ∧ walk (move grid rows cols) l;
  si_box : ∀ c, c ∈ visited st →
    c = start ∨ (0 ≤ c.1 < rows ∧ 0 ≤ c.2 < cols);
  si_done : ∀ c, c ∈ visited st → c ∉ pending st → cur ≠ Some c →
    c ≠ goal ∧ ∀ n, move grid rows cols c n → n ∈ visited st;
  si_cur : ∀ c, cur = Some c → c ∈ visited st ∧ (c ∉ pending st) ∧ c ≠ goal
}.

(** The turns a search can still make: the cells in the container and
    the cells that have not been visited. *)
Definition turns_left (rows cols : Z) (st : search) : nat :=
  (length (pending st)
   + (S (Z.to_nat rows * Z.to_nat cols) - size (visited st)))%nat.

(** The number of moves from a root of [parent] to [c]. *)
Definition depth (parent : gmap cell (option cell)) (c : cell) (d : nat) : Prop :=
  ∃ l, chain parent c l ∧ length l = S d.

(** What holds in addition of the containers of [bfs_maze_problem]: the
    deque holds cells [A] at [D] moves from [start] followed by cells [B]
    at [D + 1] moves, the cells that have left it are at most [D] moves
    away, and a move from one of them adds at most one. *)
Record binv (grid : list (list Z)) (rows cols : Z) (start : cell)
    (cur : option cell) (st : search) (D : nat) (A B : list cell)
  : Prop := mkBinv {
  bi_front : pending st = A ++ B;
  bi_cur : ∀ c, cur = Some c → depth (parent st) c D;
  bi_A : Forall (λ a, depth (parent st) a D) A;
  bi_B : Forall (λ b, depth (parent st) b (S D)) B;
  bi_start : depth (parent st) start 0;
  bi_done : ∀ a, a ∈ visited st → a ∉ pending st → cur ≠ Some a →
    ∃ da, depth (parent st) a da ∧ (da ≤ D)%nat;
  bi_next : ∀ a b da, a ∈ visited st → a ∉ pending st → cur ≠ Some a →
    move grid rows cols a b → depth (parent st) a da →
    ∃ db, depth (parent st) b db ∧ (db ≤ S da)%nat
}.

(** Two grids: a corridor around a wall, and a ring around a pillar. *)
Definition corridor_grid : list (list Z) := [[1; 1; 1]; [0; 0; 1]; [1; 1; 1]].
Definition ring_grid : list (list Z) := [[1; 1; 1]; [1; 0; 1]; [1; 1; 1]].

(** ** The hash table ([hash_table.py]) *)

(** [l[i] = x] on a Python list; the list that results. *)
Definition setitem {A} (l : list A) (i : Z) (x : A) : outcome (list A) :=
  let j := if i <? 0 then i + Z.of_nat (length l) else i in
  if (j <? 0) || (Z.of_nat (length l) <=? j) then Raise IndexError
  else Ret (<[Z.to_nat j := x]> l).

(** A Python float, as the rational [numer / denom] it denotes
    ([denom > 0]).  The table multiplies floats only by its capacity, a
    power of two, and such a product is computed without rounding; so
    [int(capacity * x)] and [n >= x * capacity] are those of the
    rationals. *)
Record ratio := mkRatio { numer : Z; denom : Z }.

(** [int(n * x)]: the product truncated toward zero. *)
Definition int_mul (n : Z) (x : ratio) : Z := Z.quot (n * numer x) (denom x).

(** [d >= x * n]. *)
Definition ge_mul (d : Z) (x : ratio) (n : Z) : bool :=
  n * numer x <=? d * denom x.

(** The floats [0.70] (the default [max_load]) and [0.3]
    ([_deleted_clean_ratio]): the binary64 numbers nearest to 7/10 and
    3/10. *)
Definition float_0_70 : ratio := mkRatio 3152519739159347 4503599627370496.
Definition float_0_3 : ratio := mkRatio 5404319552844595 18014398509481984.

Module OpenAddressingHashTable.

(** A cell of [_storage]: the sentinel [_EMPTY], the sentinel [_DELETED] or
    an [_Entry].  An [_Entry] object is referenced by one cell of one list
    only, so writing its [value] is writing the cell. *)
Inductive slot (K V : Type) :=
| EMPTY
| DELETED
| Entry (key : K) (value : V) (h : Z).
Arguments EMPTY {K V}.
Arguments DELETED {K V}.
Arguments Entry {K V} key value h.

(** The attributes of a table; [_deleted_clean_ratio] is the constant
    [0.3]. *)
Record table (K V : Type) := mkTable {
  _capacity : Z;
  _storage : list (slot K V);
  _mask : Z;
  _size : Z;
  _max_load : ratio;
  _resize_threshold : Z;
  _deleted_count : Z
}.
Arguments mkTable {K V}.
Arguments _capacity {K V}.
Arguments _storage {K V}.
Arguments _mask {K V}.
Arguments _size {K V}.
Arguments _max_load {K V}.
Arguments _resize_threshold {K V}.
Arguments _deleted_count {K V}.

Definition _deleted_clean_ratio : ratio := float_0_3.

(** [__init__]. *)
Definition __init__ {K V} (initial_capacity : Z) (max_load : ratio)
  : outcome (table K V) :=
  capacity ← _next_pow2 (Z.max 8 initial_capacity);
  Ret (mkTable capacity (replicate (Z.to_nat capacity) EMPTY) (capacity - 1)
               0 max_load (int_mul capacity max_load) 0).

(** The inner [while] loop of [_rehash_into]: the first index from [idx]
    whose cell of [new_table] is [_EMPTY]. *)
Fixpoint rehash_probe {K V} (fuel : nat) (new_table : list (slot K V))
    (new_mask idx : Z) : outcome Z :=
  match fuel with
  | O => Raise OutOfFuel
  | S fuel' =>
      s ← getitem new_table idx;
      match s with
      | EMPTY => Ret idx
      | _ => rehash_probe fuel' new_table new_mask (Z.land (idx + 1) new_mask)
      end
  end.

(** The [for] loop of [_rehash_into] over the cells of the old storage. *)
Fixpoint rehash_loop {K V} (slots : list (slot K V))
    (new_table : list (slot K V)) (new_mask : Z) : outcome (list (slot K V)) :=
  match slots with
  | [] => Ret new_table
  | s :: slots' =>
      match s with
      | Entry _ _ h =>
          idx ← rehash_probe (length new_table) new_table new_mask
                  (Z.land h new_mask);
          new_table' ← setitem new_table idx s;
          rehash_loop slots' new_table' new_mask
      | _ => rehash_loop slots' new_table new_mask
      end
  end.

(** [_rehash_into]. *)
Definition _rehash_into {K V} (t : table K V) (new_capacity : Z)
  : outcome (table K V) :=
  new_capacity ← _next_pow2 (Z.max 8 new_capacity);
  let new_table := replicate (Z.to_nat new_capacity) EMPTY in
  let new_mask := new_capacity - 1 in
  new_table ← rehash_loop (_storage t) new_table new_mask;
  Ret (mkTable new_capacity new_table new_mask (_size t) (_max_load t)
               (int_mul new_capacity (_max_load t)) 0).

(** [_resize] and [_rehash_clean]. *)
Definition _resize {K V} (t : table K V) : outcome (table K V) :=
  _rehash_into t (Z.shiftl (_capacity t) 1).

Definition _rehash_clean {K V} (t : table K V) : outcome (table K V) :=
  _rehash_into t (_capacity t).

(** [_maybe_grow_or_clean]. *)
Definition _maybe_grow_or_clean {K V} (t : table K V) : outcome (table K V) :=
  if _size t + 1 >? _resize_threshold t then _resize t
  else if _deleted_count t >? int_mul (_capacity t) _deleted_clean_ratio
       then _rehash_clean t
       else Ret t.

(** The [while True] loop of [insert]. *)
Fixpoint insert_loop {K V} `{EqDecision K} (fuel : nat) (t : table K V)
    (key : K) (value : V) (h : Z) (target_index : Z)
    (first_deletion_index : option Z) : outcome (table K V) :=
  match fuel with
  | O => Raise OutOfFuel
  | S fuel' =>
      target_slot ← getitem (_storage t) target_index;
      match target_slot with
      | EMPTY =>
          let target_index := default target_index first_deletion_index in
          storage ← setitem (_storage t) target_index (Entry key value h);
          Ret (mkTable (_capacity t) storage (_mask t) (_size t + 1)
                 (_max_load t) (_resize_threshold t)
                 (match first_deletion_index with
                  | Some _ => _deleted_count t - 1
                  | None => _deleted_count t
                  end))
      | DELETED =>
          insert_loop fuel' t key value h
            (Z.land (target_index + 1) (_mask t))
            (match first_deletion_index with
             | Some _ => first_deletion_index
             | None => Some target_index
             end)
      | Entry k v h' =>
          if (h' =? h) && bool_decide (k = key)
          then
            storage ← setitem (_storage t) target_index (Entry k value h');
            Ret (mkTable (_capacity t) storage (_mask t) (_size t)
                   (_max_load t) (_resize_threshold t) (_deleted_count t))
          else
            insert_loop fuel' t key value h
              (Z.land (target_index + 1) (_mask t)) first_deletion_index
      end
  end.

(** [insert]; a probe that meets every cell once has met an [_EMPTY] cell
    or the key. *)
Definition insert {K V} `{EqDecision K} (hash : K → Z) (t : table K V)
    (key : K) (value : V) : outcome (table K V) :=
  t ← _maybe_grow_or_clean t;
  let h := hash key in
  t ← insert_loop (length (_storage t)) t key value h (Z.land h (_mask t)) None;
  if _size t >? _resize_threshold t then _resize t else Ret t.

(** The loop of [get]; [None] stands for the [default] that is returned. *)
Fixpoint get_loop {K V} `{EqDecision K} (fuel : nat) (t : table K V)
    (key : K) (h : Z) (target_index : Z) : outcome (option V) :=
  match fuel with
  | O => Raise OutOfFuel
  | S fuel' =>
      target_slot ← getitem (_storage t) target_index;
      match target_slot with
      | EMPTY => Ret None
      | DELETED => get_loop fuel' t key h (Z.land (target_index + 1) (_mask t))
      | Entry k v h' =>
          if (h' =? h) && bool_decide (k = key) then Ret (Some v)
          else get_loop fuel' t key h (Z.land (target_index + 1) (_mask t))
      end
  end.

(** [get]. *)
Definition get {K V} `{EqDecision K} (hash : K → Z) (t : table K V) (key : K)
  : outcome (option V) :=
  let h := hash key in
  get_loop (length (_storage t)) t key h (Z.land h (_mask t)).

(** The loop of [delete]. *)
Fixpoint delete_loop {K V} `{EqDecision K} (fuel : nat) (t : table K V)
    (key : K) (h : Z) (target_index : Z) : outcome (table K V) :=
  match fuel with
  | O => Raise OutOfFuel
  | S fuel' =>
      target_slot ← getitem (_storage t) target_index;
      match target_slot with
      | EMPTY => Raise KeyError
      | DELETED => delete_loop fuel' t key h (Z.land (target_index + 1) (_mask t))
      | Entry k v h' =>
          if (h' =? h) && bool_decide (k = key)
          then
            storage ← setitem (_storage t) target_index DELETED;
            let t := mkTable (_capacity t) storage (_mask t) (_size t - 1)
                       (_max_load t) (_resize_threshold t)
                       (_deleted_count t + 1) in
            if ge_mul (_deleted_count t) _deleted_clean_ratio (_capacity t)
            then _rehash_clean t
            else Ret t
          else delete_loop fuel' t key h (Z.land (target_index + 1) (_mask t))
      end
  end.

(** [delete]. *)
Definition delete {K V} `{EqDecision K} (hash : K → Z) (t : table K V)
    (key : K) : outcome (table K V) :=
  let h := hash key in
  delete_loop (length (_storage t)) t key h (Z.land h (_mask t)).

(** [__len__], [__setitem__], [__getitem__] and [__contains__]. *)
Definition __len__ {K V} (t : table K V) : Z := _size t.

Definition __setitem__ {K V} `{EqDecision K} (hash : K → Z) (t : table K V)
    (key : K) (value : V) : outcome (table K V) :=
  insert hash t key value.

Definition __getitem__ {K V} `{EqDecision K} (hash : K → Z) (t : table K V)
    (key : K) : outcome V :=
  v ← get hash t key;
  match v with
  | None => Raise KeyError
  | Some v => Ret v
  end.

Definition __contains__ {K V} `{EqDecision K} (hash : K → Z) (t : table K V)
    (key : K) : outcome bool :=
  v ← get hash t key;
  Ret (bool_decide (is_Some v)).

(** *** The vocabulary of the results *)

(** The [j]-th index a probe for the hash [h] meets in a table of [c]
    cells. *)
Definition probe (c h : Z) (j : nat) : Z := (h + Z.of_nat j) mod c.

Fixpoint count_entries {K V} (l : list (slot K V)) : Z :=
  match l with
  | [] => 0
  | Entry _ _ _ :: l' => 1 + count_entries l'
  | _ :: l' => count_entries l'
  end.

Fixpoint count_deleted {K V} (l : list (slot K V)) : Z :=
  match l with
  | [] => 0
  | DELETED :: l' => 1 + count_deleted l'
  | _ :: l' => count_deleted l'
  end.

(** The test on which the loops of [insert], [get] and [delete] leave a
    cell behind: it is not [_EMPTY] and does not hold the key. *)
Definition stops {K V} `{EqDecision K} (h : Z) (key : K) (s : slot K V) : bool :=
  match s with
  | EMPTY => true
  | DELETED => false
  | Entry k _ h' => (h' =? h) && bool_decide (k = key)
  end.

(** The probe for [key] ends at its [js]-th cell. *)
Definition stop_at {K V} `{EqDecision K} (t : table K V) (h : Z) (key : K)
    (js : nat) : Prop :=
  (js < length (_storage t))%nat
  ∧ (∃ s, _storage t !! Z.to_nat (probe (_capacity t) h js) = Some s
          ∧ stops h key s = true)
  ∧ ∀ j, (j < js)%nat →
      ∃ s, _storage t !! Z.to_nat (probe (_capacity t) h j) = Some s
           ∧ stops h key s = false.

(** The table holds [value] under [key]. *)
Definition holds {K V} (t : table K V) (key : K) (value : V) : Prop :=
  ∃ i h, _storage t !! i = Some (Entry key value h).

(** A [max_load] that is not negative and, added to
    [_deleted_clean_ratio], stays below 1. *)
Definition load_ok (max_load : ratio) : Prop :=
  0 < denom max_load ∧ 0 ≤ numer max_load
  ∧ numer max_load * denom _deleted_clean_ratio
    + numer _deleted_clean_ratio * denom max_load
    < denom max_load * denom _deleted_clean_ratio.

(** What holds of a table between the calls of its methods, but for the
    bound on the tombstones (which [delete] breaks before it cleans). *)
Record wf_core {K V} (hash : K → Z) (t : table K V) : Prop := mkWfCore {
  wf_cap : ∃ n, 3 ≤ n ∧ _capacity t = 2 ^ n;
  wf_mask : _mask t = _capacity t - 1;
  wf_len : Z.of_nat (length (_storage t)) = _capacity t;
  wf_size : _size t = count_entries (_storage t);
  wf_deleted : _deleted_count t = count_deleted (_storage t);
  wf_room : _size t + _deleted_count t < _capacity t;
  wf_threshold : _resize_threshold t = int_mul (_capacity t) (_max_load t);
  wf_placed : ∀ i k v h, _storage t !! i = Some (Entry k v h) →
    h = hash k
    ∧ ∃ j, (j < length (_storage t))%nat
           ∧ probe (_capacity t) h j = Z.of_nat i
           ∧ ∀ j', (j' < j)%nat →
               _storage t !! Z.to_nat (probe (_capacity t) h j') ≠ Some EMPTY;
  wf_unique : ∀ i j k v v' h h',
    _storage t !! i = Some (Entry k v h) →
    _storage t !! j = Some (Entry k v' h') → i = j;
  wf_load : load_ok (_max_load t)
}.

Definition wf {K V} (hash : K → Z) (t : table K V) : Prop :=
  wf_core hash t
  ∧ _deleted_count t ≤ int_mul (_capacity t) _deleted_clean_ratio.

(** The tables that [__init__], [insert] and [delete] produce. *)
Inductive built {K V} `{EqDecision K} (hash : K → Z) : table K V → Prop :=
| built_init initial_capacity max_load t :
    load_ok max_load →
    __init__ initial_capacity max_load = Ret t → built hash t
| built_insert t key value t' :
    built hash t → insert hash t key value = Ret t' → built hash t'
| built_delete t key t' :
    built hash t → delete hash t key = Ret t' → built hash t'.

(** The keys of the entries of a storage, in the order of the cells. *)
Definition keys_of {K V} (l : list (slot K V)) : list K :=
  omap (λ s, match s with Entry k _ _ => Some k | _ => None end) l.

(** A sequence of calls of [insert] and [delete]. *)
Inductive table_call (K V : Type) :=
| Insert (key : K) (value : V)
| Delete (key : K).
Arguments Insert {K V} key value.
Arguments Delete {K V} key.

Fixpoint table_run {K V} `{EqDecision K} (hash : K → Z) (t : table K V)
    (calls : list (table_call K V)) : outcome (table K V) :=
  match calls with
  | [] => Ret t
  | Insert key value :: calls' =>
      t' ← insert hash t key value; table_run hash t' calls'
  | Delete key :: calls' =>
      t' ← delete hash t key; table_run hash t' calls'
  end.

Definition table_after {K V} `{EqDecision K} (hash : K → Z)
    (initial_capacity : Z) (max_load : ratio) (calls : list (table_call K V))
  : outcome (table K V) :=
  t ← __init__ initial_capacity max_load; table_run hash t calls.

(** [hash] of a Python int [k] with [|k| < 2^61 - 1] other than [-1]. *)
Definition hash_int (k : Z) : Z := k.

(** The calls that build the tables of the examples: 1 and 9 meet in one
    cell of a table of 8 cells, and deleting 1 leaves a tombstone before
    9. *)
Definition sample_calls : list (table_call Z Z) :=
  [Insert 1 10; Insert 9 90; Insert 3 30; Delete 1].

Definition empty_table : table Z Z :=
  mkTable 0 [] 0 0 float_0_70 0 0.

Definition sample_table : table Z Z :=
  Eval vm_compute in
    match table_after hash_int 8 float_0_70 sample_calls with
    | Ret t => t
    | Raise _ => empty_table
    end.

Definition sample_table_17 : table Z Z :=
  Eval vm_compute in
    match insert hash_int sample_table 17 170 with
    | Ret t => t
    | Raise _ => empty_table
    end.

(** With [max_load = 1.0] eight keys fill a table of eight cells. *)
Definition float_1_0 : ratio := mkRatio 1 1.

Definition full_table : table Z Z :=
  Eval vm_compute in
    match table_after hash_int 8 float_1_0
            [Insert 0 0; Insert 1 10; Insert 2 20; Insert 3 30;
             Insert 4 40; Insert 5 50; Insert 6 60; Insert 7 70] with
    | Ret t => t
    | Raise _ => empty_table
    end.

Definition sample_table_no_9 : table Z Z :=
  Eval vm_compute in
    match delete hash_int sample_table 9 with
    | Ret t => t
    | Raise _ => empty_table
    end.

End OpenAddressingHashTable.

(** ** The unit converter ([unit_conversion_exercise.py]) *)

Module Parser.
Section model.

(** The values are Python floats.  The parser multiplies them and takes
    [1 / value]; the results of the two operations are left open, but for
    the [ZeroDivisionError] that [1 / value] raises ([inv] gives [None]). *)
Variable F : Type.
Variable mul : F → F → F.
Variable inv : F → option F.

(** The attributes [facts] and [parsing_info] ([None] before [parse]). *)
Record Parser := mkParser {
  facts : list (string * F * string);
  parsing_info : option (gmap (string * string) F)
}.

(** [__init__]. *)
Definition __init__ (facts : list (string * F * string)) : Parser :=
  mkParser facts None.

(** [populate], on the dict that [parsing_info] holds: [key[::-1]] is the
    pair turned round. *)
Definition populate (info : gmap (string * string) F) (key : string * string)
    (value : F) : outcome (gmap (string * string) F) :=
  let info := <[key := value]> info in
  match inv value with
  | None => Raise ZeroDivisionError
  | Some r => Ret (<[(key.2, key.1) := r]> info)
  end.

(** [rights.index(left)] where [left in rights]. *)
Definition index (rights : list string) (left' : string) : option nat :=
  fst <$> list_find (λ r, r = left') rights.

(** [d[key]] on a dict. *)
Definition dict_get (info : gmap (string * string) F) (key : string * string)
  : outcome F :=
  match info !! key with
  | Some v => Ret v
  | None => Raise KeyError
  end.

(** The body of the [for] loop of [parse] on one fact. *)
Definition parse_fact
    (st : gmap (string * string) F * list string * list string)
    (fact : string * F * string)
  : outcome (gmap (string * string) F * list string * list string) :=
  let '(info, lefts, rights) := st in
  let '(left', value, right') := fact in
  info ← populate info (left', right') value;
  info ← match index rights left' with
         | Some position =>
             l0 ← getitem lefts (Z.of_nat position);
             r0 ← getitem rights (Z.of_nat position);
             x ← dict_get info (l0, r0);
             populate info (l0, right') (mul value x)
         | None => Ret info
         end;
  Ret (info, lefts ++ [left'], rights ++ [right']).

Fixpoint parse_loop
    (st : gmap (string * string) F * list string * list string)
    (fs : list (string * F * string))
  : outcome (gmap (string * string) F * list string * list string) :=
  match fs with
  | [] => Ret st
  | fact :: fs' => st' ← parse_fact st fact; parse_loop st' fs'
  end.

(** [parse]. *)
Definition parse (p : Parser) : outcome Parser :=
  st ← parse_loop (∅, [], []) (facts p);
  Ret (mkParser (facts p) (Some st.1.1)).

(** An element of the list [answer] returns: a float or the string
    ["Not possible!"]. *)
Inductive result_item :=
| Value (x : F)
| NotPossible.

(** [answer]. *)
Definition answer (p : Parser) (queries : list (string * F * string))
  : outcome (list result_item) :=
  match parsing_info p with
  | None => Raise ValueError
  | Some info =>
      Ret (map (λ query : string * F * string,
                  let potential_key := (query.1.1, query.2) in
                  let value := query.1.2 in
                  match info !! potential_key with
                  | None => NotPossible
                  | Some x => Value (mul value x)
                  end) queries)
  end.

(** What holds of the dict and the two lists of [parse] between two
    facts. *)
Definition parse_inv
    (st : gmap (string * string) F * list string * list string) : Prop :=
  length st.1.2 = length st.2
  ∧ (∀ i l r, st.1.2 !! i = Some l → st.2 !! i = Some r →
              is_Some (st.1.1 !! (l, r)))
  ∧ ∀ a b, is_Some (st.1.1 !! (a, b)) → is_Some (st.1.1 !! (b, a)).

End model.
Arguments facts {F}.
Arguments parsing_info {F}.
Arguments mkParser {F}.
Arguments Value {F}.
Arguments NotPossible {F}.
Arguments __init__ {F}.
Arguments populate {F}.
Arguments dict_get {F}.
Arguments parse_fact {F}.
Arguments parse_loop {F}.
Arguments parse {F}.
Arguments answer {F}.
Arguments parse_inv {F}.

(** Exact fractions in the place of the floats, for the examples. *)
Definition ratio_mul (x y : ratio) : ratio :=
  mkRatio (numer x * numer y) (denom x * denom y).

Definition ratio_inv (x : ratio) : option ratio :=
  if numer x =? 0 then None
  else Some (if numer x <? 0 then mkRatio (- denom x) (- numer x)
             else mkRatio (denom x) (numer x)).

Definition length_facts : list (string * ratio * string) :=
  [("m", mkRatio 100 1, "cm"); ("cm", mkRatio 10 1, "mm"); ("km", mkRatio 1000 1, "m")].

End Parser.

(** ** Results about outcomes *)

Lemma bind_Ok {A B} (e : result A) (k : A → result B) (b : B) :
  e ≫= k = Ok b ↔ ∃ a, e = Ok a ∧ k a = Ok b.
Proof.
  destruct e as [a|err]; simpl; split.
  - intros H. by exists a.
  - by intros (a' & [= ->] & H).
  - done.
  - by intros (a' & [=] & _).
Qed.

Lemma match_buy_loop_unfold n tk s :
  match_buy_loop (S n) tk s
  = '(s', c) ← match_iter true tk s;
    if (c : bool) then match_buy_loop n tk s' else Ok s'.
Proof.
  unfold match_iter. simpl.
  destruct (deref s tk) as [t|]; simpl; [|done].
  destruct (_ && _); [|done].
  destruct (_peek_top "sell" s) as [[s1 [b|]]|]; simpl; try done.
  destruct (deref s1 b) as [bo|]; simpl; [|done].
  destruct (deref s1 tk) as [t1|]; simpl; [|done].
  destruct (_ >? _); [done|].
  destruct (_pop_top "sell" s1) as [[s2 [m|]]|]; simpl; try done.
  destruct (deref s2 tk) as [t2|]; simpl; [|done].
  destruct (deref s2 m) as [mo|]; simpl; [|done].
  by destruct (_cleanup _ _ _ _).
Qed.

Lemma match_sell_loop_unfold n tk s :
  match_sell_loop (S n) tk s
  = '(s', c) ← match_iter false tk s;
    if (c : bool) then match_sell_loop n tk s' else Ok s'.
Proof.
  unfold match_iter. simpl.
  destruct (deref s tk) as [t|]; simpl; [|done].
  destruct (_ && _); [|done].
  destruct (_peek_top "buy" s) as [[s1 [b|]]|]; simpl; try done.
  destruct (deref s1 b) as [bo|]; simpl; [|done].
  destruct (deref s1 tk) as [t1|]; simpl; [|done].
  destruct (_ <? _); [done|].
  destruct (_pop_top "buy" s1) as [[s2 [m|]]|]; simpl; try done.
  destruct (deref s2 tk) as [t2|]; simpl; [|done].
  destruct (deref s2 m) as [mo|]; simpl; [|done].
  by destruct (_cleanup _ _ _ _).
Qed.

Lemma match_loop_unfold buy n tk s :
  match_loop_of buy (S n) tk s
  = '(s', c) ← match_iter buy tk s;
    if (c : bool) then match_loop_of buy n tk s' else Ok s'.
Proof.
  destruct buy; [apply match_buy_loop_unfold | apply match_sell_loop_unfold].
Qed.

(** ** The tuple order and the queue model *)

Lemma entry_leb_le a b : entry_leb a b = true ↔ entry_le a b.
Proof.
  unfold entry_leb, entry_le.
  rewrite orb_true_iff, andb_true_iff, Z.ltb_lt, Z.eqb_eq, Nat.leb_le.
  done.
Qed.

Lemma entry_le_total a b : entry_le a b ∨ entry_le b a.
Proof. unfold entry_le. lia. Qed.

Lemma entry_le_trans a b c : entry_le a b → entry_le b c → entry_le a c.
Proof. unfold entry_le. lia. Qed.

Lemma entry_le_antisym (a b : entry) : entry_le a b → entry_le b a → a = b.
Proof.
  destruct a as [a1 a2], b as [b1 b2]. unfold entry_le. simpl.
  intros H1 H2. f_equal; lia.
Qed.

Lemma elem_of_heappush h x y : y ∈ heappush h x ↔ y = x ∨ y ∈ h.
Proof.
  induction h as [|z h IH]; simpl.
  - rewrite list_elem_of_singleton, elem_of_nil. tauto.
  - destruct (entry_leb x z).
    + rewrite !elem_of_cons. tauto.
    + rewrite !elem_of_cons, IH. tauto.
Qed.

Lemma length_heappush h x : length (heappush h x) = S (length h).
Proof.
  induction h as [|z h IH]; simpl; [done|].
  destruct (entry_leb x z); simpl; by rewrite ?IH.
Qed.

Lemma heappush_sorted h x :
  StronglySorted entry_le h → StronglySorted entry_le (heappush h x).
Proof.
  induction 1 as [|z h Hs IH Hz]; simpl.
  - repeat constructor.
  - destruct (entry_leb x z) eqn:E.
    + apply entry_leb_le in E. constructor; [by constructor|].
      constructor; [done|].
      eapply Forall_impl; [exact Hz|]. intros w Hw.
      by eapply entry_le_trans.
    + constructor; [done|].
      apply Forall_forall. intros w Hw.
      apply elem_of_heappush in Hw as [->|Hw].
      * destruct (entry_le_total z x) as [|Hc]; [done|].
        apply entry_leb_le in Hc. congruence.
      * rewrite Forall_forall in Hz. by apply Hz.
Qed.

Lemma sorted_head_le e rest x :
  StronglySorted entry_le (e :: rest) → x ∈ e :: rest → entry_le e x.
Proof.
  intros Hs Hx. apply StronglySorted_inv in Hs as [_ Hall].
  apply elem_of_cons in Hx as [->|Hx].
  - unfold entry_le. lia.
  - rewrite Forall_forall in Hall. by apply Hall.
Qed.

Lemma sorted_app_r (l1 l2 : list entry) :
  StronglySorted entry_le (l1 ++ l2) → StronglySorted entry_le l2.
Proof.
  induction l1 as [|x l1 IH]; simpl; [done|].
  intros H. apply StronglySorted_inv in H as [H _]. by apply IH.
Qed.

(** ** The loops of [_peek_top] and [_pop_top] *)

Lemma peek_loop_spec s h h' r :
  peek_loop s h = Ok (h', r) →
  ∃ dropped, h = dropped ++ h' ∧ Forall (tombstone s) dropped ∧
    match r with
    | None => h' = []
    | Some l => ∃ e rest o, h' = e :: rest ∧ _by_seq s !! e.2 = Some l
                            ∧ store s !! l = Some o ∧ 0 < quantity o
    end.
Proof.
  revert h' r. induction h as [|[k seq] rest IH]; intros h' r H; simpl in H.
  { injection H as <- <-. by exists []. }
  destruct (_by_seq s !! seq) as [l|] eqn:Hseq.
  - unfold deref in H. destruct (store s !! l) as [o|] eqn:Ho; simpl in H; [|done].
    destruct (quantity o <=? 0) eqn:Hq.
    + apply IH in H as (d & -> & Hd & Hr).
      exists ((k, seq) :: d). split; [done|]. split; [|done].
      constructor; [|done]. unfold tombstone. simpl. rewrite Hseq.
      exists o. split; [done|]. lia.
    + injection H as <- <-. exists []. split; [done|]. split; [done|].
      exists (k, seq), rest, o. repeat split; try done. lia.
  - apply IH in H as (d & -> & Hd & Hr).
    exists ((k, seq) :: d). split; [done|]. split; [|done].
    constructor; [|done]. unfold tombstone. simpl. by rewrite Hseq.
Qed.

Lemma peek_loop_fixed s h h' r :
  peek_loop s h = Ok (h', r) → peek_loop s h' = Ok (h', r).
Proof.
  revert h' r. induction h as [|[k seq] rest IH]; intros h' r H; simpl in H.
  { by simplify_eq. }
  destruct (_by_seq s !! seq) as [l|] eqn:Hseq; [|by apply IH].
  unfold deref in H. destruct (store s !! l) as [o|] eqn:Ho; simpl in H; [|done].
  destruct (quantity o <=? 0) eqn:Hq; [by apply IH|].
  injection H as <- <-. simpl. rewrite Hseq. unfold deref. rewrite Ho. simpl.
  by rewrite Hq.
Qed.

Lemma peek_loop_frame s s' h :
  _by_seq s' = _by_seq s → store s' = store s →
  peek_loop s' h = peek_loop s h.
Proof.
  intros E1 E2. induction h as [|[k seq] rest IH]; simpl; [done|].
  rewrite E1. unfold deref. rewrite E2, IH. done.
Qed.

Lemma pop_loop_frame s s' h :
  _by_seq s' = _by_seq s → store s' = store s →
  pop_loop s' h = pop_loop s h.
Proof.
  intros E1 E2. induction h as [|[k seq] rest IH]; simpl; [done|].
  rewrite E1. unfold deref. rewrite E2, IH. done.
Qed.

Lemma pop_after_peek s h e rest l :
  peek_loop s h = Ok (e :: rest, Some l) →
  pop_loop s (e :: rest) = Ok (rest, Some l).
Proof.
  intros H. apply peek_loop_fixed in H. destruct e as [k seq]. simpl in *.
  destruct (_by_seq s !! seq) as [l'|] eqn:Hseq.
  - unfold deref in *. destruct (store s !! l') as [o|]; simpl in *; [|done].
    destruct (quantity o <=? 0) eqn:Hq.
    + apply peek_loop_spec in H as (d & Hd & _).
      apply (f_equal length) in Hd. rewrite length_app in Hd. simpl in Hd. lia.
    + injection H as <-. apply Z.leb_gt in Hq.
      by rewrite (proj2 (Z.ltb_lt _ _) Hq).
  - apply peek_loop_spec in H as (d & Hd & _).
    apply (f_equal length) in Hd. rewrite length_app in Hd. simpl in Hd. lia.
Qed.

Lemma peek_loop_returns s h :
  (∀ e l, e ∈ h → _by_seq s !! e.2 = Some l → is_Some (store s !! l)) →
  ∃ h' r, peek_loop s h = Ok (h', r).
Proof.
  induction h as [|[k seq] rest IH]; intros Hs; simpl; [by eauto|].
  assert (∃ h' r, peek_loop s rest = Ok (h', r)) as Hrest.
  { apply IH. intros e l He. apply Hs. by right. }
  destruct (_by_seq s !! seq) as [l|] eqn:Hseq; [|done].
  destruct (Hs (k, seq) l) as [o Ho]; [by left|done|].
  unfold deref. rewrite Ho. simpl. destruct (quantity o <=? 0); eauto.
Qed.

(** ** One turn of a matching loop, executed *)

Lemma set_opp_same buy s : set_opp buy (opp_queue buy s) s = s.
Proof. by destruct s, buy. Qed.

Lemma opp_queue_set_opp buy h s : opp_queue buy (set_opp buy h s) = h.
Proof. by destruct buy. Qed.

Lemma set_opp_set_opp buy h h' s :
  set_opp buy h (set_opp buy h' s) = set_opp buy h s.
Proof. by destruct buy. Qed.

Lemma peek_top_opposite buy s :
  _peek_top (opposite buy) s
  = '(h, r) ← peek_loop s (opp_queue buy s); Ok (set_opp buy h s, r).
Proof. by destruct buy. Qed.

Lemma pop_top_opposite buy s :
  _pop_top (opposite buy) s
  = '(h, r) ← pop_loop s (opp_queue buy s); Ok (set_opp buy h s, r).
Proof. by destruct buy. Qed.

Lemma deref_Ok s l o : deref s l = Ok o ↔ store s !! l = Some o.
Proof.
  unfold deref. destruct (store s !! l); split; intros H; by simplify_eq.
Qed.

Lemma fill_store_lookup (st : list Order) tk m t' mo' l :
  m ≠ tk → (m < length st)%nat → (tk < length st)%nat →
  (<[m := mo']> (<[tk := t']> st)) !! l
  = if decide (l = m) then Some mo'
    else if decide (l = tk) then Some t' else st !! l.
Proof.
  intros Hne Hm Htk. destruct (decide (l = m)) as [->|Hlm].
  - apply list_lookup_insert_eq. by rewrite length_insert.
  - rewrite list_lookup_insert_ne by done.
    destruct (decide (l = tk)) as [->|Hlt].
    + by apply list_lookup_insert_eq.
    + by rewrite list_lookup_insert_ne.
Qed.

(** What a turn does, in terms of the state it starts from. *)
Lemma match_iter_exec buy tk s s' c :
  (∀ k, _by_seq s !! k ≠ Some tk) →
  match_iter buy tk s = Ok (s', c) →
  ∃ t d h, store s !! tk = Some t
    ∧ opp_queue buy s = d ++ h ∧ Forall (tombstone s) d
    ∧ if c then
        0 < quantity t ∧
        ∃ e rest m mo, h = e :: rest ∧ _by_seq s !! e.2 = Some m
          ∧ store s !! m = Some mo ∧ 0 < quantity mo
          ∧ no_cross buy (price mo) (price t) = false
          ∧ s' = fill buy tk m t mo rest s
      else
        s' = set_opp buy h s
        ∧ (quantity t ≤ 0 ∨ h = []
           ∨ ∃ e rest m mo, h = e :: rest ∧ _by_seq s !! e.2 = Some m
               ∧ store s !! m = Some mo ∧ 0 < quantity mo
               ∧ no_cross buy (price mo) (price t) = true).
Proof.
  intros Hfresh H. unfold match_iter in H.
  apply bind_Ok in H as (t & Ht & H). apply deref_Ok in Ht.
  exists t.
  destruct ((0 <? quantity t) && _) eqn:Htest; cycle 1.
  { simplify_eq. exists [], (opp_queue buy s'). rewrite set_opp_same.
    repeat split; try done.
    apply andb_false_iff in Htest as [Hq|Hq].
    - left. by apply Z.ltb_ge.
    - right; left. apply negb_false_iff, bool_decide_eq_true in Hq. done. }
  apply andb_true_iff in Htest as [Hq _]. apply Z.ltb_lt in Hq.
  rewrite peek_top_opposite in H.
  apply bind_Ok in H as ([s1 best] & Hpeek & H).
  apply bind_Ok in Hpeek as ([h1 r] & Hpeek & Hs1). simplify_eq.
  pose proof (peek_loop_spec _ _ _ _ Hpeek) as (d & Hd & Hdrop & Hbest).
  exists d, h1. split; [done|]. split; [done|]. split; [done|].
  destruct best as [b|]; cycle 1.
  { simplify_eq. split; [done|]. by right; left. }
  destruct Hbest as (e & rest & bo & -> & Hseq & Hbo & Hqbo).
  apply bind_Ok in H as (bo' & Hbo' & H). apply deref_Ok in Hbo'.
  assert (store (set_opp buy (e :: rest) s) = store s) as Hst by by destruct buy.
  assert (_by_seq (set_opp buy (e :: rest) s) = _by_seq s) as Hbs by by destruct buy.
  rewrite Hst in Hbo'. simplify_eq. rename bo' into bo, Hbo' into Hbo.
  apply bind_Ok in H as (t1 & Ht1 & H). apply deref_Ok in Ht1.
  rewrite Hst in Ht1. simplify_eq.
  destruct (no_cross buy (price bo) (price t)) eqn:Hcross.
  { simplify_eq. split; [done|]. right; right.
    by exists e, rest, b, bo. }
  rewrite pop_top_opposite, opp_queue_set_opp in H.
  rewrite (pop_loop_frame s) in H by done.
  rewrite (pop_after_peek _ _ _ _ _ Hpeek) in H. simpl in H.
  rewrite set_opp_set_opp in H.
  assert (store (set_opp buy rest s) = store s) as Hst2 by by destruct buy.
  apply bind_Ok in H as (t2 & Ht2 & H). apply deref_Ok in Ht2.
  rewrite Hst2 in Ht2.
  apply bind_Ok in H as (mo & Hmo & H). apply deref_Ok in Hmo.
  rewrite Hst2 in Hmo.
  assert (t2 = t) as -> by congruence.
  assert (mo = bo) as -> by congruence.
  apply bind_Ok in H as (s4 & Hclean & H). simplify_eq.
  split; [done|]. exists e, rest, b, bo. repeat split; try done.
  assert (b ≠ tk) as Hne.
  { intros ->. by eapply Hfresh. }
  assert ((b < length (store s))%nat) as Hblt by by eapply lookup_lt_Some.
  unfold _cleanup in Hclean.
  apply bind_Ok in Hclean as (sa & Ha & Hclean).
  unfold sub_quantity in Ha.
  apply bind_Ok in Ha as (ta & Hta & Ha). apply deref_Ok in Hta.
  simpl in Hta. rewrite Hst2 in Hta.
  assert (ta = t) as -> by congruence. injection Ha as <-.
  apply bind_Ok in Hclean as (sb & Hb & Hclean).
  unfold sub_quantity in Hb.
  apply bind_Ok in Hb as (mb & Hmb & Hb). apply deref_Ok in Hmb.
  simpl in Hmb. rewrite Hst2 in Hmb.
  rewrite list_lookup_insert_ne in Hmb by done.
  assert (mb = bo) as ->
    by (apply (inj Some); etrans; [symmetry; exact Hmb|exact Hbo]).
  injection Hb as <-.
  apply bind_Ok in Hclean as (mc & Hmc & Hclean). apply deref_Ok in Hmc.
  simpl in Hmc. rewrite Hst2 in Hmc.
  rewrite list_lookup_insert_eq in Hmc by by rewrite length_insert.
  injection Hmc as <-. simpl in Hclean. unfold fill.
  destruct (0 <? quantity bo - _) eqn:Hrem.
  - unfold _push in Hclean.
    apply bind_Ok in Hclean as (md & Hmd & Hclean). apply deref_Ok in Hmd.
    simpl in Hmd. rewrite Hst2 in Hmd.
    rewrite list_lookup_insert_eq in Hmd by by rewrite length_insert.
    injection Hmd as <-. simpl in Hclean.
    destruct (String.eqb (side bo) "buy"); simplify_eq; by destruct buy.
  - simplify_eq. by destruct buy.
Qed.

(** ** The invariant is kept *)

Lemma key_of_snd o : (key_of o).2 = sequence o.
Proof. unfold key_of. by destruct (String.eqb _ _). Qed.

Lemma inv_init : inv None init.
Proof.
  split; simpl; try done; try by constructor.
  - intros k l. rewrite !lookup_empty. split; [done|]. by intros [_ ?].
  - intros e He. by apply elem_of_nil in He.
  - intros e He. by apply elem_of_nil in He.
Qed.

(** The order named by an entry of the opposite queue. *)
Lemma inv_opp_entry tk buy s e m mo :
  inv tk s → e ∈ opp_queue buy s →
  _by_seq s !! e.2 = Some m → store s !! m = Some mo →
  e.2 = m ∧ e = key_of mo ∧ String.eqb (side mo) "buy" = negb buy
  ∧ sequence mo = m ∧ id mo = S m ∧ _by_seq s !! m = Some m.
Proof.
  intros Hi He Hseq Hmo.
  destruct (inv_by_seq _ _ Hi _ _ Hseq) as [Hk _].
  destruct (inv_store _ _ Hi _ _ Hmo) as (Hsq & Hid & _).
  assert (∃ o, store s !! e.2 = Some o ∧ e = key_of o
               ∧ String.eqb (side o) "buy" = negb buy) as (o & Ho & Hkey & Hsd).
  { destruct buy; simpl in He.
    - destruct (inv_asks _ _ Hi _ He) as (o & ? & ? & ?). exists o.
      repeat split; try done. by apply String.eqb_neq.
    - destruct (inv_bids _ _ Hi _ He) as (o & ? & ? & ?). exists o.
      repeat split; try done. by apply String.eqb_eq. }
  rewrite Hk in Ho. assert (o = mo) as -> by congruence.
  split_and!; try done. by rewrite Hk in Hseq.
Qed.

(** Dropping tombstones from the front of a queue. *)
Lemma inv_drop tk buy s d h :
  inv tk s → opp_queue buy s = d ++ h → Forall (tombstone s) d →
  inv tk (set_opp buy h s).
Proof.
  intros Hi Hq Hd.
  assert (∀ o l, _by_seq s !! l = Some l → store s !! l = Some o →
            0 < quantity o → key_of o ∈ opp_queue buy s → key_of o ∈ h) as Hkeep.
  { intros o l Hl Ho Hpos Hin. rewrite Hq in Hin.
    apply elem_of_app in Hin as [Hin|Hin]; [|done].
    rewrite Forall_forall in Hd. apply Hd in Hin. unfold tombstone in Hin.
    rewrite key_of_snd in Hin.
    destruct (inv_store _ _ Hi _ _ Ho) as (Hs & _).
    rewrite Hs, Hl in Hin. destruct Hin as (o' & Ho' & Hle).
    assert (o' = o) as -> by congruence. lia. }
  assert (∀ e, e ∈ h → e ∈ opp_queue buy s) as Hsub.
  { intros e He. rewrite Hq. apply elem_of_app. by right. }
  assert (StronglySorted entry_le h) as Hsorted.
  { apply (sorted_app_r d). rewrite <- Hq.
    destruct buy; [apply (inv_asks_sorted _ _ Hi)|apply (inv_bids_sorted _ _ Hi)]. }
  destruct Hi as [Hbs Has Hsq Hni Hst Hseq Hid Hb Ha Hlive Htk].
  split; try (by destruct buy).
  - intros k l Hkl.
    assert (_by_seq s !! k = Some l) as Hkl' by by destruct buy.
    destruct (Hseq _ _ Hkl') as (-> & o & Ho & Hpos & Hin).
    split; [done|]. exists o.
    split; [by destruct buy|]. split; [done|].
    unfold queue_of in *. destruct buy, (String.eqb (side o) "buy"); simpl in *;
      try done; by eapply Hkeep.
  - intros e He. destruct buy; simpl in *; [by apply Hb|]. by apply Hb, Hsub.
  - intros e He. destruct buy; simpl in *; [|by apply Ha]. by apply Ha, Hsub.
Qed.

Lemma key_of_with_quantity q o : key_of (with_quantity q o) = key_of o.
Proof. done. Qed.

(** A turn that trades keeps the invariant. *)
Lemma inv_fill tk buy s e rest m t mo :
  inv (Some tk) s → opp_queue buy s = e :: rest →
  _by_seq s !! e.2 = Some m → store s !! m = Some mo → 0 < quantity mo →
  store s !! tk = Some t → 0 < quantity t →
  inv (Some tk) (fill buy tk m t mo rest s).
Proof.
  intros Hi Hq Hseq Hmo Hqm Ht Hqt.
  assert (e ∈ opp_queue buy s) as He by (rewrite Hq; by left).
  destruct (inv_opp_entry _ _ _ _ _ _ Hi He Hseq Hmo)
    as (Hem & Hkey & Hsd & Hsqm & Hidm & Hreg).
  destruct (inv_taker _ _ Hi tk eq_refl) as [Htklt Htkreg].
  assert (m ≠ tk) as Hne by congruence.
  assert ((m < length (store s))%nat) as Hmlt by by eapply lookup_lt_Some.
  assert (StronglySorted entry_le rest) as Hrest.
  { apply (sorted_app_r [e]). simpl. rewrite <- Hq.
    destruct buy; [apply (inv_asks_sorted _ _ Hi)|apply (inv_bids_sorted _ _ Hi)]. }
  set (q := Z.min (quantity t) (quantity mo)).
  set (st := <[m := with_quantity (quantity mo - q) mo]>
               (<[tk := with_quantity (quantity t - q) t]> (store s))).
  assert (0 < q ∧ q ≤ quantity t ∧ q ≤ quantity mo) as Hqb by (unfold q; lia).
  assert (length st = length (store s)) as Hlen
    by (unfold st; by rewrite !length_insert).
  assert (∀ l o', st !! l = Some o' →
            ∃ o, store s !! l = Some o ∧ id o' = id o ∧ side o' = side o
              ∧ price o' = price o ∧ sequence o' = sequence o
              ∧ 0 ≤ quantity o' ∧ quantity o' ≤ quantity o
              ∧ (l ≠ m → l ≠ tk → o' = o)
              ∧ (l = m → quantity o' = quantity mo - q)) as Hback.
  { intros l o' Hl. unfold st in Hl. rewrite fill_store_lookup in Hl by done.
    destruct (decide (l = m)) as [->|Hlm].
    - injection Hl as <-. exists mo. simpl. split_and!; try done; lia.
    - destruct (decide (l = tk)) as [->|Hlt].
      + injection Hl as <-. exists t. simpl. split_and!; try done; lia.
      + exists o'. destruct (inv_store _ _ Hi _ _ Hl) as (_ & _ & ?).
        split_and!; try done; lia. }
  assert (∀ l o, store s !! l = Some o →
            ∃ o', st !! l = Some o' ∧ key_of o' = key_of o
              ∧ side o' = side o ∧ (l ≠ m → l ≠ tk → o' = o)) as Hfwd.
  { intros l o Hl. unfold st. rewrite fill_store_lookup by done.
    destruct (decide (l = m)) as [->|Hlm].
    - assert (o = mo) as -> by congruence. eexists. split; [done|]. done.
    - destruct (decide (l = tk)) as [->|Hlt].
      + assert (o = t) as -> by congruence. eexists. split; [done|]. done.
      + by exists o. }
  assert (∀ l o, l ≠ m → _by_seq s !! l = Some l → store s !! l = Some o →
            key_of o ∈ opp_queue buy s → key_of o ∈ rest) as Hkeep.
  { intros l o Hlm Hl Ho Hin. rewrite Hq in Hin.
    apply elem_of_cons in Hin as [Hin|Hin]; [|done].
    destruct (inv_store _ _ Hi _ _ Ho) as (Hs & _).
    apply (f_equal snd) in Hin. rewrite key_of_snd in Hin. simpl in Hin.
    congruence. }
  assert (∀ x, x ∈ rest → x ∈ opp_queue buy s) as Hsub.
  { intros x Hx. rewrite Hq. by right. }
  assert (∀ x, x ∈ bids s → ∃ o, st !! x.2 = Some o ∧ x = key_of o
                                  ∧ side o = "buy") as Hbids.
  { intros x Hx. destruct (inv_bids _ _ Hi _ Hx) as (o & Ho & Hk & Hsdo).
    destruct (Hfwd _ _ Ho) as (o' & Ho' & Hk' & Hsd' & _).
    exists o'. split; [done|]. split; congruence. }
  assert (∀ x, x ∈ asks s → ∃ o, st !! x.2 = Some o ∧ x = key_of o
                                  ∧ side o ≠ "buy") as Hasks.
  { intros x Hx. destruct (inv_asks _ _ Hi _ Hx) as (o & Ho & Hk & Hsdo).
    destruct (Hfwd _ _ Ho) as (o' & Ho' & Hk' & Hsd' & _).
    exists o'. split; [done|]. split; congruence. }
  assert (∀ l o', st !! l = Some o' →
            sequence o' = l ∧ id o' = S l ∧ 0 ≤ quantity o') as Hstore.
  { intros l o' Hl. destruct (Hback _ _ Hl) as (o & Ho & Hi1 & _ & _ & Hi2 & Hi3 & _).
    destruct (inv_store _ _ Hi _ _ Ho) as (? & ? & _).
    split_and!; congruence. }
  assert (∀ k l, k ≠ m → _by_seq s !! k = Some l →
            k = l ∧ ∃ o, st !! l = Some o ∧ 0 < quantity o
              ∧ store s !! l = Some o) as Hothers.
  { intros k l Hkm Hkl.
    destruct (inv_by_seq _ _ Hi _ _ Hkl) as (-> & o & Ho & Hpos & _).
    split; [done|]. exists o. split; [|done].
    destruct (Hfwd _ _ Ho) as (o' & Ho' & _ & _ & Heq).
    rewrite Heq in Ho'; [done|done|congruence]. }
  unfold fill. fold q. fold st.
  destruct (0 <? quantity mo - q) eqn:Hrem.
  - (* the maker is filled in part and pushed again *)
    apply Z.ltb_lt in Hrem. rewrite Hsd.
    assert (∀ x, x ∈ heappush rest (key_of mo) → x ∈ opp_queue buy s) as Hsub'.
    { intros x Hx. apply elem_of_heappush in Hx as [->|Hx]; [|by apply Hsub].
      by rewrite <- Hkey. }
    assert (∀ k l, _by_seq s !! k = Some l →
              k = l ∧ ∃ o, st !! l = Some o ∧ 0 < quantity o
                ∧ ∃ o0, store s !! l = Some o0 ∧ key_of o = key_of o0
                        ∧ side o = side o0
                        ∧ (key_of o0 ∈ opp_queue buy s →
                           key_of o0 ∈ heappush rest (key_of mo))) as Hall.
    { intros k l Hkl. destruct (decide (k = m)) as [->|Hkm].
      - assert (l = m) as -> by congruence. split; [done|].
        destruct (Hfwd _ _ Hmo) as (o' & Ho' & Hk' & Hs' & _).
        destruct (Hback _ _ Ho') as (_ & _ & _ & _ & _ & _ & _ & _ & _ & Hq').
        exists o'. split; [done|]. split; [rewrite Hq' by done; lia|].
        exists mo. split_and!; try done. intros _.
        apply elem_of_heappush. by left.
      - destruct (Hothers _ _ Hkm Hkl) as (-> & o & Ho & Hpos & Ho0).
        split; [done|]. exists o. split_and!; try done. exists o.
        split_and!; try done. intros Hin. apply elem_of_heappush. right.
        by eapply Hkeep. }
    assert ((if negb buy then (- price mo, sequence mo)
             else (price mo, sequence mo)) = key_of mo) as Hkm.
    { unfold key_of. by rewrite Hsd. }
    assert (∀ x, x ∈ heappush rest (key_of mo) →
              ∃ o, st !! x.2 = Some o ∧ x = key_of o
                   ∧ String.eqb (side o) "buy" = negb buy) as Hopp.
    { intros x Hx. apply Hsub' in Hx. destruct buy; simpl in *.
      - destruct (Hasks _ Hx) as (o & ? & ? & ?). exists o.
        split_and!; try done. by apply String.eqb_neq.
      - destruct (Hbids _ Hx) as (o & ? & ? & ?). exists o.
        split_and!; try done. by apply String.eqb_eq. }
    assert (∀ l o', st !! l = Some o' → 0 < quantity o' → Some tk ≠ Some l →
              _by_seq s !! l = Some l) as Hlive.
    { intros l o' Hl Hpos Hltk.
      destruct (Hback _ _ Hl) as (o & Ho & _ & _ & _ & _ & _ & Hle & _).
      eapply (inv_live _ _ Hi); [done|lia|done]. }
    assert (∀ k l, _by_seq s !! k = Some l →
              k = l ∧ ∃ o, st !! l = Some o ∧ 0 < quantity o
                ∧ key_of o ∈ (if String.eqb (side o) "buy" then
                                if buy then bids s else heappush rest (key_of mo)
                              else
                                if buy then heappush rest (key_of mo) else asks s))
      as Hregs.
    { intros k l Hkl.
      destruct (Hall _ _ Hkl) as (-> & o & Ho & Hpos & o0 & Ho0 & Hk0 & Hs0 & Hin).
      split; [done|]. exists o. split_and!; try done.
      destruct (inv_by_seq _ _ Hi _ _ Hkl) as (_ & o1 & Ho1 & _ & Hin1).
      assert (o1 = o0) as -> by congruence.
      unfold queue_of in Hin1. rewrite Hs0, Hk0.
      destruct buy, (String.eqb (side o0) "buy"); simpl in *; try done;
        by apply Hin. }
    destruct buy; simpl in *; rewrite Hkm.
    + split; simpl; try done.
      * apply (inv_bids_sorted _ _ Hi).
      * by apply heappush_sorted.
      * rewrite Hlen. apply (inv_seq _ _ Hi).
      * rewrite Hlen. apply (inv_next_id _ _ Hi).
      * apply (inv_by_id _ _ Hi).
      * intros x Hx. destruct (Hopp _ Hx) as (o & ? & ? & ?). exists o.
        split_and!; try done. by apply String.eqb_neq.
      * intros l [= <-]. by rewrite Hlen.
    + split; simpl; try done.
      * by apply heappush_sorted.
      * apply (inv_asks_sorted _ _ Hi).
      * rewrite Hlen. apply (inv_seq _ _ Hi).
      * rewrite Hlen. apply (inv_next_id _ _ Hi).
      * apply (inv_by_id _ _ Hi).
      * intros x Hx. destruct (Hopp _ Hx) as (o & ? & ? & ?). exists o.
        split_and!; try done. by apply String.eqb_eq.
      * intros l [= <-]. by rewrite Hlen.
  - (* the maker is filled and leaves the registry *)
    apply Z.ltb_ge in Hrem. rewrite Hsqm, Hidm.
    assert (∀ k l, delete m (_by_seq s) !! k = Some l →
              k = l ∧ ∃ o, st !! l = Some o ∧ 0 < quantity o
                ∧ (key_of o ∈ opp_queue buy s → key_of o ∈ rest)
                ∧ key_of o ∈ queue_of o s) as Hall.
    { intros k l Hkl. apply lookup_delete_Some in Hkl as [Hkm Hkl].
      destruct (Hothers _ _ (not_eq_sym Hkm) Hkl) as (-> & o & Ho & Hpos & Ho0).
      split; [done|]. exists o. split_and!; try done.
      - intros Hin. eapply Hkeep; [|done..]. congruence.
      - destruct (inv_by_seq _ _ Hi _ _ Hkl) as (_ & o1 & Ho1 & _ & Hin1).
        by assert (o1 = o) as -> by congruence. }
    assert (∀ k l, delete (S m) (_by_id s) !! k = Some l ↔
              k = S l ∧ delete m (_by_seq s) !! l = Some l) as Hids.
    { intros k l. rewrite !lookup_delete_Some, (inv_by_id _ _ Hi).
      split.
      - intros (Hk & -> & Hl). split_and!; try done. congruence.
      - intros (-> & Hl & Hl'). split_and!; try done. congruence. }
    assert (∀ l o', st !! l = Some o' → 0 < quantity o' → Some tk ≠ Some l →
              delete m (_by_seq s) !! l = Some l) as Hlive.
    { intros l o' Hl Hpos Hltk.
      destruct (Hback _ _ Hl) as (o & Ho & _ & _ & _ & _ & _ & Hle & _ & Hqm').
      apply lookup_delete_Some. split.
      - intros ->. specialize (Hqm' eq_refl). lia.
      - eapply (inv_live _ _ Hi); [done|lia|done]. }
    destruct buy; simpl in *.
    + split; simpl; try done.
      * apply (inv_bids_sorted _ _ Hi).
      * rewrite Hlen. apply (inv_seq _ _ Hi).
      * rewrite Hlen. apply (inv_next_id _ _ Hi).
      * intros k l Hkl.
        destruct (Hall _ _ Hkl) as (-> & o & Ho & Hpos & Hin & Hin').
        split; [done|]. exists o. split_and!; try done.
        unfold queue_of in *. simpl.
        destruct (String.eqb (side o) "buy"); [done|]. by apply Hin.
      * intros x Hx. apply Hasks. rewrite Hq. by right.
      * intros l [= <-]. rewrite Hlen. split; [done|].
        by apply lookup_delete_None; right.
    + split; simpl; try done.
      * apply (inv_asks_sorted _ _ Hi).
      * rewrite Hlen. apply (inv_seq _ _ Hi).
      * rewrite Hlen. apply (inv_next_id _ _ Hi).
      * intros k l Hkl.
        destruct (Hall _ _ Hkl) as (-> & o & Ho & Hpos & Hin & Hin').
        split; [done|]. exists o. split_and!; try done.
        unfold queue_of in *. simpl.
        destruct (String.eqb (side o) "buy"); [|done]. by apply Hin.
      * intros x Hx. apply Hbids. rewrite Hq. by right.
      * intros l [= <-]. rewrite Hlen. split; [done|].
        by apply lookup_delete_None; right.
Qed.

Lemma fill_set_opp buy tk m t mo rest h s :
  fill buy tk m t mo rest (set_opp buy h s) = fill buy tk m t mo rest s.
Proof. unfold fill. by destruct buy. Qed.

Lemma tombstone_set_opp buy h s e :
  tombstone (set_opp buy h s) e ↔ tombstone s e.
Proof. by destruct buy. Qed.

Lemma inv_unregistered tk s k : inv (Some tk) s → _by_seq s !! k ≠ Some tk.
Proof.
  intros Hi Hk. destruct (inv_by_seq _ _ Hi _ _ Hk) as (-> & _).
  destruct (inv_taker _ _ Hi tk eq_refl) as [_ Hn]. congruence.
Qed.

Lemma match_iter_inv buy tk s s' c :
  inv (Some tk) s → match_iter buy tk s = Ok (s', c) → inv (Some tk) s'.
Proof.
  intros Hi H.
  apply match_iter_exec in H as (t & d & h & Ht & Hq & Hd & H);
    [|intros k; by apply inv_unregistered].
  pose proof (inv_drop _ _ _ _ _ Hi Hq Hd) as Hi1.
  destruct c.
  - destruct H as (Hqt & e & rest & m & mo & -> & Hseq & Hmo & Hqm & _ & ->).
    rewrite <- (fill_set_opp _ _ _ _ _ _ (e :: rest)).
    eapply inv_fill; try done.
    + apply opp_queue_set_opp.
    + by destruct buy.
    + by destruct buy.
    + by destruct buy.
  - by destruct H as [-> _].
Qed.

(** A property kept by every turn is kept by the loop. *)
Lemma match_loop_rule buy tk (P : Engine → Prop) :
  (∀ s s' c, P s → match_iter buy tk s = Ok (s', c) → P s') →
  ∀ n s s', P s → match_loop_of buy n tk s = Ok s' → P s'.
Proof.
  intros Hstep n. induction n as [|n IH]; intros s s' Hs H.
  { by destruct buy. }
  rewrite match_loop_unfold in H.
  apply bind_Ok in H as ([s1 c] & Hiter & H).
  pose proof (Hstep _ _ _ Hs Hiter) as Hs1.
  destruct c; [by eapply IH|]. by simplify_eq.
Qed.

Lemma match_loop_inv buy tk n s s' :
  inv (Some tk) s → match_loop_of buy n tk s = Ok s' → inv (Some tk) s'.
Proof.
  apply (match_loop_rule buy tk (inv (Some tk))).
  intros s1 s2 c. apply match_iter_inv.
Qed.

Lemma add_order_loop sd tk s :
  (if String.eqb sd "buy" then _match_buy tk s else _match_sell tk s)
  = match_loop_of (String.eqb sd "buy")
      (S (length (opp_queue (String.eqb sd "buy") s))) tk s.
Proof. by destruct (String.eqb sd "buy"). Qed.

(** The state in which [add_order] starts to match: the counters are
    advanced and the taker is allocated. *)
Lemma inv_alloc sd p q s :
  inv None s → 0 < q →
  inv (Some (length (store s)))
    (mkEngine (bids s) (asks s) (S (_seq s)) (S (_next_order_id s)) (trades s)
       (_by_seq s) (_by_id s)
       (store s ++ [mkOrder (_next_order_id s) sd p q (_seq s)])).
Proof.
  intros Hi Hq.
  assert (∀ l o, store s !! l = Some o →
            (store s ++ [mkOrder (_next_order_id s) sd p q (_seq s)]) !! l
            = Some o) as Hext.
  { intros l o Hl. by apply lookup_app_l_Some. }
  split; simpl.
  - apply (inv_bids_sorted _ _ Hi).
  - apply (inv_asks_sorted _ _ Hi).
  - rewrite length_app. simpl. rewrite (inv_seq _ _ Hi). lia.
  - rewrite length_app. simpl. rewrite (inv_next_id _ _ Hi). lia.
  - intros l o Hl. apply lookup_app_Some in Hl as [Hl|[Hge Hl]].
    + by apply (inv_store _ _ Hi).
    + apply list_lookup_singleton_Some in Hl as [Hl <-]. simpl.
      rewrite (inv_seq _ _ Hi), (inv_next_id _ _ Hi). split_and!; lia.
  - intros k l Hkl.
    destruct (inv_by_seq _ _ Hi _ _ Hkl) as (-> & o & Ho & Hpos & Hin).
    split; [done|]. exists o. split_and!; try done. by apply Hext.
  - apply (inv_by_id _ _ Hi).
  - intros e He. destruct (inv_bids _ _ Hi _ He) as (o & Ho & ?).
    exists o. split; [by apply Hext|done].
  - intros e He. destruct (inv_asks _ _ Hi _ He) as (o & Ho & ?).
    exists o. split; [by apply Hext|done].
  - intros l o Hl Hpos Hne. apply lookup_app_Some in Hl as [Hl|[Hge Hl]].
    + by eapply (inv_live _ _ Hi).
    + apply list_lookup_singleton_Some in Hl as [Hl _].
      destruct Hne. f_equal. lia.
  - intros l [= <-]. split.
    + rewrite length_app. simpl. lia.
    + destruct (_by_seq s !! length (store s)) as [l|] eqn:Hk; [|done].
      destruct (inv_by_seq _ _ Hi _ _ Hk) as (Hl & o & Ho & _).
      apply lookup_lt_Some in Ho. lia.
Qed.

(** The taker is left with a remainder: it is registered and pushed. *)
Lemma inv_register tk s t s2 :
  inv (Some tk) s → store s !! tk = Some t → 0 < quantity t →
  _push tk (mkEngine (bids s) (asks s) (_seq s) (_next_order_id s) (trades s)
              (<[tk := tk]> (_by_seq s)) (<[S tk := tk]> (_by_id s))
              (store s)) = Ok s2 →
  inv None s2.
Proof.
  intros Hi Ht Hq H. unfold _push in H.
  apply bind_Ok in H as (t' & Ht' & H). apply deref_Ok in Ht'. simpl in Ht'.
  assert (t' = t) as -> by congruence.
  destruct (inv_taker _ _ Hi tk eq_refl) as [Hlt Hnone].
  destruct (inv_store _ _ Hi _ _ Ht) as (Hsq & Hid & _).
  assert (∀ k l, <[tk := tk]> (_by_seq s) !! k = Some l →
            k = l ∧ ∃ o, store s !! l = Some o ∧ 0 < quantity o
              ∧ (l ≠ tk → key_of o ∈ queue_of o s)) as Hregs.
  { intros k l Hkl. apply lookup_insert_Some in Hkl as [[<- <-]|[Hne Hkl]].
    - split; [done|]. by exists t.
    - destruct (inv_by_seq _ _ Hi _ _ Hkl) as (-> & o & Ho & Hpos & Hin).
      split; [done|]. by exists o. }
  assert (∀ k l, <[S tk := tk]> (_by_id s) !! k = Some l ↔
            k = S l ∧ <[tk := tk]> (_by_seq s) !! l = Some l) as Hids.
  { intros k l. rewrite !lookup_insert_Some, (inv_by_id _ _ Hi). split.
    - intros [[<- <-]|[Hne [-> Hl]]]; split; try done; [by left|].
      right. split; [|done]. congruence.
    - intros [-> [[_ <-]|[Hne Hl]]]; [by left|]. right.
      split_and!; try done. congruence. }
  assert (∀ l o, store s !! l = Some o → 0 < quantity o →
            <[tk := tk]> (_by_seq s) !! l = Some l) as Hlive.
  { intros l o Hl Hpos. destruct (decide (l = tk)) as [->|Hne].
    - apply lookup_insert_eq.
    - rewrite lookup_insert_ne by done.
      eapply (inv_live _ _ Hi); [done..|congruence]. }
  assert (key_of t = if String.eqb (side t) "buy"
                     then (- price t, sequence t) else (price t, sequence t))
    as Hkey by done.
  destruct (String.eqb (side t) "buy") eqn:Hsd; simplify_eq; rewrite <- Hkey.
  - split; simpl; try done; try apply Hi.
    + apply heappush_sorted, Hi.
    + intros k l Hkl. destruct (Hregs _ _ Hkl) as (-> & o & Ho & Hpos & Hin).
      split; [done|]. exists o. split_and!; try done.
      unfold queue_of in *. simpl.
      destruct (decide (l = sequence t)) as [->|Hne].
      * assert (o = t) as -> by congruence. rewrite Hsd.
        apply elem_of_heappush. by left.
      * specialize (Hin Hne). destruct (String.eqb (side o) "buy"); [|done].
        apply elem_of_heappush. by right.
    + intros e He. apply elem_of_heappush in He as [->|He].
      * exists t. rewrite key_of_snd. split_and!; try done.
        by apply String.eqb_eq.
      * by apply (inv_bids _ _ Hi).
    + intros l o Hl Hpos _. by eapply Hlive.
  - split; simpl; try done; try apply Hi.
    + apply heappush_sorted, Hi.
    + intros k l Hkl. destruct (Hregs _ _ Hkl) as (-> & o & Ho & Hpos & Hin).
      split; [done|]. exists o. split_and!; try done.
      unfold queue_of in *. simpl.
      destruct (decide (l = sequence t)) as [->|Hne].
      * assert (o = t) as -> by congruence. rewrite Hsd.
        apply elem_of_heappush. by left.
      * specialize (Hin Hne). destruct (String.eqb (side o) "buy"); [done|].
        apply elem_of_heappush. by right.
    + intros e He. apply elem_of_heappush in He as [->|He].
      * exists t. rewrite key_of_snd. split_and!; try done.
        by apply String.eqb_neq.
      * by apply (inv_asks _ _ Hi).
    + intros l o Hl Hpos _. by eapply Hlive.
Qed.

(** The taker is filled: nothing is registered. *)
Lemma inv_discard tk s t :
  inv (Some tk) s → store s !! tk = Some t → quantity t ≤ 0 → inv None s.
Proof.
  intros Hi Ht Hq. split; try apply Hi; [|done].
  intros l o Hl Hpos _. eapply (inv_live _ _ Hi); [done..|].
  intros [= <-]. assert (o = t) as -> by congruence. lia.
Qed.

Lemma add_order_inv sd p q s s' r :
  inv None s → add_order sd p q s = Ok (s', r) → inv None s'.
Proof.
  intros Hi H. unfold add_order in H.
  destruct (q <=? 0) eqn:Hq; [by simplify_eq|]. apply Z.leb_gt in Hq.
  rewrite add_order_loop in H.
  apply bind_Ok in H as (s1 & Hloop & H).
  apply match_loop_inv in Hloop; [|by apply inv_alloc].
  apply bind_Ok in H as (t & Ht & H). apply deref_Ok in Ht.
  destruct (0 <? quantity t) eqn:Hrem.
  - apply Z.ltb_lt in Hrem.
    apply bind_Ok in H as (s2 & Hpush & H). simplify_eq.
    rewrite (inv_seq _ _ Hi), (inv_next_id _ _ Hi) in Hpush.
    by eapply inv_register.
  - apply Z.ltb_ge in Hrem. simplify_eq. by eapply inv_discard.
Qed.

Lemma peek_top_inv sd s s' r :
  inv None s → _peek_top sd s = Ok (s', r) → inv None s'.
Proof.
  intros Hi H. unfold _peek_top in H.
  destruct (String.eqb sd "buy");
    apply bind_Ok in H as ([h r'] & Hpeek & H); simplify_eq;
    apply peek_loop_spec in Hpeek as (d & Hd & Hdrop & _).
  - by apply (inv_drop _ false _ d).
  - by apply (inv_drop _ true _ d).
Qed.

Lemma best_bid_inv s s' r : inv None s → best_bid s = Ok (s', r) → inv None s'.
Proof.
  intros Hi H. unfold best_bid in H.
  apply bind_Ok in H as ([s1 o] & Hpeek & H).
  apply peek_top_inv in Hpeek; [|done].
  destruct o; [apply bind_Ok in H as (? & _ & H)|]; by simplify_eq.
Qed.

Lemma best_ask_inv s s' r : inv None s → best_ask s = Ok (s', r) → inv None s'.
Proof.
  intros Hi H. unfold best_ask in H.
  apply bind_Ok in H as ([s1 o] & Hpeek & H).
  apply peek_top_inv in Hpeek; [|done].
  destruct o; [apply bind_Ok in H as (? & _ & H)|]; by simplify_eq.
Qed.

Lemma step_inv c s s' r : inv None s → step c s = Ok (s', r) → inv None s'.
Proof.
  intros Hi H. destruct c; simpl in H;
    apply bind_Ok in H as ([s1 x] & Hc & H); simplify_eq.
  - by eapply add_order_inv.
  - by eapply best_bid_inv.
  - by eapply best_ask_inv.
Qed.

Lemma run_inv cs s s' rs : inv None s → run cs s = Ok (s', rs) → inv None s'.
Proof.
  revert s s' rs. induction cs as [|c cs IH]; intros s s' rs Hi H; simpl in H.
  { by simplify_eq. }
  apply bind_Ok in H as ([s1 r] & Hc & H).
  apply bind_Ok in H as ([s2 rs'] & Hrun & H). simplify_eq.
  eapply IH; [|done]. by eapply step_inv.
Qed.

Lemma reachable_inv s : reachable s → inv None s.
Proof. intros (cs & ids & H). eapply run_inv; [apply inv_init|done]. Qed.

(** ** Every call returns *)

Lemma deref_set_opp buy h s l : deref (set_opp buy h s) l = deref s l.
Proof. by destruct buy. Qed.

Lemma inv_no_dangling tk s (e : entry) l :
  inv tk s → _by_seq s !! e.2 = Some l → is_Some (store s !! l).
Proof.
  intros Hi Hl. destruct (inv_by_seq _ _ Hi _ _ Hl) as (_ & o & Ho & _).
  by exists o.
Qed.

Lemma store_fill buy tk m t mo rest s :
  store (fill buy tk m t mo rest s)
  = <[m := with_quantity
             (quantity mo - Z.min (quantity t) (quantity mo)) mo]>
      (<[tk := with_quantity
                 (quantity t - Z.min (quantity t) (quantity mo)) t]>
         (store s)).
Proof.
  unfold fill. destruct (0 <? _); [|done].
  by destruct (String.eqb (side mo) "buy").
Qed.

Lemma opp_queue_fill_full buy tk m t mo rest s :
  quantity mo - Z.min (quantity t) (quantity mo) ≤ 0 →
  opp_queue buy (fill buy tk m t mo rest s) = rest.
Proof.
  intros H. unfold fill. apply Z.ltb_ge in H. rewrite H. by destruct buy.
Qed.

Lemma deref_lookup s l o : store s !! l = Some o → deref s l = Ok o.
Proof. apply deref_Ok. Qed.

Lemma cleanup_returns tk m q s t mo :
  store s !! tk = Some t → store s !! m = Some mo →
  ∃ s', _cleanup tk m q s = Ok s'.
Proof.
  intros Ht Hmo. unfold _cleanup, sub_quantity.
  rewrite (deref_lookup _ _ _ Ht). simpl.
  assert ((m < length (store s))%nat) as Hm by by eapply lookup_lt_Some.
  destruct (lookup_lt_is_Some_2
              (<[tk := with_quantity (quantity t - q) t]> (store s)) m)
    as [mo1 Hmo1]; [by rewrite length_insert|].
  erewrite (deref_lookup _ m) by exact Hmo1. simpl.
  erewrite (deref_lookup _ m); cycle 1.
  { simpl. apply list_lookup_insert_eq. by rewrite length_insert. }
  simpl. destruct (0 <? quantity mo1 - q); [|by eauto].
  unfold _push. erewrite (deref_lookup _ m); cycle 1.
  { simpl. apply list_lookup_insert_eq. by rewrite length_insert. }
  simpl. destruct (String.eqb (side mo1) "buy"); eauto.
Qed.

Lemma match_iter_returns buy tk s :
  inv (Some tk) s → ∃ s' c, match_iter buy tk s = Ok (s', c).
Proof.
  intros Hi. unfold match_iter.
  destruct (inv_taker _ _ Hi tk eq_refl) as [Hlt _].
  destruct (lookup_lt_is_Some_2 _ _ Hlt) as [t Ht].
  rewrite (deref_lookup _ _ _ Ht). simpl.
  destruct (_ && _); [|by eauto].
  rewrite peek_top_opposite.
  destruct (peek_loop_returns s (opp_queue buy s)) as (h1 & best & Hpeek).
  { intros e l _. by eapply inv_no_dangling. }
  rewrite Hpeek. simpl. destruct best as [b|]; [|by eauto].
  pose proof (peek_loop_spec _ _ _ _ Hpeek)
    as (d & Hd & _ & e & rest & bo & -> & Hseq & Hbo & Hq).
  rewrite !deref_set_opp, (deref_lookup _ _ _ Hbo). simpl.
  rewrite (deref_lookup _ _ _ Ht). simpl.
  destruct (no_cross _ _ _); [by eauto|].
  rewrite pop_top_opposite, opp_queue_set_opp.
  rewrite (pop_loop_frame s) by by destruct buy.
  rewrite (pop_after_peek _ _ _ _ _ Hpeek). simpl.
  rewrite set_opp_set_opp, !deref_set_opp.
  rewrite (deref_lookup _ _ _ Ht). simpl.
  rewrite (deref_lookup _ _ _ Hbo). simpl.
  destruct (cleanup_returns tk b (Z.min (quantity t) (quantity bo))
              (_record_trade (price bo) (Z.min (quantity t) (quantity bo))
                 (side_name buy) (id bo) (id t) (set_opp buy rest s)) t bo)
    as [s4 Hs4]; [by destruct buy..|].
  rewrite Hs4. simpl. eauto.
Qed.

Lemma match_iter_done buy tk s t :
  store s !! tk = Some t → quantity t ≤ 0 →
  match_iter buy tk s = Ok (s, false).
Proof.
  intros Ht Hq. unfold match_iter, deref. rewrite Ht. simpl.
  apply Z.ltb_ge in Hq. by rewrite Hq.
Qed.

Lemma match_loop_returns buy tk n s :
  inv (Some tk) s →
  (length (opp_queue buy s) < n)%nat
  ∨ ((0 < n)%nat ∧ ∃ t, store s !! tk = Some t ∧ quantity t ≤ 0) →
  ∃ s', match_loop_of buy n tk s = Ok s'.
Proof.
  revert s. induction n as [|n IH]; intros s Hi Hfuel.
  { destruct Hfuel as [?|[? _]]; lia. }
  rewrite match_loop_unfold.
  destruct Hfuel as [Hlen|(_ & t & Ht & Hq)]; cycle 1.
  { rewrite (match_iter_done _ _ _ _ Ht Hq). simpl. eauto. }
  destruct (match_iter_returns buy tk s Hi) as (s1 & c & Hiter).
  rewrite Hiter. simpl. destruct c; [|by eauto].
  pose proof (match_iter_inv _ _ _ _ _ Hi Hiter) as Hi1.
  apply IH; [done|].
  apply match_iter_exec in Hiter as (t & d & h & Ht & Hq & Hd & H);
    [|intros k; by apply inv_unregistered].
  destruct H as (Hqt & e & rest & m & mo & -> & Hseq & Hmo & Hqm & _ & ->).
  rewrite Hq, length_app in Hlen. simpl in Hlen.
  destruct (Z_lt_le_dec 0 (quantity mo - Z.min (quantity t) (quantity mo)))
    as [Hpart|Hfull].
  - right. split; [lia|].
    assert (m ≠ tk) as Hne.
    { intros ->. by eapply (inv_unregistered tk s). }
    eexists. rewrite store_fill. split.
    + rewrite list_lookup_insert_ne by done.
      apply list_lookup_insert_eq. by eapply lookup_lt_Some.
    + simpl. lia.
  - left. rewrite opp_queue_fill_full by done. lia.
Qed.

Lemma peek_top_returns tk sd s :
  inv tk s → ∃ s' r, _peek_top sd s = Ok (s', r).
Proof.
  intros Hi. unfold _peek_top. destruct (String.eqb sd "buy").
  - destruct (peek_loop_returns s (bids s)) as (h & r & ->); [|by eauto].
    intros e l _. by eapply inv_no_dangling.
  - destruct (peek_loop_returns s (asks s)) as (h & r & ->); [|by eauto].
    intros e l _. by eapply inv_no_dangling.
Qed.

Lemma peek_top_live sd s s' l :
  _peek_top sd s = Ok (s', Some l) → is_Some (store s' !! l).
Proof.
  unfold _peek_top. intros H.
  destruct (String.eqb sd "buy");
    apply bind_Ok in H as ([h r] & Hpeek & H); simplify_eq;
    apply peek_loop_spec in Hpeek as (_ & _ & _ & _ & _ & o & _ & _ & Ho & _);
    by exists o.
Qed.

Lemma best_bid_returns s : inv None s → ∃ s' r, best_bid s = Ok (s', r).
Proof.
  intros Hi. unfold best_bid.
  destruct (peek_top_returns None "buy" s Hi) as (s1 & r & Hpeek).
  rewrite Hpeek. simpl. destruct r as [l|]; [|by eauto].
  destruct (peek_top_live _ _ _ _ Hpeek) as [o Ho].
  unfold deref. rewrite Ho. simpl. eauto.
Qed.

Lemma best_ask_returns s : inv None s → ∃ s' r, best_ask s = Ok (s', r).
Proof.
  intros Hi. unfold best_ask.
  destruct (peek_top_returns None "sell" s Hi) as (s1 & r & Hpeek).
  rewrite Hpeek. simpl. destruct r as [l|]; [|by eauto].
  destruct (peek_top_live _ _ _ _ Hpeek) as [o Ho].
  unfold deref. rewrite Ho. simpl. eauto.
Qed.

(** [add_order] returns in every state that satisfies the invariant: no
    exception is raised, no reference is invalid, and the loop stops within
    the fuel it is given. *)
Lemma add_order_returns sd p q s :
  inv None s → ∃ s' r, add_order sd p q s = Ok (s', r).
Proof.
  intros Hi. unfold add_order. destruct (q <=? 0) eqn:Hq; [by eauto|].
  apply Z.leb_gt in Hq. rewrite add_order_loop.
  pose proof (inv_alloc sd p q s Hi Hq) as Hi0.
  edestruct (match_loop_returns (String.eqb sd "buy")) as [s1 Hs1];
    [exact Hi0|left; apply Nat.lt_succ_diag_r|].
  rewrite Hs1. simpl.
  pose proof (match_loop_inv _ _ _ _ _ Hi0 Hs1) as Hi1.
  destruct (inv_taker _ _ Hi1 _ eq_refl) as [Hlt _].
  destruct (lookup_lt_is_Some_2 _ _ Hlt) as [t Ht].
  rewrite (deref_lookup _ _ _ Ht). simpl.
  destruct (0 <? quantity t); [|by eauto].
  unfold _push. erewrite deref_lookup by exact Ht. simpl.
  destruct (String.eqb (side t) "buy"); simpl; eauto.
Qed.

Lemma step_returns c s : inv None s → ∃ s' r, step c s = Ok (s', r).
Proof.
  intros Hi. destruct c; simpl.
  - destruct (add_order_returns sd p q s Hi) as (s' & r & ->). simpl. eauto.
  - destruct (best_bid_returns s Hi) as (s' & r & ->). simpl. eauto.
  - destruct (best_ask_returns s Hi) as (s' & r & ->). simpl. eauto.
Qed.

Lemma run_returns cs s : inv None s → ∃ s' rs, run cs s = Ok (s', rs).
Proof.
  revert s. induction cs as [|c cs IH]; intros s Hi; simpl; [by eauto|].
  destruct (step_returns c s Hi) as (s1 & r & Hc). rewrite Hc. simpl.
  destruct (IH s1) as (s2 & rs & ->); [by eapply step_inv|]. simpl. eauto.
Qed.

Lemma add_order_rejected sd p q s :
  q ≤ 0 → add_order sd p q s = Ok (s, 0%nat).
Proof.
  intros Hq. unfold add_order. apply Z.leb_le in Hq. by rewrite Hq.
Qed.

(** ** What a call of [add_order] is made of *)

Lemma add_order_decompose sd p q s s' r :
  0 < q → add_order sd p q s = Ok (s', r) →
  ∃ s1 t,
    match_loop_of (String.eqb sd "buy")
      (S (length (opp_queue (String.eqb sd "buy") s)))
      (length (store s)) (alloc sd p q s) = Ok s1
    ∧ store s1 !! length (store s) = Some t
    ∧ ((0 < quantity t ∧ r = _next_order_id s
        ∧ s' = settle (_seq s) (_next_order_id s) (length (store s)) t s1)
       ∨ (quantity t ≤ 0 ∧ r = 0%nat ∧ s' = s1)).
Proof.
  intros Hq H. unfold add_order in H.
  apply Z.leb_gt in Hq. rewrite Hq in H. rewrite add_order_loop in H.
  apply bind_Ok in H as (s1 & Hloop & H).
  apply bind_Ok in H as (t & Ht & H). apply deref_Ok in Ht.
  exists s1, t. split; [exact Hloop|]. split; [done|].
  destruct (0 <? quantity t) eqn:Hrem.
  - apply Z.ltb_lt in Hrem. left.
    apply bind_Ok in H as (s2 & Hpush & H). simplify_eq.
    split_and!; try done. unfold _push in Hpush.
    apply bind_Ok in Hpush as (t' & Ht' & Hpush). apply deref_Ok in Ht'.
    simpl in Ht'. assert (t' = t) as -> by congruence.
    unfold settle. by destruct (String.eqb (side t) "buy"); simplify_eq.
  - apply Z.ltb_ge in Hrem. right. by simplify_eq.
Qed.

(** A turn that trades, with what the invariant says about it. *)
Lemma match_iter_trade buy tk s s' :
  inv (Some tk) s → match_iter buy tk s = Ok (s', true) →
  ∃ t m mo q,
    store s !! tk = Some t ∧ 0 < quantity t ∧ id t = S tk
    ∧ _by_seq s !! m = Some m ∧ store s !! m = Some mo ∧ 0 < quantity mo
    ∧ m ≠ tk ∧ sequence mo = m ∧ id mo = S m
    ∧ String.eqb (side mo) "buy" = negb buy
    ∧ no_cross buy (price mo) (price t) = false
    ∧ q = Z.min (quantity t) (quantity mo)
    ∧ trades s' = trades s ++ [mkTrade (price mo) q (side_name buy) (S m) (S tk)]
    ∧ store s' = <[m := with_quantity (quantity mo - q) mo]>
                   (<[tk := with_quantity (quantity t - q) t]> (store s))
    ∧ ((0 < quantity mo - q ∧ _by_seq s' = _by_seq s ∧ _by_id s' = _by_id s)
       ∨ (quantity mo - q ≤ 0 ∧ _by_seq s' = delete m (_by_seq s)
          ∧ _by_id s' = delete (S m) (_by_id s)))
    ∧ (∀ l o, _by_seq s !! l = Some l → store s !! l = Some o →
         String.eqb (side o) "buy" = negb buy → entry_le (key_of mo) (key_of o))
    ∧ _seq s' = _seq s ∧ _next_order_id s' = _next_order_id s
    ∧ (if buy then bids s' = bids s else asks s' = asks s)
    ∧ (∀ e, e ∈ opp_queue buy s' → e ∈ opp_queue buy s).
Proof.
  intros Hi H.
  apply match_iter_exec in H as (t & d & h & Ht & Hq & Hd & H);
    [|intros k; by apply inv_unregistered].
  destruct H as (Hqt & e & rest & m & mo & -> & Hseq & Hmo & Hqm & Hcross & ->).
  assert (e ∈ opp_queue buy s) as He.
  { rewrite Hq. apply elem_of_app. right. by left. }
  destruct (inv_opp_entry _ _ _ _ _ _ Hi He Hseq Hmo)
    as (Hem & Hkey & Hsd & Hsqm & Hidm & Hreg).
  destruct (inv_store _ _ Hi _ _ Ht) as (_ & Hidt & _).
  assert (m ≠ tk) as Hne.
  { intros ->. by eapply (inv_unregistered tk s). }
  exists t, m, mo, (Z.min (quantity t) (quantity mo)).
  split_and!; try done.
  - unfold fill. rewrite Hidm, Hidt. destruct (0 <? _); [|done].
    by destruct (String.eqb (side mo) "buy").
  - apply store_fill.
  - unfold fill. rewrite Hidm, Hsqm. destruct (0 <? _) eqn:Hrem.
    + apply Z.ltb_lt in Hrem. left.
      by destruct (String.eqb (side mo) "buy").
    + apply Z.ltb_ge in Hrem. by right.
  - intros l o Hl Ho Hso.
    destruct (inv_by_seq _ _ Hi _ _ Hl) as (_ & o' & Ho' & Hpos & Hin).
    assert (o' = o) as -> by congruence.
    assert (queue_of o s = opp_queue buy s) as Hqo.
    { unfold queue_of. rewrite Hso. by destruct buy. }
    rewrite Hqo, Hq in Hin. rewrite <- Hkey.
    apply elem_of_app in Hin as [Hin|Hin].
    + rewrite Forall_forall in Hd. apply Hd in Hin. unfold tombstone in Hin.
      destruct (inv_store _ _ Hi _ _ Ho) as (Hs & _).
      rewrite key_of_snd, Hs, Hl in Hin. destruct Hin as (o' & Ho'' & Hle).
      assert (o' = o) as -> by congruence. lia.
    + eapply sorted_head_le; [|done]. apply (sorted_app_r d). rewrite <- Hq.
      destruct buy; [apply (inv_asks_sorted _ _ Hi)|apply (inv_bids_sorted _ _ Hi)].
  - unfold fill. destruct (0 <? _); [|done].
    by destruct (String.eqb (side mo) "buy").
  - unfold fill. destruct (0 <? _); [|done].
    by destruct (String.eqb (side mo) "buy").
  - unfold fill. destruct (0 <? _).
    + rewrite Hsd. by destruct buy.
    + by destruct buy.
  - intros x Hx. rewrite Hq. apply elem_of_app. right.
    assert (x ∈ heappush rest (key_of mo) ∨ x ∈ rest) as [Hin|Hin].
    { unfold fill in Hx. destruct (0 <? _).
      - left. unfold key_of. rewrite Hsd in *. by destruct buy.
      - right. by destruct buy. }
    + apply elem_of_heappush in Hin as [->|Hin]; [|by right].
      rewrite <- Hkey. by left.
    + by right.
Qed.

(** A turn that leaves the loop. *)
Lemma match_iter_stop buy tk s s' :
  inv (Some tk) s → match_iter buy tk s = Ok (s', false) →
  ∃ t d, store s !! tk = Some t
    ∧ s' = set_opp buy (opp_queue buy s') s
    ∧ opp_queue buy s = d ++ opp_queue buy s' ∧ Forall (tombstone s) d
    ∧ (quantity t ≤ 0 ∨ opp_queue buy s' = []
       ∨ ∃ e rest m mo, opp_queue buy s' = e :: rest
           ∧ _by_seq s !! e.2 = Some m
           ∧ store s !! m = Some mo ∧ 0 < quantity mo
           ∧ no_cross buy (price mo) (price t) = true).
Proof.
  intros Hi H.
  apply match_iter_exec in H as (t & d & h & Ht & Hq & Hd & -> & H);
    [|intros k; by apply inv_unregistered].
  exists t, d. rewrite opp_queue_set_opp. by split_and!.
Qed.

(** ** The trades of a matching loop *)

Lemma filled_app i ts1 ts2 : filled i (ts1 ++ ts2) = filled i ts1 + filled i ts2.
Proof. induction ts1 as [|t ts1 IH]; simpl; [done|]. rewrite IH. lia. Qed.

Lemma filled_nonneg i ts :
  Forall (λ t, 0 < t_quantity t) ts → 0 ≤ filled i ts.
Proof.
  induction 1 as [|t ts Ht _ IH]; simpl; [done|].
  destruct (participates i t); lia.
Qed.

Lemma filled_none i ts :
  Forall (λ t, participates i t = false) ts → filled i ts = 0.
Proof. induction 1 as [|t ts Ht _ IH]; simpl; [done|]. by rewrite Ht, IH. Qed.

Lemma filled_pos i ts t :
  Forall (λ t, 0 < t_quantity t) ts → t ∈ ts → participates i t = true →
  0 < filled i ts.
Proof.
  induction 1 as [|t' ts Ht' Hts IH]; intros Hin Hp.
  { by apply elem_of_nil in Hin. }
  simpl. apply elem_of_cons in Hin as [<-|Hin].
  - rewrite Hp. pose proof (filled_nonneg i ts Hts). lia.
  - specialize (IH Hin Hp). destruct (participates i t'); lia.
Qed.

Lemma trade_ok_quantity buy tk p s0 ts :
  Forall (trade_ok buy tk p s0) ts → Forall (λ t, 0 < t_quantity t) ts.
Proof.
  intros H. eapply Forall_impl; [exact H|].
  by intros t (m & mo & _ & _ & _ & _ & _ & Hq & _).
Qed.

Lemma progress_refl buy tk p s : progress buy tk p s s [].
Proof.
  split; try done.
  - by rewrite app_nil_r.
  - by destruct buy.
  - intros l o Ho. exists o. split_and!; try done. simpl. lia.
  - intros l1 l2 o1 o2 pre t post _ _ _ _ _ _ Hsplit.
    by destruct pre.
Qed.

Lemma progress_stop buy tk p s0 s new d h :
  opp_queue buy s = d ++ h →
  progress buy tk p s0 s new → progress buy tk p s0 (set_opp buy h s) new.
Proof.
  intros Hq [? ? ? ? Hopp ? ? ? ? ? ?]. split; try by destruct buy.
  intros e He. apply Hopp. rewrite Hq. apply elem_of_app. right.
  by rewrite opp_queue_set_opp in He.
Qed.

Lemma snoc_split {A} (l pre post : list A) x y :
  l ++ [x] = pre ++ y :: post →
  (post = [] ∧ pre = l ∧ y = x) ∨ ∃ post', post = post' ++ [x] ∧ l = pre ++ y :: post'.
Proof.
  destruct post as [|z post' _] using rev_ind; intros H.
  - apply app_inj_tail in H as [-> ->]. by left.
  - right. exists post'.
    change (pre ++ y :: post' ++ [z]) with (pre ++ (y :: post') ++ [z]) in H.
    rewrite app_assoc in H. by apply app_inj_tail in H as [-> ->].
Qed.

Lemma key_of_same_side o1 o2 :
  String.eqb (side o1) "buy" = String.eqb (side o2) "buy" →
  price o1 = price o2 →
  entry_le (key_of o2) (key_of o1) → (sequence o2 ≤ sequence o1)%nat.
Proof.
  unfold key_of, entry_le. intros -> ->.
  destruct (String.eqb (side o2) "buy"); simpl; lia.
Qed.

(** A turn that trades extends the record of the loop. *)
Lemma progress_trade buy tk p s0 s s' new t0 :
  inv (Some tk) s0 → store s0 !! tk = Some t0 → price t0 = p →
  inv (Some tk) s → progress buy tk p s0 s new →
  match_iter buy tk s = Ok (s', true) →
  ∃ tr, progress buy tk p s0 s' (new ++ [tr]).
Proof.
  intros Hi0 Ht0 Hp Hi Hpg H.
  destruct (match_iter_trade _ _ _ _ Hi H)
    as (t & m & mo & q & Ht & Hqt & Hidt & Hreg & Hmo & Hqm & Hne & Hsqm & Hidm
        & Hsd & Hcross & Hq & Htr & Hst & Hregs & Hbest & Hseq & Hnext & Hown
        & Hopp).
  assert ((m < length (store s))%nat) as Hmlt by by eapply lookup_lt_Some.
  assert ((tk < length (store s))%nat) as Htklt by by eapply lookup_lt_Some.
  assert (0 < q ∧ q ≤ quantity t ∧ q ≤ quantity mo) as Hqb by lia.
  pose proof (pg_by_seq _ _ _ _ _ _ Hpg _ _ Hreg) as Hreg0.
  destruct (inv_by_seq _ _ Hi0 _ _ Hreg0) as (_ & mo0 & Hmo0 & _).
  destruct (pg_store _ _ _ _ _ _ Hpg _ _ Hmo0)
    as (mo' & Hmo' & _ & Hsdm & Hprm & _).
  assert (mo' = mo) as -> by congruence.
  destruct (pg_store _ _ _ _ _ _ Hpg _ _ Ht0)
    as (t' & Ht' & _ & _ & Hprt & _).
  assert (t' = t) as -> by congruence.
  set (tr := mkTrade (price mo) q (side_name buy) (S m) (S tk)) in *.
  exists tr. split.
  - rewrite Htr, (pg_trades _ _ _ _ _ _ Hpg). by rewrite app_assoc.
  - by rewrite Hseq, (pg_seq _ _ _ _ _ _ Hpg).
  - by rewrite Hnext, (pg_next _ _ _ _ _ _ Hpg).
  - pose proof (pg_own _ _ _ _ _ _ Hpg). destruct buy; congruence.
  - intros e He. by apply (pg_opp _ _ _ _ _ _ Hpg), Hopp.
  - intros k l Hkl. apply (pg_by_seq _ _ _ _ _ _ Hpg).
    destruct Hregs as [(_ & Hd & _)|(_ & Hd & _)]; rewrite Hd in Hkl; [done|].
    by apply lookup_delete_Some in Hkl as [_ ?].
  - intros k l Hkl. apply (pg_by_id _ _ _ _ _ _ Hpg).
    destruct Hregs as [(_ & _ & Hd)|(_ & _ & Hd)]; rewrite Hd in Hkl; [done|].
    by apply lookup_delete_Some in Hkl as [_ ?].
  - rewrite Hst, !length_insert. apply (pg_len _ _ _ _ _ _ Hpg).
  - intros l o0 Ho0.
    destruct (pg_store _ _ _ _ _ _ Hpg _ _ Ho0)
      as (o & Ho & Hi1 & Hi2 & Hi3 & Hi4 & Hi5).
    rewrite Hst, fill_store_lookup by done.
    rewrite filled_app. simpl. unfold participates. simpl.
    destruct (decide (l = m)) as [->|Hlm].
    + assert (o = mo) as -> by congruence. eexists. split; [done|]. simpl.
      rewrite Nat.eqb_refl. simpl. split_and!; try done. lia.
    + destruct (decide (l = tk)) as [->|Hlt].
      * assert (o = t) as -> by congruence. eexists. split; [done|]. simpl.
        rewrite Nat.eqb_refl, orb_true_r. split_and!; try done. lia.
      * exists o. split; [done|].
        rewrite (proj2 (Nat.eqb_neq m l)) by done.
        rewrite (proj2 (Nat.eqb_neq tk l)) by done.
        simpl. split_and!; try done. lia.
  - apply Forall_app. split; [apply (pg_new _ _ _ _ _ _ Hpg)|].
    constructor; [|done]. exists m, mo0. split_and!; try done.
    + by rewrite <- Hsdm.
    + by rewrite <- Hprm, <- Hp, <- Hprt.
    + simpl. lia.
    + unfold tr. simpl. by rewrite Hprm.
  - intros l1 l2 o1 o2 pre x post Hl1 Ho1 Ho2 Hs1 Hpr Hlt Hsplit Hmk.
    apply snoc_split in Hsplit as [(-> & -> & ->)|(post' & -> & Hnew)];
      [|by eapply (pg_prio _ _ _ _ _ _ Hpg)].
    simpl in Hmk. injection Hmk as ->.
    destruct (pg_store _ _ _ _ _ _ Hpg _ _ Ho1)
      as (o1' & Ho1' & _ & Hsd1 & Hpr1 & _ & Hq1).
    destruct (pg_store _ _ _ _ _ _ Hpg _ _ Ho2)
      as (o2' & Ho2' & _ & _ & Hpr2 & _).
    assert (o2' = mo) as -> by congruence.
    destruct (inv_store _ _ Hi _ _ Ho1') as (Hsq1 & _ & Hge).
    destruct (Z.eq_dec (quantity o1') 0) as [Hz|Hnz]; [lia|].
    exfalso.
    assert (l1 ≠ tk) as Hl1tk.
    { intros ->. by eapply (inv_unregistered tk s0). }
    assert (_by_seq s !! l1 = Some l1) as Hl1s.
    { eapply (inv_live _ _ Hi); [done|lia|congruence]. }
    assert (String.eqb (side o1') "buy" = negb buy) as Hs1' by by rewrite Hsd1.
    pose proof (Hbest _ _ Hl1s Ho1' Hs1') as Hle.
    apply key_of_same_side in Hle; [lia|congruence|congruence].
Qed.

(** The record of a loop at its end. *)
Lemma match_loop_progress buy tk p n s0 s1 t0 :
  inv (Some tk) s0 → store s0 !! tk = Some t0 → price t0 = p →
  match_loop_of buy n tk s0 = Ok s1 →
  inv (Some tk) s1 ∧ ∃ new, progress buy tk p s0 s1 new.
Proof.
  intros Hi0 Ht0 Hp.
  apply (match_loop_rule buy tk
           (λ s, inv (Some tk) s ∧ ∃ new, progress buy tk p s0 s new)).
  - intros s s' c [Hi (new & Hpg)] H.
    split; [by eapply match_iter_inv|]. destruct c.
    + edestruct progress_trade as [tr Htr]; [exact Hi0|done..|]. eauto.
    + apply match_iter_stop in H as (_ & d & _ & Hs' & Hd & _); [|done].
      rewrite Hs'. exists new. by eapply progress_stop.
  - split; [done|]. exists []. apply progress_refl.
Qed.

(** ** A whole call of [add_order] *)

Lemma store_settle sq oi tk t s : store (settle sq oi tk t s) = store s.
Proof. unfold settle. by destruct (String.eqb _ _). Qed.

Lemma trades_settle sq oi tk t s : trades (settle sq oi tk t s) = trades s.
Proof. unfold settle. by destruct (String.eqb _ _). Qed.

Lemma resting_facts tk s l o :
  inv tk s → resting s l o →
  sequence o = l ∧ id o = S l ∧ _by_seq s !! l = Some l ∧ 0 < quantity o
  ∧ (l < length (store s))%nat ∧ key_of o ∈ queue_of o s.
Proof.
  intros Hi (Ho & Hseq & Hid).
  destruct (inv_store _ _ Hi _ _ Ho) as (Hsq & Hi' & _).
  rewrite Hsq in Hseq.
  destruct (inv_by_seq _ _ Hi _ _ Hseq) as (_ & o' & Ho' & Hpos & Hin).
  assert (o' = o) as -> by congruence.
  split_and!; try done. by eapply lookup_lt_Some.
Qed.

Lemma live_resting s l o :
  inv None s → store s !! l = Some o → 0 < quantity o → resting s l o.
Proof.
  intros Hi Ho Hpos.
  destruct (inv_store _ _ Hi _ _ Ho) as (Hsq & Hid & _).
  assert (_by_seq s !! l = Some l) as Hl by by eapply (inv_live _ _ Hi).
  split_and!; [done|by rewrite Hsq|]. rewrite Hid. by apply (inv_by_id _ _ Hi).
Qed.

Lemma add_order_summary_loop sd p q s s' r :
  inv None s → 0 < q → add_order sd p q s = Ok (s', r) →
  ∃ s1 t new,
    match_loop_of (String.eqb sd "buy")
      (S (length (opp_queue (String.eqb sd "buy") s)))
      (length (store s)) (alloc sd p q s) = Ok s1
    ∧ inv (Some (length (store s))) s1
    ∧ progress (String.eqb sd "buy") (length (store s)) p (alloc sd p q s) s1 new
    ∧ store s1 !! length (store s) = Some t
    ∧ ((0 < quantity t ∧ r = _next_order_id s
        ∧ s' = settle (_seq s) (_next_order_id s) (length (store s)) t s1)
       ∨ (quantity t ≤ 0 ∧ r = 0%nat ∧ s' = s1))
    ∧ inv None s' ∧ trades s' = trades s ++ new ∧ store s' = store s1.
Proof.
  intros Hi Hq H. pose proof (add_order_inv _ _ _ _ _ _ Hi H) as Hi'.
  apply add_order_decompose in H as (s1 & t & Hloop & Ht & Hend); [|done].
  pose proof Hloop as Hloop'.
  eapply match_loop_progress in Hloop as [Hi1 (new & Hpg)];
    [|by apply inv_alloc| |reflexivity]; cycle 1.
  { unfold alloc. simpl. by apply list_lookup_middle. }
  simpl in Hpg. exists s1, t, new. split_and!; try done.
  - destruct Hend as [(_ & _ & ->)|(_ & _ & ->)];
      rewrite ?trades_settle; apply (pg_trades _ _ _ _ _ _ Hpg).
  - destruct Hend as [(_ & _ & ->)|(_ & _ & ->)]; by rewrite ?store_settle.
Qed.

Lemma add_order_summary sd p q s s' r :
  inv None s → 0 < q → add_order sd p q s = Ok (s', r) →
  ∃ s1 t new,
    inv (Some (length (store s))) s1
    ∧ progress (String.eqb sd "buy") (length (store s)) p (alloc sd p q s) s1 new
    ∧ store s1 !! length (store s) = Some t
    ∧ ((0 < quantity t ∧ r = _next_order_id s
        ∧ s' = settle (_seq s) (_next_order_id s) (length (store s)) t s1)
       ∨ (quantity t ≤ 0 ∧ r = 0%nat ∧ s' = s1))
    ∧ inv None s' ∧ trades s' = trades s ++ new ∧ store s' = store s1.
Proof.
  intros Hi Hq H.
  destruct (add_order_summary_loop _ _ _ _ _ _ Hi Hq H)
    as (s1 & t & new & _ & Hrest).
  by exists s1, t, new.
Qed.

Lemma alloc_lookup sd p q s l o :
  store (alloc sd p q s) !! l = Some o → l ≠ length (store s) →
  store s !! l = Some o.
Proof.
  unfold alloc. simpl. intros H Hne.
  apply lookup_app_Some in H as [H|[Hge H]]; [done|].
  apply list_lookup_singleton_Some in H as [H _]. lia.
Qed.

Lemma no_cross_crosses sd mp tp :
  no_cross (String.eqb sd "buy") mp tp = false ↔ crosses sd mp tp.
Proof.
  unfold no_cross, crosses. destruct (String.eqb sd "buy").
  - rewrite Z.gtb_ltb, Z.ltb_ge. done.
  - rewrite Z.ltb_ge. done.
Qed.

(** A trade of the call, read against the state before the call. *)
Lemma trade_ok_resting sd p q s t :
  inv None s →
  trade_ok (String.eqb sd "buy") (length (store s)) p (alloc sd p q s) t →
  ∃ l o, resting s l o
    ∧ t = mkTrade (price o) (t_quantity t) (side_name (String.eqb sd "buy"))
                  (id o) (_next_order_id s)
    ∧ crosses sd (price o) p
    ∧ String.eqb (side o) "buy" = negb (String.eqb sd "buy")
    ∧ 0 < t_quantity t.
Proof.
  intros Hi (m & mo & Hreg & Hmo & Hne & Hsd & Hcross & Hq & Ht).
  apply alloc_lookup in Hmo; [|done]. simpl in Hreg.
  destruct (inv_by_seq _ _ Hi _ _ Hreg) as (_ & o' & Ho' & Hpos & _).
  assert (o' = mo) as -> by congruence.
  destruct (inv_store _ _ Hi _ _ Hmo) as (_ & Hid & _).
  exists m, mo. split_and!; try done.
  - by apply live_resting.
  - by rewrite Hid, (inv_next_id _ _ Hi).
  - by apply no_cross_crosses.
Qed.

(** ** Execution price *)

(** C2: every trade that [add_order] appends is made against an order [o]
    that was resting before the call (the maker, named by
    [maker_order_id]), and the price of the trade is the price of [o]; so
    it is the taker's limit price [p] only when the two prices are equal. *)
Theorem trade_price_is_maker_price s sd p q s' r :
  reachable s → add_order sd p q s = Ok (s', r) →
  ∃ new, trades s' = trades s ++ new
    ∧ Forall (λ t, ∃ l o, resting s l o ∧ maker_order_id t = id o
                     ∧ taker_order_id t = _next_order_id s
                     ∧ t_price t = price o
                     ∧ (t_price t = p ↔ price o = p)) new.
Proof.
  intros Hr H. apply reachable_inv in Hr.
  destruct (Z_le_gt_dec q 0) as [Hq|Hq].
  { rewrite add_order_rejected in H by done. simplify_eq.
    exists []. by rewrite app_nil_r. }
  apply add_order_summary in H
    as (s1 & t & new & _ & Hpg & _ & _ & _ & Htr & _); [|done|lia].
  exists new. split; [done|].
  eapply Forall_impl; [apply (pg_new _ _ _ _ _ _ Hpg)|].
  intros x Hx. apply trade_ok_resting in Hx as (l & o & Hrest & -> & _); [|done].
  exists l, o. simpl. by split_and!.
Qed.

(** ** Crossing *)

Lemma same_static_eq (o o' : Order) :
  id o' = id o → side o' = side o → price o' = price o →
  sequence o' = sequence o → quantity o' = quantity o → o' = o.
Proof. destruct o, o'. simpl. by intros -> -> -> -> ->. Qed.

(** C3: every trade that [add_order] appends is made against a resting
    order of the opposite side whose price passes the crossing test; and a
    resting order whose price fails the test is left as it is by the call:
    it is still registered, with the same quantity, and its entry is still
    in its queue. *)
Theorem no_false_crossing s sd p q s' r :
  reachable s → add_order sd p q s = Ok (s', r) →
  (∃ new, trades s' = trades s ++ new
     ∧ Forall (λ t, ∃ l o, resting s l o ∧ maker_order_id t = id o
                      ∧ String.eqb (side o) "buy" = negb (String.eqb sd "buy")
                      ∧ crosses sd (price o) p) new)
  ∧ (∀ l o, resting s l o → ¬ crosses sd (price o) p →
       resting s' l o ∧ key_of o ∈ queue_of o s').
Proof.
  intros Hr H. apply reachable_inv in Hr.
  destruct (Z_le_gt_dec q 0) as [Hq|Hq].
  { rewrite add_order_rejected in H by done. simplify_eq. split.
    - exists []. by rewrite app_nil_r.
    - intros l o Hrest _. split; [done|]. by eapply resting_facts. }
  apply add_order_summary in H
    as (s1 & t & new & Hi1 & Hpg & Ht & Hend & Hi' & Htr & Hst); [|done|lia].
  split.
  - exists new. split; [done|].
    eapply Forall_impl; [apply (pg_new _ _ _ _ _ _ Hpg)|].
    intros x Hx.
    apply trade_ok_resting in Hx as (l & o & Hrest & -> & ? & ? & _); [|done].
    exists l, o. simpl. by split_and!.
  - intros l o Hrest Hnc.
    destruct (resting_facts _ _ _ _ Hr Hrest) as (Hsq & Hid & Hreg & Hpos & Hlt & _).
    assert (store (alloc sd p q s) !! l = Some o) as Ho0.
    { unfold alloc. simpl. apply lookup_app_l_Some. by destruct Hrest. }
    destruct (pg_store _ _ _ _ _ _ Hpg _ _ Ho0)
      as (o' & Ho' & Hi1' & Hi2 & Hi3 & Hi4 & Hi5).
    rewrite filled_none in Hi5; cycle 1.
    { eapply Forall_impl; [apply (pg_new _ _ _ _ _ _ Hpg)|].
      intros x (m & mo & Hm & Hmo & Hne & Hsd & Hcross & _ & ->).
      unfold participates. simpl. apply orb_false_iff. split.
      - apply Nat.eqb_neq. intros [= ->].
        assert (mo = o) as -> by congruence.
        by apply no_cross_crosses in Hcross.
      - apply Nat.eqb_neq. lia. }
    assert (o' = o) as -> by (apply same_static_eq; try done; lia).
    rewrite <- Hst in Ho'.
    pose proof (live_resting _ _ _ Hi' Ho' Hpos) as Hrest'.
    split; [done|]. by eapply resting_facts.
Qed.

(** ** Rejected orders *)

(** C5: a call [add_order side price quantity] with [quantity <= 0] returns
    0 and leaves the whole state as it was: both counters (no sequence
    number and no id is taken), the store (no [Order] is created), the
    queues, the registry and the trade log. *)
Theorem add_order_nonpositive_noop sd p q s :
  q ≤ 0 → add_order sd p q s = Ok (s, 0%nat).
Proof.
  intros Hq. unfold add_order. apply Z.leb_le in Hq. by rewrite Hq.
Qed.

Lemma add_order_nonpositive_noop_witness :
  add_order "buy" 100 0 (state_after [AddOrder "buy" 90 5])
  = Ok (state_after [AddOrder "buy" 90 5], 0%nat).
Proof. apply add_order_nonpositive_noop. lia. Defined.

(** ** The two reads *)

Lemma peek_top_frame sd s s' r :
  _peek_top sd s = Ok (s', r) →
  store s' = store s ∧ _by_seq s' = _by_seq s ∧ _by_id s' = _by_id s
  ∧ trades s' = trades s ∧ _seq s' = _seq s
  ∧ _next_order_id s' = _next_order_id s
  ∧ ∃ db da, bids s = db ++ bids s' ∧ asks s = da ++ asks s'
      ∧ Forall (tombstone s) db ∧ Forall (tombstone s) da.
Proof.
  unfold _peek_top. intros H.
  destruct (String.eqb sd "buy");
    apply bind_Ok in H as ([h r'] & Hpeek & H); simplify_eq;
    apply peek_loop_spec in Hpeek as (d & Hd & Hdrop & _); simpl;
    split_and!; try done.
  - by exists d, [].
  - by exists [], d.
Qed.

(** C8: [best_bid] and [best_ask] leave every order as it is (the store of
    objects, so every quantity), the two registry mappings, the trade log
    and the counters; a queue can only lose entries at its front, and the
    entries it loses are tombstones. *)
Theorem reads_frame s s' r :
  best_bid s = Ok (s', r) ∨ best_ask s = Ok (s', r) →
  store s' = store s ∧ _by_seq s' = _by_seq s ∧ _by_id s' = _by_id s
  ∧ trades s' = trades s ∧ _seq s' = _seq s
  ∧ _next_order_id s' = _next_order_id s
  ∧ ∃ db da, bids s = db ++ bids s' ∧ asks s = da ++ asks s'
      ∧ Forall (tombstone s) db ∧ Forall (tombstone s) da.
Proof.
  unfold best_bid, best_ask. intros [H|H];
    apply bind_Ok in H as ([s1 o] & Hpeek & H);
    apply peek_top_frame in Hpeek;
    (destruct o; [apply bind_Ok in H as (? & _ & H)|]); by simplify_eq.
Qed.

Lemma same_reads_refl s : same_reads s s.
Proof. by split_and!. Qed.

Lemma same_reads_best_bid s s1 s2 r :
  same_reads s s1 → best_bid s1 = Ok (s2, r) → same_reads s s2.
Proof.
  intros (Hbs & Hst & Hb & Ha) H. unfold best_bid, _peek_top in H. simpl in H.
  apply bind_Ok in H as ([s3 o] & Hpeek & H).
  apply bind_Ok in Hpeek as ([h r'] & Hpeek & Hs3). simplify_eq.
  assert (s2 = set_bids h s1) as ->.
  { destruct o; [apply bind_Ok in H as (? & _ & H)|]; by simplify_eq. }
  split_and!; try done. simpl. rewrite <- Hb.
  rewrite <- !(peek_loop_frame s s1) by done.
  rewrite Hpeek. by eapply peek_loop_fixed.
Qed.

Lemma same_reads_best_ask s s1 s2 r :
  same_reads s s1 → best_ask s1 = Ok (s2, r) → same_reads s s2.
Proof.
  intros (Hbs & Hst & Hb & Ha) H. unfold best_ask, _peek_top in H. simpl in H.
  apply bind_Ok in H as ([s3 o] & Hpeek & H).
  apply bind_Ok in Hpeek as ([h r'] & Hpeek & Hs3). simplify_eq.
  assert (s2 = set_asks h s1) as ->.
  { destruct o; [apply bind_Ok in H as (? & _ & H)|]; by simplify_eq. }
  split_and!; try done. simpl. rewrite <- Ha.
  rewrite <- !(peek_loop_frame s s1) by done.
  rewrite Hpeek. by eapply peek_loop_fixed.
Qed.

Lemma same_reads_run s cs s1 s2 ids :
  forallb is_read cs = true → same_reads s s1 → run cs s1 = Ok (s2, ids) →
  same_reads s s2.
Proof.
  revert s1 s2 ids. induction cs as [|c cs IH]; intros s1 s2 ids Hr Hs H;
    simpl in *.
  { by simplify_eq. }
  apply andb_true_iff in Hr as [Hc Hr].
  apply bind_Ok in H as ([s3 x] & Hstep & H).
  apply bind_Ok in H as ([s4 xs] & Hrun & H). simplify_eq.
  eapply IH; [done| |done].
  destruct c; simpl in *; [done|..];
    apply bind_Ok in Hstep as ([s5 y] & Hstep & ?); simplify_eq.
  - by eapply same_reads_best_bid.
  - by eapply same_reads_best_ask.
Qed.

Lemma same_reads_bid s s' s1 r :
  same_reads s s' → best_bid s = Ok (s1, r) →
  best_bid s' = Ok (set_bids (bids s1) s', r).
Proof.
  intros (Hbs & Hst & Hb & Ha) H. unfold best_bid, _peek_top in *.
  simpl in *. rewrite (peek_loop_frame s s'), Hb by done.
  apply bind_Ok in H as ([s3 o] & Hpeek & H).
  apply bind_Ok in Hpeek as ([h r'] & Hpeek & Hs3). simplify_eq.
  rewrite Hpeek. simpl. destruct o as [l|]; [|by simplify_eq].
  apply bind_Ok in H as (o & Ho & H). apply deref_Ok in Ho. simpl in Ho.
  simplify_eq. erewrite deref_lookup; [done|]. simpl. by rewrite Hst.
Qed.

Lemma same_reads_ask s s' s1 r :
  same_reads s s' → best_ask s = Ok (s1, r) →
  best_ask s' = Ok (set_asks (asks s1) s', r).
Proof.
  intros (Hbs & Hst & Hb & Ha) H. unfold best_ask, _peek_top in *.
  simpl in *. rewrite (peek_loop_frame s s'), Ha by done.
  apply bind_Ok in H as ([s3 o] & Hpeek & H).
  apply bind_Ok in Hpeek as ([h r'] & Hpeek & Hs3). simplify_eq.
  rewrite Hpeek. simpl. destruct o as [l|]; [|by simplify_eq].
  apply bind_Ok in H as (o & Ho & H). apply deref_Ok in Ho. simpl in Ho.
  simplify_eq. erewrite deref_lookup; [done|]. simpl. by rewrite Hst.
Qed.

Lemma reachable_state_after cs :
  (∃ s ids, run cs init = Ok (s, ids)) → reachable (state_after cs).
Proof.
  intros (s & ids & H). exists cs, ids. unfold state_after. by rewrite H.
Qed.

(** C7: in a reachable state [best_bid] and [best_ask] return, and after
    any number of further calls of [best_bid] and [best_ask], in any order
    and with no [add_order] in between, each of them returns what it
    returned the first time. *)
Theorem reads_idempotent s cs :
  reachable s → forallb is_read cs = true →
  ∃ rb ra s' ids,
    (∃ s1, best_bid s = Ok (s1, rb)) ∧ (∃ s1, best_ask s = Ok (s1, ra))
    ∧ run cs s = Ok (s', ids)
    ∧ (∃ s2, best_bid s' = Ok (s2, rb)) ∧ (∃ s2, best_ask s' = Ok (s2, ra)).
Proof.
  intros Hr Hcs. apply reachable_inv in Hr.
  destruct (best_bid_returns s Hr) as (sb & rb & Hb).
  destruct (best_ask_returns s Hr) as (sa & ra & Ha).
  destruct (run_returns cs s Hr) as (s' & ids & Hrun).
  exists rb, ra, s', ids.
  pose proof (same_reads_run s cs s s' ids Hcs (same_reads_refl s) Hrun) as Hs.
  split_and!; eauto.
  - eexists. by eapply same_reads_bid.
  - eexists. by eapply same_reads_ask.
Qed.

(** ** The registry *)

Lemma registered_iff_live s l o :
  inv None s → store s !! l = Some o →
  0 ≤ quantity o
  ∧ (0 < quantity o ↔ _by_seq s !! sequence o = Some l)
  ∧ (0 < quantity o ↔ _by_id s !! id o = Some l).
Proof.
  intros Hi Ho. destruct (inv_store _ _ Hi _ _ Ho) as (Hsq & Hid & Hge).
  assert (0 < quantity o ↔ _by_seq s !! l = Some l) as Hiff.
  { split.
    - intros Hpos. by eapply (inv_live _ _ Hi).
    - intros Hl. destruct (inv_by_seq _ _ Hi _ _ Hl) as (_ & o' & Ho' & Hpos & _).
      by assert (o' = o) as -> by congruence. }
  rewrite Hsq, Hid. split_and!; try done.
  rewrite Hiff, (inv_by_id _ _ Hi). split; [done|by intros [_ ?]].
Qed.

Lemma unregistered_dead s l o :
  inv None s → store s !! l = Some o → quantity o = 0 →
  _by_seq s !! sequence o = None ∧ _by_id s !! id o = None.
Proof.
  intros Hi Ho Hz. destruct (inv_store _ _ Hi _ _ Ho) as (Hsq & Hid & _).
  assert (_by_seq s !! l = None) as Hn.
  { destruct (_by_seq s !! l) as [l'|] eqn:Hl; [|done].
    destruct (inv_by_seq _ _ Hi _ _ Hl) as (-> & o' & Ho' & Hpos & _).
    assert (o' = o) as -> by congruence. lia. }
  rewrite Hsq, Hid. split; [done|].
  destruct (_by_id s !! S l) as [l'|] eqn:Hl; [|done].
  apply (inv_by_id _ _ Hi) in Hl as [[= <-] Hl]. congruence.
Qed.

(** C6: in a reachable state an order is in [_by_seq] and in [_by_id] exactly
    when its quantity is positive, and its quantity is never negative; so a
    registered order stays in both mappings through an [add_order] while its
    quantity stays positive and is out of both as soon as its quantity is 0.
    An [add_order] that returns 0 adds nothing to either mapping: a taker
    that is filled within its own call is never registered. *)
Theorem registry_exact s :
  reachable s →
  (∀ l o, store s !! l = Some o →
     0 ≤ quantity o
     ∧ (0 < quantity o ↔ _by_seq s !! sequence o = Some l)
     ∧ (0 < quantity o ↔ _by_id s !! id o = Some l))
  ∧ (∀ sd p q s' r, add_order sd p q s = Ok (s', r) →
       (∀ l o, resting s l o →
          ∃ o', store s' !! l = Some o'
            ∧ sequence o' = sequence o ∧ id o' = id o
            ∧ ((0 < quantity o' ∧ resting s' l o')
               ∨ (quantity o' = 0 ∧ _by_seq s' !! sequence o = None
                  ∧ _by_id s' !! id o = None)))
       ∧ (r = 0%nat →
          (∀ k l, _by_seq s' !! k = Some l → _by_seq s !! k = Some l)
          ∧ (∀ k l, _by_id s' !! k = Some l → _by_id s !! k = Some l)
          ∧ _by_seq s' !! _seq s = None
          ∧ _by_id s' !! _next_order_id s = None)).
Proof.
  intros Hr. apply reachable_inv in Hr. split.
  { intros l o Ho. by apply registered_iff_live. }
  intros sd p q s' r H.
  assert (_by_seq s !! _seq s = None ∧ _by_id s !! _next_order_id s = None)
    as [Hfs Hfi].
  { rewrite (inv_seq _ _ Hr), (inv_next_id _ _ Hr).
    assert (_by_seq s !! length (store s) = None) as Hn.
    { destruct (_by_seq s !! length (store s)) as [l|] eqn:Hl; [|done].
      destruct (inv_by_seq _ _ Hr _ _ Hl) as (Hk & o & Ho & _).
      apply lookup_lt_Some in Ho. lia. }
    split; [done|].
    destruct (_by_id s !! S (length (store s))) as [l|] eqn:Hl; [|done].
    apply (inv_by_id _ _ Hr) in Hl as [[= <-] Hl]. congruence. }
  destruct (Z_le_gt_dec q 0) as [Hq|Hq].
  { rewrite add_order_rejected in H by done. simplify_eq. split; [|done].
    intros l o Hrest. exists o.
    destruct (resting_facts _ _ _ _ Hr Hrest) as (_ & _ & _ & Hpos & _).
    split_and!; try by destruct Hrest. by left. }
  apply add_order_summary in H
    as (s1 & t & new & Hi1 & Hpg & Ht & Hend & Hi' & Htr & Hst); [|done|lia].
  split.
  - intros l o Hrest.
    assert (store (alloc sd p q s) !! l = Some o) as Ho0.
    { unfold alloc. simpl. apply lookup_app_l_Some. by destruct Hrest. }
    destruct (pg_store _ _ _ _ _ _ Hpg _ _ Ho0)
      as (o' & Ho' & Hid & _ & _ & Hsq & _).
    rewrite <- Hst in Ho'. exists o'. split_and!; try done.
    destruct (inv_store _ _ Hi' _ _ Ho') as (_ & _ & Hge).
    destruct (Z.eq_dec (quantity o') 0) as [Hz|Hnz].
    + right. rewrite <- Hsq, <- Hid. split; [done|].
      by apply (unregistered_dead s' l o').
    + left. split; [lia|]. apply live_resting; [done..|lia].
  - intros ->. destruct Hend as [(_ & Hr0 & _)|(_ & _ & ->)].
    { rewrite (inv_next_id _ _ Hr) in Hr0. done. }
    pose proof (pg_by_seq _ _ _ _ _ _ Hpg) as Hsub1.
    pose proof (pg_by_id _ _ _ _ _ _ Hpg) as Hsub2. simpl in *.
    split_and!; try done.
    + destruct (_by_seq s1 !! _seq s) eqn:Hl; [|done].
      apply Hsub1 in Hl. congruence.
    + destruct (_by_id s1 !! _next_order_id s) eqn:Hl; [|done].
      apply Hsub2 in Hl. congruence.
Qed.

(** ** Price-time priority *)

Lemma filled_witness i ts :
  filled i ts ≠ 0 → ∃ t, t ∈ ts ∧ participates i t = true.
Proof.
  induction ts as [|t ts IH]; simpl; [done|]. intros H.
  destruct (participates i t) eqn:Hp.
  - exists t. split; [by left|done].
  - destruct IH as (t' & Hin & Hp'); [lia|]. exists t'. split; [by right|done].
Qed.

(** C1: let [o1] and [o2] rest on the same side at the same price, [o1]
    with the smaller sequence number.  Whenever [add_order] records a trade
    against [o2], the trades it recorded before have filled [o1] completely
    (so at least one of them is against [o1]).  And an order that rests
    before the call keeps its sequence number, price and side through the
    call; if the call leaves it a positive quantity it is still resting and
    the entry in its queue is the one with its original sequence number, so
    the same priority holds in the state after the call. *)
Theorem price_time_priority s sd p q s' r :
  reachable s → add_order sd p q s = Ok (s', r) →
  (∀ l1 l2 o1 o2 pre t post,
     resting s l1 o1 → resting s l2 o2 →
     String.eqb (side o1) "buy" = String.eqb (side o2) "buy" →
     price o1 = price o2 → (sequence o1 < sequence o2)%nat →
     trades s' = trades s ++ pre ++ t :: post → maker_order_id t = id o2 →
     filled (id o1) pre = quantity o1
     ∧ ∃ t1, t1 ∈ pre ∧ maker_order_id t1 = id o1)
  ∧ (∀ l o, resting s l o →
       ∃ o', store s' !! l = Some o'
         ∧ sequence o' = sequence o ∧ price o' = price o ∧ side o' = side o
         ∧ quantity o' ≤ quantity o
         ∧ (0 < quantity o' → resting s' l o' ∧ key_of o ∈ queue_of o s')).
Proof.
  intros Hr H. apply reachable_inv in Hr.
  destruct (Z_le_gt_dec q 0) as [Hq|Hq].
  { rewrite add_order_rejected in H by done. simplify_eq. split.
    - intros l1 l2 o1 o2 pre t post _ _ _ _ _ Htr.
      rewrite <- (app_nil_r (trades s')) in Htr at 1.
      apply app_inv_head in Htr. by destruct pre.
    - intros l o Hrest. exists o. split_and!; try by destruct Hrest.
      intros _. split; [done|]. by eapply resting_facts. }
  apply add_order_summary in H
    as (s1 & t & new & Hi1 & Hpg & Ht & Hend & Hi' & Htr & Hst); [|done|lia].
  assert (∀ l o, resting s l o → store (alloc sd p q s) !! l = Some o) as Hal.
  { intros l o Hrest. unfold alloc. simpl. apply lookup_app_l_Some.
    by destruct Hrest. }
  split.
  - intros l1 l2 o1 o2 pre x post Hr1 Hr2 Hside Hprice Hlt Hsplit Hmaker.
    rewrite Htr in Hsplit. apply app_inv_head in Hsplit.
    destruct (resting_facts _ _ _ _ Hr Hr1) as (Hs1 & Hid1 & Hreg1 & Hpos1 & Hlt1 & _).
    destruct (resting_facts _ _ _ _ Hr Hr2) as (Hs2 & Hid2 & Hreg2 & Hpos2 & _).
    pose proof (pg_new _ _ _ _ _ _ Hpg) as Hnew.
    assert (String.eqb (side o1) "buy" = negb (String.eqb sd "buy")) as Hopp.
    { rewrite Forall_forall in Hnew.
      destruct (Hnew x) as (m & mo & _ & Hmo & _ & Hsd & _ & _ & Hx).
      { rewrite Hsplit. apply elem_of_app. right. by left. }
      rewrite Hx in Hmaker. simpl in Hmaker.
      assert (m = l2) as -> by lia.
      rewrite (Hal _ _ Hr2) in Hmo. injection Hmo as <-. congruence. }
    assert (filled (id o1) pre = quantity o1) as Hfilled.
    { rewrite Hid1.
      eapply (pg_prio _ _ _ _ _ _ Hpg l1 l2 o1 o2); try done.
      - by apply Hal.
      - by apply Hal.
      - lia.
      - by rewrite Hmaker, Hid2. }
    split; [done|].
    destruct (filled_witness (id o1) pre) as (t1 & Hin & Hp); [lia|].
    exists t1. split; [done|].
    rewrite Forall_forall in Hnew.
    destruct (Hnew t1) as (m & mo & _ & _ & _ & _ & _ & _ & Ht1).
    { rewrite Hsplit. apply elem_of_app. by left. }
    rewrite Ht1 in Hp |- *. unfold participates in Hp.
    cbn [maker_order_id taker_order_id] in *.
    apply orb_true_iff in Hp as [Hp|Hp]; apply Nat.eqb_eq in Hp; [done|lia].
  - intros l o Hrest.
    destruct (resting_facts _ _ _ _ Hr Hrest) as (_ & _ & _ & Hpos & _).
    destruct (pg_store _ _ _ _ _ _ Hpg _ _ (Hal _ _ Hrest))
      as (o' & Ho' & Hid & Hsd & Hpr & Hsq & Hqty).
    rewrite <- Hst in Ho'. exists o'. split_and!; try done.
    + pose proof (filled_nonneg (S l) new
                    (trade_ok_quantity _ _ _ _ _ (pg_new _ _ _ _ _ _ Hpg))).
      lia.
    + intros Hpos'. pose proof (live_resting _ _ _ Hi' Ho' Hpos') as Hrest'.
      split; [done|].
      destruct (resting_facts _ _ _ _ Hi' Hrest') as (_ & _ & _ & _ & _ & Hin).
      unfold key_of, queue_of in *. by rewrite Hsd, Hpr, Hsq in Hin.
Qed.

(** ** Quantity conservation *)

Lemma conserved_init : conserved [] init.
Proof. by split_and!. Qed.

Lemma conserved_add_order subs sd p q s s' r :
  inv None s → conserved subs s → add_order sd p q s = Ok (s', r) →
  conserved (subs ++ (if q <=? 0 then [] else [q])) s'.
Proof.
  intros Hi (Hlen & Hsub & Hids) H.
  destruct (q <=? 0) eqn:Hq.
  { apply Z.leb_le in Hq. rewrite add_order_rejected in H by done.
    simplify_eq. rewrite app_nil_r. by split_and!. }
  apply Z.leb_gt in Hq.
  apply add_order_summary in H
    as (s1 & t & new & Hi1 & Hpg & Ht & Hend & Hi' & Htr & Hst); [|done..].
  pose proof (pg_len _ _ _ _ _ _ Hpg) as Hlen1.
  unfold alloc in Hlen1. simpl in Hlen1. rewrite length_app in Hlen1.
  simpl in Hlen1.
  split_and!.
  - rewrite length_app, Hst, Hlen1. simpl. lia.
  - intros l o' Ho'. rewrite Hst in Ho'.
    assert ((l < length (store (alloc sd p q s)))%nat) as Hlt.
    { apply lookup_lt_Some in Ho'. unfold alloc. simpl.
      rewrite length_app. simpl. lia. }
    destruct (lookup_lt_is_Some_2 _ _ Hlt) as [o0 Ho0].
    destruct (pg_store _ _ _ _ _ _ Hpg _ _ Ho0) as (o'' & Ho'' & _ & _ & _ & _ & Hqty).
    assert (o'' = o') as -> by congruence.
    rewrite Htr, filled_app.
    unfold alloc in Ho0. simpl in Ho0.
    apply lookup_app_Some in Ho0 as [Ho0|[Hge Ho0]].
    + rewrite lookup_app_l by (rewrite Hlen; by eapply lookup_lt_Some).
      rewrite (Hsub _ _ Ho0). f_equal. lia.
    + apply list_lookup_singleton_Some in Ho0 as [Hl <-].
      assert (l = length (store s)) as -> by lia.
      rewrite list_lookup_middle by lia. f_equal.
      rewrite (filled_none _ (trades s)); [simpl in *; lia|].
      eapply Forall_impl; [exact Hids|]. intros x [Hm Htk].
      unfold participates. apply orb_false_iff.
      split; apply Nat.eqb_neq; lia.
  - rewrite Htr, Hst, Hlen1. apply Forall_app. split.
    + eapply Forall_impl; [exact Hids|]. intros x [? ?]. lia.
    + eapply Forall_impl; [apply (pg_new _ _ _ _ _ _ Hpg)|].
      intros x (m & mo & Hm & Hmo & _ & _ & _ & _ & ->). simpl.
      apply lookup_lt_Some in Hmo. unfold alloc in Hmo. simpl in Hmo.
      rewrite length_app in Hmo. simpl in Hmo. lia.
Qed.

Lemma best_bid_keeps s s' r :
  best_bid s = Ok (s', r) → store s' = store s ∧ trades s' = trades s.
Proof.
  unfold best_bid. intros H. apply bind_Ok in H as ([s1 o] & Hpeek & H).
  apply peek_top_frame in Hpeek as (? & _ & _ & ? & _).
  destruct o; [apply bind_Ok in H as (? & _ & H)|]; by simplify_eq.
Qed.

Lemma best_ask_keeps s s' r :
  best_ask s = Ok (s', r) → store s' = store s ∧ trades s' = trades s.
Proof.
  unfold best_ask. intros H. apply bind_Ok in H as ([s1 o] & Hpeek & H).
  apply peek_top_frame in Hpeek as (? & _ & _ & ? & _).
  destruct o; [apply bind_Ok in H as (? & _ & H)|]; by simplify_eq.
Qed.

Lemma conserved_run subs cs s s' ids :
  inv None s → conserved subs s → run cs s = Ok (s', ids) →
  conserved (subs ++ submitted cs) s'.
Proof.
  revert subs s s' ids.
  induction cs as [|c cs IH]; intros subs s s' ids Hi Hc H; simpl in H.
  { simplify_eq. simpl. by rewrite app_nil_r. }
  apply bind_Ok in H as ([s1 x] & Hstep & H).
  apply bind_Ok in H as ([s2 xs] & Hrun & H). simplify_eq.
  pose proof (step_inv _ _ _ _ Hi Hstep) as Hi1.
  destruct c as [sd p q| |]; simpl in Hstep |- *;
    apply bind_Ok in Hstep as ([s3 y] & Hcall & Hstep); simplify_eq.
  - pose proof (conserved_add_order _ _ _ _ _ _ _ Hi Hc Hcall) as Hc1.
    specialize (IH _ _ _ _ Hi1 Hc1 Hrun).
    destruct (q <=? 0); [by rewrite app_nil_r in IH|].
    by rewrite <- app_assoc in IH.
  - apply best_bid_keeps in Hcall as [Hst Htr].
    eapply IH; [done| |done]. unfold conserved. by rewrite Hst, Htr.
  - apply best_ask_keeps in Hcall as [Hst Htr].
    eapply IH; [done| |done]. unfold conserved. by rewrite Hst, Htr.
Qed.


(** ** Order ids and sequence numbers *)

Lemma add_order_counters sd p q s s' r :
  inv None s → 0 < q → add_order sd p q s = Ok (s', r) →
  _next_order_id s' = S (_next_order_id s) ∧ _seq s' = S (_seq s)
  ∧ (r = 0%nat ∨ r = _next_order_id s).
Proof.
  intros Hi Hq H.
  apply add_order_summary in H
    as (s1 & t & new & _ & Hpg & _ & Hend & _); [|done..].
  pose proof (pg_next _ _ _ _ _ _ Hpg) as Hn.
  pose proof (pg_seq _ _ _ _ _ _ Hpg) as Hs. simpl in *.
  destruct Hend as [(_ & -> & ->)|(_ & -> & ->)].
  - unfold settle. destruct (String.eqb (side t) "buy"); simpl; auto.
  - auto.
Qed.

Lemma step_ids c s s' rs :
  inv None s → step c s = Ok (s', rs) →
  (_next_order_id s' = _next_order_id s + length (submitted [c]))%nat
  ∧ (_seq s' = _seq s + length (submitted [c]))%nat
  ∧ Forall (λ i, i = 0%nat ∨ (length (submitted [c]) = 1%nat
                                ∧ i = _next_order_id s)) rs
  ∧ (length rs ≤ 1)%nat.
Proof.
  intros Hi H. destruct c as [sd p q| |]; simpl in *;
    apply bind_Ok in H as ([s1 x] & Hcall & H); simplify_eq.
  - destruct (q <=? 0) eqn:Hq.
    + apply Z.leb_le in Hq. rewrite add_order_rejected in Hcall by done.
      simplify_eq. simpl. split_and!; try lia. constructor; [by left|done].
    + apply Z.leb_gt in Hq.
      apply add_order_counters in Hcall as (-> & -> & Hx); [|done..].
      simpl. split_and!; try lia. constructor; [|done].
      destruct Hx; [by left|by right].
  - unfold best_bid in Hcall.
    apply bind_Ok in Hcall as ([s2 o] & Hpeek & Hcall).
    apply peek_top_frame in Hpeek as (_ & _ & _ & _ & Hs & Hn & _).
    assert (s' = s2) as ->.
    { destruct o; [apply bind_Ok in Hcall as (? & _ & ?)|]; by simplify_eq. }
    simpl. split_and!; try done; lia.
  - unfold best_ask in Hcall.
    apply bind_Ok in Hcall as ([s2 o] & Hpeek & Hcall).
    apply peek_top_frame in Hpeek as (_ & _ & _ & _ & Hs & Hn & _).
    assert (s' = s2) as ->.
    { destruct o; [apply bind_Ok in Hcall as (? & _ & ?)|]; by simplify_eq. }
    simpl. split_and!; try done; lia.
Qed.

Lemma submitted_cons c cs : submitted (c :: cs) = submitted [c] ++ submitted cs.
Proof.
  destruct c as [sd p q| |]; simpl; [|done..]. by destruct (q <=? 0).
Qed.

Lemma run_ids cs s s' ids :
  inv None s → run cs s = Ok (s', ids) →
  (_next_order_id s' = _next_order_id s + length (submitted cs))%nat
  ∧ (_seq s' = _seq s + length (submitted cs))%nat
  ∧ Forall (λ i, i = 0%nat
                 ∨ (_next_order_id s ≤ i ∧ i < _next_order_id s')%nat) ids
  ∧ StronglySorted lt (filter (λ i, i ≠ 0%nat) ids).
Proof.
  revert s s' ids. induction cs as [|c cs IH]; intros s s' ids Hi H.
  { simpl in H. simplify_eq. simpl. split_and!; try lia; by constructor. }
  simpl in H.
  apply bind_Ok in H as ([s1 x] & Hstep & H).
  apply bind_Ok in H as ([s2 xs] & Hrun & H). simplify_eq.
  pose proof (step_inv _ _ _ _ Hi Hstep) as Hi1.
  destruct (step_ids _ _ _ _ Hi Hstep) as (Hn1 & Hs1 & Hx & Hlx).
  destruct (IH _ _ _ Hi1 Hrun) as (Hn2 & Hs2 & Hxs & Hsorted).
  rewrite submitted_cons, length_app.
  assert (Forall (λ i, i = 0%nat
            ∨ (_next_order_id s ≤ i ∧ i < _next_order_id s1)%nat) x) as Hx'.
  { eapply Forall_impl; [exact Hx|]. intros i [->|[Hone ->]]; [by left|].
    right. lia. }
  split_and!; try lia.
  - apply Forall_app. split.
    + eapply Forall_impl; [exact Hx'|]. intros i [->|?]; [by left|right; lia].
    + eapply Forall_impl; [exact Hxs|]. intros i [->|?]; [by left|right; lia].
  - rewrite filter_app.
    destruct x as [|i [|? ?]]; simpl in Hlx; [done| |lia].
    apply Forall_inv in Hx'.
    destruct (decide (i = 0%nat)) as [->|Hnz].
    + by rewrite filter_cons_False by (intros ?; done).
    + rewrite filter_cons_True by done. simpl.
      constructor; [done|].
      apply Forall_forall. intros j Hj.
      apply list_elem_of_filter in Hj as [Hjnz Hj].
      rewrite Forall_forall in Hxs. apply Hxs in Hj. lia.
Qed.

Lemma StronglySorted_lt_NoDup (l : list nat) : StronglySorted lt l → NoDup l.
Proof.
  induction 1 as [|x l _ IH Hx]; constructor; [|done].
  intros Hin. rewrite Forall_forall in Hx. apply Hx in Hin. lia.
Qed.

(** C10: after any sequence of calls the two counters have advanced once
    for every [add_order] with a positive quantity; such a call advances
    both, whether it returns 0 or the new id, and the id it returns is the
    value the id counter had; so the non-zero ids returned are strictly
    increasing and none is returned twice. *)
Theorem order_ids_consumed cs s ids :
  run cs init = Ok (s, ids) →
  _next_order_id s = S (length (submitted cs))
  ∧ _seq s = length (submitted cs)
  ∧ (∀ sd p q s' r, 0 < q → add_order sd p q s = Ok (s', r) →
       _next_order_id s' = S (_next_order_id s) ∧ _seq s' = S (_seq s)
       ∧ (r = 0%nat ∨ r = _next_order_id s))
  ∧ StronglySorted lt (filter (λ i, i ≠ 0%nat) ids)
  ∧ NoDup (filter (λ i, i ≠ 0%nat) ids).
Proof.
  intros Hrun.
  pose proof (run_inv _ _ _ _ inv_init Hrun) as Hi.
  destruct (run_ids _ _ _ _ inv_init Hrun) as (Hn & Hs & _ & Hsorted).
  simpl in *. split_and!; try done.
  - intros sd p q s' r Hq H. by eapply add_order_counters.
  - by apply StronglySorted_lt_NoDup.
Qed.

(** The ids returned can skip a value: the second order is filled at once
    and returns 0, but takes id 2; the third order gets id 3. *)
Example ids_may_skip :
  ∃ s, run [AddOrder "sell" 50 10; AddOrder "buy" 50 10; AddOrder "buy" 40 1]
           init = Ok (s, [1; 0; 3]%nat).
Proof. eexists. vm_compute. reflexivity. Qed.

(** ** A side that is not ["buy"] *)

Lemma relabel_insert_ne l sd (st : list Order) m x :
  m ≠ l →
  alter (with_side sd) l (<[m := x]> st) = <[m := x]> (alter (with_side sd) l st).
Proof.
  intros Hne. rewrite !list_insert_alter. by apply list_alter_alter_ne.
Qed.

Lemma relabel_insert_eq l sd (st : list Order) x :
  alter (with_side sd) l (<[l := x]> st)
  = <[l := with_side sd x]> (alter (with_side sd) l st).
Proof.
  rewrite !list_insert_alter, !list_alter_alter_eq.
  by apply list_alter_ext.
Qed.

Lemma deref_relabel l sd s k :
  deref (relabel l sd s) k
  = o ← deref s k; Ok (if decide (l = k) then with_side sd o else o).
Proof.
  unfold deref, relabel. simpl. rewrite list_lookup_alter.
  case_decide; subst; by destruct (store s !! k).
Qed.

Lemma peek_loop_relabel l sd s h :
  peek_loop (relabel l sd s) h = peek_loop s h.
Proof.
  induction h as [|[k seq] rest IH]; simpl; [done|].
  destruct (_by_seq s !! seq) as [l'|]; [|done].
  rewrite deref_relabel. destruct (deref s l') as [o|]; simpl; [|done].
  rewrite IH. by case_decide.
Qed.

Lemma pop_loop_relabel l sd s h :
  pop_loop (relabel l sd s) h = pop_loop s h.
Proof.
  induction h as [|[k seq] rest IH]; simpl; [done|].
  destruct (_by_seq s !! seq) as [l'|]; [|done].
  rewrite deref_relabel. destruct (deref s l') as [o|]; simpl; [|done].
  rewrite IH. by case_decide.
Qed.

Lemma peek_top_relabel l sd s sd' :
  _peek_top sd' (relabel l sd s)
  = '(s1, r) ← _peek_top sd' s; Ok (relabel l sd s1, r).
Proof.
  unfold _peek_top. destruct (String.eqb sd' "buy");
    rewrite peek_loop_relabel; simpl.
  - by destruct (peek_loop s (bids s)) as [[h r]|].
  - by destruct (peek_loop s (asks s)) as [[h r]|].
Qed.

Lemma pop_top_relabel l sd s sd' :
  _pop_top sd' (relabel l sd s)
  = '(s1, r) ← _pop_top sd' s; Ok (relabel l sd s1, r).
Proof.
  unfold _pop_top. destruct (String.eqb sd' "buy");
    rewrite pop_loop_relabel; simpl.
  - by destruct (pop_loop s (bids s)) as [[h r]|].
  - by destruct (pop_loop s (asks s)) as [[h r]|].
Qed.

Lemma sub_quantity_relabel l sd s k q :
  sub_quantity k q (relabel l sd s)
  = s' ← sub_quantity k q s; Ok (relabel l sd s').
Proof.
  unfold sub_quantity. rewrite deref_relabel.
  destruct (deref s k) as [o|]; simpl; [|done].
  unfold relabel, set_store. simpl. do 2 f_equal.
  case_decide; subst.
  - by rewrite relabel_insert_eq.
  - by rewrite relabel_insert_ne.
Qed.

Lemma push_relabel l sd s k :
  k ≠ l → _push k (relabel l sd s) = s' ← _push k s; Ok (relabel l sd s').
Proof.
  intros Hne. unfold _push. rewrite deref_relabel.
  destruct (deref s k) as [o|]; simpl; [|done].
  rewrite decide_False by done. by destruct (String.eqb (side o) "buy").
Qed.

Lemma cleanup_relabel tk sd s m q :
  m ≠ tk →
  _cleanup tk m q (relabel tk sd s)
  = s' ← _cleanup tk m q s; Ok (relabel tk sd s').
Proof.
  intros Hne. unfold _cleanup. rewrite sub_quantity_relabel.
  destruct (sub_quantity tk q s) as [s1|]; simpl; [|done].
  rewrite sub_quantity_relabel.
  destruct (sub_quantity m q s1) as [s2|]; simpl; [|done].
  rewrite deref_relabel. destruct (deref s2 m) as [mo|]; simpl; [|done].
  rewrite decide_False by done.
  destruct (0 <? quantity mo); [|done]. by apply push_relabel.
Qed.

Lemma peek_loop_range s h h' b :
  peek_loop s h = Ok (h', Some b) → ∃ k, _by_seq s !! k = Some b.
Proof.
  intros H. apply peek_loop_spec in H as (_ & _ & _ & e & _ & _ & _ & H & _).
  eauto.
Qed.

Lemma pop_loop_range s h h' m :
  pop_loop s h = Ok (h', Some m) → ∃ k, _by_seq s !! k = Some m.
Proof.
  induction h as [|[k seq] rest IH]; simpl; [done|].
  destruct (_by_seq s !! seq) as [l|] eqn:Hl; [|done].
  destruct (deref s l) as [o|]; simpl; [|done].
  destruct (0 <? quantity o); [|done]. intros [= _ <-]. eauto.
Qed.

Lemma peek_top_range sd s s' b :
  _peek_top sd s = Ok (s', Some b) →
  _by_seq s' = _by_seq s ∧ ∃ k, _by_seq s !! k = Some b.
Proof.
  unfold _peek_top. intros H.
  destruct (String.eqb sd "buy");
    apply bind_Ok in H as ([h r] & Hpeek & H); simplify_eq;
    (split; [done|]); by eapply peek_loop_range.
Qed.

Lemma pop_top_range sd s s' m :
  _pop_top sd s = Ok (s', Some m) → ∃ k, _by_seq s !! k = Some m.
Proof.
  unfold _pop_top. intros H.
  destruct (String.eqb sd "buy");
    apply bind_Ok in H as ([h r] & Hpop & H); simplify_eq;
    by eapply pop_loop_range.
Qed.

Lemma opp_queue_relabel buy l sd s :
  opp_queue buy (relabel l sd s) = opp_queue buy s.
Proof. by destruct buy. Qed.

(** A turn of a matching loop does not read the side of the taker. *)
Lemma match_iter_relabel buy tk sd s :
  (∀ k, _by_seq s !! k ≠ Some tk) →
  match_iter buy tk (relabel tk sd s)
  = '(s', c) ← match_iter buy tk s; Ok (relabel tk sd s', c).
Proof.
  intros Hfresh. unfold match_iter. rewrite deref_relabel.
  destruct (deref s tk) as [t|]; simpl; [|done].
  rewrite decide_True by done. simpl. rewrite opp_queue_relabel.
  destruct (_ && _); [|done].
  rewrite peek_top_relabel.
  destruct (_peek_top (opposite buy) s) as [[s1 [b|]]|] eqn:Hpeek; simpl;
    try done.
  apply peek_top_range in Hpeek as [Hbs (kb & Hkb)].
  assert (tk ≠ b) as Hb by (intros ->; by eapply Hfresh).
  rewrite !deref_relabel.
  destruct (deref s1 b) as [bo|]; simpl; [|done].
  rewrite decide_False by done.
  destruct (deref s1 tk) as [t1|]; simpl; [|done].
  rewrite decide_True by done. simpl.
  destruct (no_cross _ _ _); [done|].
  rewrite pop_top_relabel.
  destruct (_pop_top (opposite buy) s1) as [[s2 [m|]]|] eqn:Hpop; simpl;
    try done.
  apply pop_top_range in Hpop as (km & Hkm). rewrite Hbs in Hkm.
  assert (tk ≠ m) as Hm by (intros ->; by eapply Hfresh).
  rewrite !deref_relabel.
  destruct (deref s2 tk) as [t2|]; simpl; [|done].
  rewrite decide_True by done.
  destruct (deref s2 m) as [mo|]; simpl; [|done].
  rewrite decide_False by done. simpl.
  change (_record_trade ?a ?b ?c ?d ?e (relabel tk sd s2))
    with (relabel tk sd (_record_trade a b c d e s2)).
  rewrite cleanup_relabel by done.
  by destruct (_cleanup tk m _ _).
Qed.

Lemma match_loop_relabel buy tk sd n s :
  inv (Some tk) s →
  match_loop_of buy n tk (relabel tk sd s)
  = s' ← match_loop_of buy n tk s; Ok (relabel tk sd s').
Proof.
  revert s. induction n as [|n IH]; intros s Hi.
  { by destruct buy. }
  rewrite !match_loop_unfold.
  rewrite match_iter_relabel by (intros k; by apply inv_unregistered).
  destruct (match_iter buy tk s) as [[s1 c]|] eqn:Hiter; simpl; [|done].
  destruct c; [|done]. apply IH. by eapply match_iter_inv.
Qed.

Lemma alloc_relabel sd p q s :
  alloc sd p q s = relabel (length (store s)) sd (alloc "sell" p q s).
Proof.
  unfold alloc, relabel, set_store. simpl. f_equal.
  rewrite alter_app_r_alt by done. by rewrite Nat.sub_diag.
Qed.

Lemma add_order_unfold sd p q s :
  0 < q →
  add_order sd p q s
  = s1 ← match_loop_of (String.eqb sd "buy")
           (S (length (opp_queue (String.eqb sd "buy") s)))
           (length (store s)) (alloc sd p q s);
    t ← deref s1 (length (store s));
    if 0 <? quantity t
    then Ok (settle (_seq s) (_next_order_id s) (length (store s)) t s1,
             _next_order_id s)
    else Ok (s1, 0%nat).
Proof.
  intros Hq. unfold add_order. apply Z.leb_gt in Hq. rewrite Hq.
  rewrite add_order_loop. fold (alloc sd p q s).
  change (opp_queue (String.eqb sd "buy") (alloc sd p q s))
    with (opp_queue (String.eqb sd "buy") s).
  destruct (match_loop_of _ _ _ _) as [s1|]; simpl; [|done].
  destruct (deref s1 (length (store s))) as [t|] eqn:Ht; simpl; [|done].
  destruct (0 <? quantity t); [|done].
  unfold _push. erewrite deref_lookup; cycle 1.
  { simpl. by apply deref_Ok. }
  simpl. unfold settle. by destruct (String.eqb (side t) "buy").
Qed.

Lemma relabel_out_of_range l sd s :
  (length (store s) ≤ l)%nat → relabel l sd s = s.
Proof.
  intros Hl. destruct s as [b a sq ni tr bs bi st].
  unfold relabel, set_store. simpl in *. f_equal.
  apply list_eq. intros i. rewrite list_lookup_alter.
  case_decide; [subst|done]. by rewrite lookup_ge_None_2.
Qed.

(** C9: [add_order] does not check [side]: in a reachable state, a call
    with a side that is not ["buy"] returns what the call with ["sell"]
    returns and leaves the state that the call with ["sell"] leaves, but for
    the [side] string kept in the new order; so it is matched against the
    bids only, its trades carry the taker side ["sell"], and when an id is
    returned the entry of the new order is on the asks. *)
Theorem unknown_side_is_sell s sd p q :
  reachable s → sd ≠ "buy" →
  ∃ s' r, add_order "sell" p q s = Ok (s', r)
    ∧ add_order sd p q s = Ok (relabel (length (store s)) sd s', r)
    ∧ bids (relabel (length (store s)) sd s') = bids s'
    ∧ asks (relabel (length (store s)) sd s') = asks s'
    ∧ trades (relabel (length (store s)) sd s') = trades s'
    ∧ (r ≠ 0%nat → (p, _seq s) ∈ asks s')
    ∧ (∀ e, e ∈ bids s' → e ∈ bids s)
    ∧ ∃ new, trades s' = trades s ++ new
        ∧ Forall (λ t, taker_side t = "sell"
                       ∧ ∃ l o, resting s l o ∧ side o = "buy"
                           ∧ maker_order_id t = id o) new.
Proof.
  intros Hr Hsd. apply reachable_inv in Hr.
  destruct (Z_le_gt_dec q 0) as [Hq|Hq].
  { exists s, 0%nat. rewrite !add_order_rejected by done.
    rewrite relabel_out_of_range by done. split_and!; try done.
    exists []. by rewrite app_nil_r. }
  apply Z.gt_lt in Hq.
  destruct (add_order_returns "sell" p q s Hr) as (s' & r & Hsell).
  exists s', r. split; [done|].
  pose proof (add_order_summary_loop _ _ _ _ _ _ Hr Hq Hsell)
    as (s1 & t & new & Hloop & Hi1 & Hpg & Ht & Hend & Hi' & Htr & Hst).
  assert (store (alloc "sell" p q s) !! length (store s)
          = Some (mkOrder (_next_order_id s) "sell" p q (_seq s))) as Ht0.
  { unfold alloc. simpl. by apply list_lookup_middle. }
  destruct (pg_store _ _ _ _ _ _ Hpg _ _ Ht0)
    as (t1 & Ht1 & _ & Hsdt & Hprt & Hsqt & _).
  assert (t1 = t) as -> by congruence. simpl in Hsdt, Hprt, Hsqt.
  split_and!; try done.
  - rewrite add_order_unfold by done.
    apply String.eqb_neq in Hsd. rewrite Hsd.
    change (String.eqb "sell" "buy") with false in Hloop.
    rewrite alloc_relabel.
    rewrite match_loop_relabel by by apply inv_alloc.
    rewrite Hloop. simpl. rewrite deref_relabel.
    rewrite (deref_lookup _ _ _ Ht). simpl.
    rewrite decide_True by done. simpl.
    destruct (0 <? quantity t) eqn:Hpos.
    + apply Z.ltb_lt in Hpos.
      destruct Hend as [(_ & -> & ->)|(Hle & _)]; [|lia].
      do 2 f_equal. unfold settle. simpl. rewrite Hsd, Hsdt. done.
    + apply Z.ltb_ge in Hpos.
      destruct Hend as [(Hgt & _)|(_ & -> & ->)]; [lia|done].
  - intros Hnz. destruct Hend as [(_ & _ & ->)|(_ & -> & _)]; [|done].
    unfold settle. rewrite Hsdt. simpl. apply elem_of_heappush. left.
    by rewrite Hprt, Hsqt.
  - intros e He. apply (pg_opp _ _ _ _ _ _ Hpg). simpl.
    destruct Hend as [(_ & _ & ->)|(_ & _ & ->)]; [|done].
    unfold settle in He. by rewrite Hsdt in He.
  - exists new. split; [done|].
    eapply Forall_impl; [apply (pg_new _ _ _ _ _ _ Hpg)|].
    intros x Hx.
    apply (trade_ok_resting "sell") in Hx as (l & o & Hrest & -> & _ & Hso & _);
      [|done].
    simpl. split; [done|]. exists l, o. split_and!; try done.
    by apply String.eqb_eq.
Qed.

(** ** The properties on concrete books *)

(** A buy for 5 at 101 meets the two asks at 100: the trade against the
    second ask comes after the first ask is filled. *)
Lemma price_time_priority_witness :
  filled 1 [mkTrade 100 3 "buy" 1 3] = 3
  ∧ ∃ t1, t1 ∈ [mkTrade 100 3 "buy" 1 3] ∧ maker_order_id t1 = 1%nat.
Proof.
  assert (reachable (state_after two_asks)) as Hr.
  { apply reachable_state_after. do 2 eexists. vm_compute. reflexivity. }
  assert (add_order "buy" 101 5 (state_after two_asks)
          = Ok (state_after (two_asks ++ [AddOrder "buy" 101 5]), 0%nat)) as Hc.
  { vm_compute. reflexivity. }
  destruct (price_time_priority _ _ _ _ _ _ Hr Hc) as [Hprio _].
  apply (Hprio 0%nat 1%nat (mkOrder 1 "sell" 100 3 0) (mkOrder 2 "sell" 100 4 1)
           [mkTrade 100 3 "buy" 1 3] (mkTrade 100 2 "buy" 2 3) []).
  - unfold resting. split_and!; vm_compute; reflexivity.
  - unfold resting. split_and!; vm_compute; reflexivity.
  - reflexivity.
  - reflexivity.
  - simpl. lia.
  - vm_compute. reflexivity.
  - reflexivity.
Defined.

Lemma trade_price_is_maker_price_witness :
  ∃ new,
    trades (state_after (two_asks ++ [AddOrder "buy" 101 5]))
    = trades (state_after two_asks) ++ new
    ∧ Forall (λ t, ∃ l o, resting (state_after two_asks) l o
                     ∧ maker_order_id t = id o
                     ∧ taker_order_id t = _next_order_id (state_after two_asks)
                     ∧ t_price t = price o
                     ∧ (t_price t = 101 ↔ price o = 101)) new.
Proof.
  apply (trade_price_is_maker_price (state_after two_asks) "buy" 101 5
           (state_after (two_asks ++ [AddOrder "buy" 101 5])) 0%nat).
  - apply reachable_state_after. do 2 eexists. vm_compute. reflexivity.
  - vm_compute. reflexivity.
Defined.

Lemma no_false_crossing_witness :
  (∃ new,
     trades (state_after (two_asks ++ [AddOrder "buy" 99 5]))
     = trades (state_after two_asks) ++ new
     ∧ Forall (λ t, ∃ l o, resting (state_after two_asks) l o
                      ∧ maker_order_id t = id o
                      ∧ String.eqb (side o) "buy" = negb (String.eqb "buy" "buy")
                      ∧ crosses "buy" (price o) 99) new)
  ∧ (∀ l o, resting (state_after two_asks) l o → ¬ crosses "buy" (price o) 99 →
       resting (state_after (two_asks ++ [AddOrder "buy" 99 5])) l o
       ∧ key_of o ∈ queue_of o (state_after (two_asks ++ [AddOrder "buy" 99 5]))).
Proof.
  apply (no_false_crossing (state_after two_asks) "buy" 99 5
           (state_after (two_asks ++ [AddOrder "buy" 99 5])) 3%nat).
  - apply reachable_state_after. do 2 eexists. vm_compute. reflexivity.
  - vm_compute. reflexivity.
Defined.


Lemma registry_exact_witness :
  (∀ l o, store (state_after two_asks) !! l = Some o →
     0 ≤ quantity o
     ∧ (0 < quantity o ↔ _by_seq (state_after two_asks) !! sequence o = Some l)
     ∧ (0 < quantity o ↔ _by_id (state_after two_asks) !! id o = Some l))
  ∧ (∀ sd p q s' r, add_order sd p q (state_after two_asks) = Ok (s', r) →
       (∀ l o, resting (state_after two_asks) l o →
          ∃ o', store s' !! l = Some o'
            ∧ sequence o' = sequence o ∧ id o' = id o
            ∧ ((0 < quantity o' ∧ resting s' l o')
               ∨ (quantity o' = 0 ∧ _by_seq s' !! sequence o = None
                  ∧ _by_id s' !! id o = None)))
       ∧ (r = 0%nat →
          (∀ k l, _by_seq s' !! k = Some l →
                  _by_seq (state_after two_asks) !! k = Some l)
          ∧ (∀ k l, _by_id s' !! k = Some l →
                    _by_id (state_after two_asks) !! k = Some l)
          ∧ _by_seq s' !! _seq (state_after two_asks) = None
          ∧ _by_id s' !! _next_order_id (state_after two_asks) = None)).
Proof.
  apply (registry_exact (state_after two_asks)).
  apply reachable_state_after. do 2 eexists. vm_compute. reflexivity.
Defined.

Lemma reads_idempotent_witness :
  ∃ rb ra s' ids,
    (∃ s1, best_bid (state_after one_bid) = Ok (s1, rb))
    ∧ (∃ s1, best_ask (state_after one_bid) = Ok (s1, ra))
    ∧ run [BestBid; BestAsk; BestBid] (state_after one_bid) = Ok (s', ids)
    ∧ (∃ s2, best_bid s' = Ok (s2, rb)) ∧ (∃ s2, best_ask s' = Ok (s2, ra)).
Proof.
  apply (reads_idempotent (state_after one_bid) [BestBid; BestAsk; BestBid]).
  - apply reachable_state_after. do 2 eexists. vm_compute. reflexivity.
  - reflexivity.
Defined.

Lemma reads_frame_witness :
  store (state_after one_bid) = store (state_after one_bid)
  ∧ _by_seq (state_after one_bid) = _by_seq (state_after one_bid)
  ∧ _by_id (state_after one_bid) = _by_id (state_after one_bid)
  ∧ trades (state_after one_bid) = trades (state_after one_bid)
  ∧ _seq (state_after one_bid) = _seq (state_after one_bid)
  ∧ _next_order_id (state_after one_bid) = _next_order_id (state_after one_bid)
  ∧ ∃ db da, bids (state_after one_bid) = db ++ bids (state_after one_bid)
      ∧ asks (state_after one_bid) = da ++ asks (state_after one_bid)
      ∧ Forall (tombstone (state_after one_bid)) db
      ∧ Forall (tombstone (state_after one_bid)) da.
Proof.
  apply (reads_frame (state_after one_bid) (state_after one_bid)
           (Some (100, 5))).
  left. vm_compute. reflexivity.
Defined.

Lemma unknown_side_is_sell_witness :
  ∃ s' r, add_order "sell" 99 7 (state_after one_bid) = Ok (s', r)
    ∧ add_order "short" 99 7 (state_after one_bid)
      = Ok (relabel (length (store (state_after one_bid))) "short" s', r)
    ∧ bids (relabel (length (store (state_after one_bid))) "short" s') = bids s'
    ∧ asks (relabel (length (store (state_after one_bid))) "short" s') = asks s'
    ∧ trades (relabel (length (store (state_after one_bid))) "short" s')
      = trades s'
    ∧ (r ≠ 0%nat → (99, _seq (state_after one_bid)) ∈ asks s')
    ∧ (∀ e, e ∈ bids s' → e ∈ bids (state_after one_bid))
    ∧ ∃ new, trades s' = trades (state_after one_bid) ++ new
        ∧ Forall (λ t, taker_side t = "sell"
                       ∧ ∃ l o, resting (state_after one_bid) l o
                           ∧ side o = "buy" ∧ maker_order_id t = id o) new.
Proof.
  apply (unknown_side_is_sell (state_after one_bid) "short" 99 7).
  - apply reachable_state_after. do 2 eexists. vm_compute. reflexivity.
  - discriminate.
Defined.

Lemma order_ids_consumed_witness :
  _next_order_id
    (state_after [AddOrder "sell" 50 10; AddOrder "buy" 50 10;
                  AddOrder "buy" 40 1]) = 4%nat
  ∧ _seq (state_after [AddOrder "sell" 50 10; AddOrder "buy" 50 10;
                       AddOrder "buy" 40 1]) = 3%nat
  ∧ (∀ sd p q s' r, 0 < q →
       add_order sd p q
         (state_after [AddOrder "sell" 50 10; AddOrder "buy" 50 10;
                       AddOrder "buy" 40 1]) = Ok (s', r) →
       _next_order_id s' = 5%nat ∧ _seq s' = 4%nat ∧ (r = 0%nat ∨ r = 4%nat))
  ∧ StronglySorted lt [1; 3]%nat
  ∧ NoDup [1; 3]%nat.
Proof.
  apply (order_ids_consumed
           [AddOrder "sell" 50 10; AddOrder "buy" 50 10; AddOrder "buy" 40 1]
           (state_after [AddOrder "sell" 50 10; AddOrder "buy" 50 10;
                         AddOrder "buy" 40 1]) [1; 0; 3]%nat).
  vm_compute. reflexivity.
Defined.

(** ** The scenarios of the specification *)

Example scenario1 :
  ∃ s1 s2 s3, add_order "buy" 100 5 init = Ok (s1, 1%nat)
    ∧ best_bid s1 = Ok (s2, Some (100, 5))
    ∧ best_ask s2 = Ok (s3, None).
Proof. do 3 eexists. split_and!; vm_compute; reflexivity. Qed.

Example scenario2 :
  ∃ s1 s2 s3 s4, add_order "sell" 100 3 init = Ok (s1, 1%nat)
    ∧ add_order "buy" 101 5 s1 = Ok (s2, 2%nat)
    ∧ trades s2 = [mkTrade 100 3 "buy" 1 2]
    ∧ best_ask s2 = Ok (s3, None)
    ∧ best_bid s3 = Ok (s4, Some (101, 2)).
Proof. do 4 eexists. split_and!; vm_compute; reflexivity. Qed.

Example scenario3 :
  ∃ s1 s2 s3 s4, add_order "sell" 50 10 init = Ok (s1, 1%nat)
    ∧ add_order "buy" 50 10 s1 = Ok (s2, 0%nat)
    ∧ trades s2 = [mkTrade 50 10 "buy" 1 2]
    ∧ best_bid s2 = Ok (s3, None)
    ∧ best_ask s3 = Ok (s4, None).
Proof. do 4 eexists. split_and!; vm_compute; reflexivity. Qed.

Example scenario4 :
  ∃ s1 s2 s3 s4, add_order "buy" 90 5 init = Ok (s1, 1%nat)
    ∧ add_order "sell" 95 5 s1 = Ok (s2, 2%nat)
    ∧ trades s2 = []
    ∧ best_bid s2 = Ok (s3, Some (90, 5))
    ∧ best_ask s3 = Ok (s4, Some (95, 5)).
Proof. do 4 eexists. split_and!; vm_compute; reflexivity. Qed.

Example scenario5 :
  add_order "buy" 100 0 init = Ok (init, 0%nat)
  ∧ best_bid init = Ok (init, None).
Proof. split; vm_compute; reflexivity. Qed.

(** ** Further properties of the engine *)

(** X1: every sequence of calls of [add_order], [best_bid] and [best_ask]
    on a new engine returns: [maker] is never [None] where [_match_buy] and
    [_match_sell] read [maker.quantity], and each of their loops stops
    within one test more than the opposite queue has entries. *)
Theorem engine_never_fails cs : ∃ s ids, run cs init = Ok (s, ids).
Proof. apply run_returns, inv_init. Qed.

(** What the loop of [_peek_top] finds on the queue opposite to a taker:
    nothing when no order rests there, and otherwise the resting order whose
    entry is the smallest. *)
Lemma peek_loop_best tk buy s h r :
  inv tk s → peek_loop s (opp_queue buy s) = Ok (h, r) →
  match r with
  | None =>
      ∀ l o, resting s l o → String.eqb (side o) "buy" ≠ negb buy
  | Some b =>
      ∃ bo, resting s b bo ∧ String.eqb (side bo) "buy" = negb buy
        ∧ ∀ l o, resting s l o → String.eqb (side o) "buy" = negb buy →
            entry_le (key_of bo) (key_of o)
  end.
Proof.
  intros Hi H. apply peek_loop_spec in H as (d & Hq & Hd & Hr).
  assert (∀ l o, resting s l o → String.eqb (side o) "buy" = negb buy →
            key_of o ∈ h) as Hin.
  { intros l o Hrest Hsd.
    destruct (resting_facts _ _ _ _ Hi Hrest) as (Hsq & _ & Hreg & Hpos & _ & Hk).
    assert (queue_of o s = opp_queue buy s) as Hqo.
    { unfold queue_of. rewrite Hsd. by destruct buy. }
    rewrite Hqo, Hq in Hk. apply elem_of_app in Hk as [Hk|Hk]; [|done].
    rewrite Forall_forall in Hd. apply Hd in Hk. unfold tombstone in Hk.
    rewrite key_of_snd, Hsq, Hreg in Hk. destruct Hk as (o' & Ho' & Hle).
    destruct Hrest as (Ho & _). assert (o' = o) as -> by congruence. lia. }
  destruct r as [b|].
  - destruct Hr as (e & rest & bo & -> & Hseq & Hbo & Hpos).
    assert (e ∈ opp_queue buy s) as He.
    { rewrite Hq. apply elem_of_app. right. by left. }
    destruct (inv_opp_entry _ _ _ _ _ _ Hi He Hseq Hbo)
      as (Hem & Hkey & Hsd & Hsqm & Hidm & Hreg).
    exists bo. split_and!.
    + split_and!; [done|by rewrite Hsqm|].
      rewrite Hidm. by apply (inv_by_id _ _ Hi).
    + done.
    + intros l o Hrest Hso. rewrite <- Hkey.
      eapply sorted_head_le; [|by eapply Hin].
      apply (sorted_app_r d). rewrite <- Hq.
      destruct buy; [apply (inv_asks_sorted _ _ Hi)|apply (inv_bids_sorted _ _ Hi)].
  - subst h. intros l o Hrest Hsd.
    destruct (String.eqb (side o) "buy") eqn:E, buy; simpl in *; try done;
      eapply elem_of_nil, (Hin l o); try done; by rewrite E.
Qed.

(** X2: in a reachable state [best_bid] returns [None] exactly when no buy
    order rests; otherwise it returns the price and the remaining quantity
    of a resting buy order that has the highest price of all resting buy
    orders and, among those at that price, the smallest sequence number. *)
Theorem best_bid_is_highest s s' r :
  reachable s → best_bid s = Ok (s', r) →
  match r with
  | None => ∀ l o, resting s l o → side o ≠ "buy"
  | Some (p, q) =>
      ∃ l o, resting s l o ∧ side o = "buy" ∧ price o = p ∧ quantity o = q
        ∧ ∀ l' o', resting s l' o' → side o' = "buy" →
            price o' ≤ p ∧ (price o' = p → (sequence o ≤ sequence o')%nat)
  end.
Proof.
  intros Hr H. apply reachable_inv in Hr. unfold best_bid, _peek_top in H.
  simpl in H.
  apply bind_Ok in H as ([s1 o] & Hpeek & H).
  apply bind_Ok in Hpeek as ([h r'] & Hpeek & Hs1). simplify_eq.
  pose proof (peek_loop_best _ false _ _ _ Hr Hpeek) as Hbest.
  destruct o as [b|].
  - apply bind_Ok in H as (bo' & Hbo' & H). apply deref_Ok in Hbo'.
    simpl in Hbo'. simplify_eq.
    destruct Hbest as (bo & Hrest & Hsd & Hmin).
    assert (bo' = bo) as -> by (destruct Hrest; congruence).
    exists b, bo. apply String.eqb_eq in Hsd. split_and!; try done.
    intros l' o' Hrest' Hsd'.
    assert (String.eqb (side o') "buy" = negb false) as Hsd''
      by by apply String.eqb_eq.
    specialize (Hmin _ _ Hrest' Hsd''). unfold key_of, entry_le in Hmin.
    rewrite Hsd, Hsd' in Hmin. simpl in Hmin. lia.
  - simplify_eq. intros l o Hrest Hsd. apply (Hbest _ _ Hrest).
    by apply String.eqb_eq.
Qed.

(** X3: in a reachable state [best_ask] returns [None] exactly when no
    order rests on the ask side (an order whose side is not ["buy"]);
    otherwise it returns the price and the remaining quantity of a resting
    ask that has the lowest price of all resting asks and, among those at
    that price, the smallest sequence number. *)
Theorem best_ask_is_lowest s s' r :
  reachable s → best_ask s = Ok (s', r) →
  match r with
  | None => ∀ l o, resting s l o → side o = "buy"
  | Some (p, q) =>
      ∃ l o, resting s l o ∧ side o ≠ "buy" ∧ price o = p ∧ quantity o = q
        ∧ ∀ l' o', resting s l' o' → side o' ≠ "buy" →
            p ≤ price o' ∧ (price o' = p → (sequence o ≤ sequence o')%nat)
  end.
Proof.
  intros Hr H. apply reachable_inv in Hr. unfold best_ask, _peek_top in H.
  simpl in H.
  apply bind_Ok in H as ([s1 o] & Hpeek & H).
  apply bind_Ok in Hpeek as ([h r'] & Hpeek & Hs1). simplify_eq.
  pose proof (peek_loop_best _ true _ _ _ Hr Hpeek) as Hbest.
  destruct o as [b|].
  - apply bind_Ok in H as (bo' & Hbo' & H). apply deref_Ok in Hbo'.
    simpl in Hbo'. simplify_eq.
    destruct Hbest as (bo & Hrest & Hsd & Hmin).
    assert (bo' = bo) as -> by (destruct Hrest; congruence).
    exists b, bo. simpl in Hsd. split_and!; try done.
    { by apply String.eqb_neq. }
    intros l' o' Hrest' Hsd'. apply String.eqb_neq in Hsd'.
    specialize (Hmin _ _ Hrest' Hsd'). unfold key_of, entry_le in Hmin.
    rewrite Hsd, Hsd' in Hmin. simpl in Hmin. lia.
  - simplify_eq. intros l o Hrest.
    destruct (String.eqb (side o) "buy") eqn:E; [by apply String.eqb_eq|].
    by destruct (Hbest _ _ Hrest).
Qed.

Lemma queue_order_nil buy s0 : queue_order buy s0 [].
Proof. intros l1 l2 o1 o2 pre t post _ _ _ _ _ Hsplit. by destruct pre. Qed.

Lemma key_of_static o o' :
  side o' = side o → price o' = price o → sequence o' = sequence o →
  key_of o' = key_of o.
Proof. unfold key_of. by intros -> -> ->. Qed.

(** A turn that trades takes the maker at the front of the queue. *)
Lemma queue_order_trade buy tk p s0 s s' new tr t0 :
  inv (Some tk) s0 → store s0 !! tk = Some t0 →
  inv (Some tk) s → progress buy tk p s0 s new →
  match_iter buy tk s = Ok (s', true) →
  trades s' = trades s ++ [tr] →
  queue_order buy s0 new → queue_order buy s0 (new ++ [tr]).
Proof.
  intros Hi0 Ht0 Hi Hpg H Htr Hqo
    l1 l2 o1 o2 pre x post Hl1 Ho1 Ho2 Hs1 Hbefore Hsplit Hmk.
  apply snoc_split in Hsplit as [(-> & -> & ->)|(post' & -> & Hnew)];
    [|by eapply Hqo].
  destruct (match_iter_trade _ _ _ _ Hi H)
    as (t & m & mo & q & Ht & Hqt & Hidt & Hreg & Hmo & Hqm & Hne & Hsqm & Hidm
        & Hsd & Hcross & Hq & Htr' & Hst & Hregs & Hbest & _).
  rewrite Htr' in Htr. apply app_inv_head in Htr. injection Htr as <-.
  simpl in Hmk. injection Hmk as ->.
  destruct (pg_store _ _ _ _ _ _ Hpg _ _ Ho1)
    as (o1' & Ho1' & _ & Hsd1 & Hpr1 & Hsq1 & Hq1).
  destruct (pg_store _ _ _ _ _ _ Hpg _ _ Ho2)
    as (o2' & Ho2' & _ & Hsd2 & Hpr2 & Hsq2 & _).
  assert (o2' = mo) as -> by congruence.
  destruct (inv_store _ _ Hi _ _ Ho1') as (_ & _ & Hge).
  destruct (Z.eq_dec (quantity o1') 0) as [Hz|Hnz]; [lia|].
  exfalso. apply Hbefore.
  assert (l1 ≠ tk) as Hl1tk.
  { intros ->. by eapply (inv_unregistered tk s0). }
  assert (_by_seq s !! l1 = Some l1) as Hl1s.
  { eapply (inv_live _ _ Hi); [done|lia|congruence]. }
  assert (String.eqb (side o1') "buy" = negb buy) as Hs1' by by rewrite Hsd1.
  pose proof (Hbest _ _ Hl1s Ho1' Hs1') as Hle.
  by rewrite (key_of_static _ _ Hsd1 Hpr1 Hsq1),
             (key_of_static _ _ Hsd2 Hpr2 Hsq2) in Hle.
Qed.

Lemma match_loop_queue_order buy tk p n s0 s1 t0 :
  inv (Some tk) s0 → store s0 !! tk = Some t0 → price t0 = p →
  match_loop_of buy n tk s0 = Ok s1 →
  ∃ new, progress buy tk p s0 s1 new ∧ queue_order buy s0 new.
Proof.
  intros Hi0 Ht0 Hp H.
  apply (match_loop_rule buy tk
           (λ s, inv (Some tk) s
                 ∧ ∃ new, progress buy tk p s0 s new ∧ queue_order buy s0 new))
    in H; [by destruct H| |].
  - intros s s' c [Hi (new & Hpg & Hqo)] Hiter.
    split; [by eapply match_iter_inv|]. destruct c.
    + destruct (progress_trade _ _ _ _ _ _ _ _ Hi0 Ht0 Hp Hi Hpg Hiter)
        as [tr Hpg'].
      exists (new ++ [tr]). split; [done|].
      eapply queue_order_trade; try done.
      rewrite (pg_trades _ _ _ _ _ _ Hpg'), (pg_trades _ _ _ _ _ _ Hpg).
      by rewrite app_assoc.
    + apply match_iter_stop in Hiter as (_ & d & _ & Hs' & Hd & _); [|done].
      rewrite Hs'. exists new. split; [by eapply progress_stop|done].
  - split; [done|]. exists []. split; [apply progress_refl|apply queue_order_nil].
Qed.

(** X4: the makers of a call are taken in queue order.  Let [o1] and [o2]
    rest on the same side, [o1] at a better price than [o2] (lower for
    asks, higher for bids) or at the same price with a smaller sequence
    number.  Whenever [add_order] records a trade against [o2], the trades
    it recorded before have filled [o1] completely. *)
Theorem queue_order_priority s sd p q s' r l1 l2 o1 o2 pre t post :
  reachable s → add_order sd p q s = Ok (s', r) →
  resting s l1 o1 → resting s l2 o2 →
  String.eqb (side o1) "buy" = String.eqb (side o2) "buy" →
  (if String.eqb (side o1) "buy" then price o2 < price o1
   else price o1 < price o2)
  ∨ (price o1 = price o2 ∧ (sequence o1 < sequence o2)%nat) →
  trades s' = trades s ++ pre ++ t :: post → maker_order_id t = id o2 →
  filled (id o1) pre = quantity o1.
Proof.
  intros Hr H Hr1 Hr2 Hside Hbetter Hsplit Hmaker. apply reachable_inv in Hr.
  destruct (Z_le_gt_dec q 0) as [Hq|Hq].
  { rewrite add_order_rejected in H by done. simplify_eq.
    rewrite <- (app_nil_r (trades s')) in Hsplit at 1.
    apply app_inv_head in Hsplit. by destruct pre. }
  apply Z.gt_lt in Hq.
  destruct (add_order_summary_loop _ _ _ _ _ _ Hr Hq H)
    as (s1 & tt & new & Hloop & Hi1 & Hpg & Ht & Hend & Hi' & Htr & Hst).
  eapply match_loop_queue_order in Hloop as (new' & Hpg' & Hqo);
    [|by apply inv_alloc| |reflexivity]; cycle 1.
  { unfold alloc. simpl. by apply list_lookup_middle. }
  simpl in Hpg'.
  assert (new' = new) as ->.
  { pose proof (pg_trades _ _ _ _ _ _ Hpg) as E1.
    pose proof (pg_trades _ _ _ _ _ _ Hpg') as E2.
    rewrite E1 in E2. by apply app_inv_head in E2. }
  rewrite Htr in Hsplit. apply app_inv_head in Hsplit.
  assert (∀ l o, resting s l o → store (alloc sd p q s) !! l = Some o) as Hal.
  { intros l o Hrest. unfold alloc. simpl. apply lookup_app_l_Some.
    by destruct Hrest. }
  destruct (resting_facts _ _ _ _ Hr Hr1) as (Hs1 & Hid1 & Hreg1 & _).
  destruct (resting_facts _ _ _ _ Hr Hr2) as (Hs2 & Hid2 & Hreg2 & _).
  assert (String.eqb (side o1) "buy" = negb (String.eqb sd "buy")) as Hopp.
  { pose proof (pg_new _ _ _ _ _ _ Hpg) as Hnew.
    rewrite Forall_forall in Hnew.
    destruct (Hnew t) as (m & mo & _ & Hmo & _ & Hsd & _ & _ & Hx).
    { rewrite Hsplit. apply elem_of_app. right. by left. }
    rewrite Hx in Hmaker. simpl in Hmaker.
    assert (m = l2) as -> by lia.
    rewrite (Hal _ _ Hr2) in Hmo. injection Hmo as <-. congruence. }
  rewrite Hid1.
  eapply (Hqo l1 l2 o1 o2); try done.
  - by apply Hal.
  - by apply Hal.
  - unfold before, key_of, entry_le. rewrite <- Hside.
    destruct (String.eqb (side o1) "buy"); simpl; lia.
  - by rewrite Hmaker, Hid2.
Qed.

(** ** The book is never crossed *)

(** When a matching loop ends and the taker has quantity left, no resting
    order of the opposite side passes the crossing test. *)
Lemma match_loop_exhausts buy tk n s0 s1 t :
  inv (Some tk) s0 → match_loop_of buy n tk s0 = Ok s1 →
  store s1 !! tk = Some t → 0 < quantity t →
  ∀ l o, _by_seq s1 !! l = Some l → store s1 !! l = Some o →
    String.eqb (side o) "buy" = negb buy →
    no_cross buy (price o) (price t) = true.
Proof.
  revert s0. induction n as [|n IH]; intros s0 Hi H Ht Hq l o Hl Ho Hsd.
  { by destruct buy. }
  rewrite match_loop_unfold in H.
  apply bind_Ok in H as ([s' c] & Hiter & H).
  pose proof (match_iter_inv _ _ _ _ _ Hi Hiter) as Hi'.
  destruct c; [by eapply IH|]. simplify_eq.
  apply match_iter_stop in Hiter as (t' & d & Ht' & Hs1 & Hd & Hdrop & Hwhy);
    [|done].
  assert (store s1 = store s0 ∧ _by_seq s1 = _by_seq s0) as [Hst Hbs].
  { rewrite Hs1. by destruct buy. }
  rewrite Hst in Ht. assert (t' = t) as -> by congruence.
  destruct (inv_by_seq _ _ Hi' _ _ Hl) as (_ & o' & Ho' & _ & Hin).
  assert (o' = o) as -> by congruence.
  assert (queue_of o s1 = opp_queue buy s1) as Hqo.
  { unfold queue_of. rewrite Hsd. by destruct buy. }
  rewrite Hqo in Hin.
  destruct Hwhy as [Hle|[Hnil|(e & rest & m & mo & He & Hseq & Hmo & Hqm & Hnc)]].
  - lia.
  - rewrite Hnil in Hin. by apply elem_of_nil in Hin.
  - rewrite <- Hbs in Hseq. rewrite <- Hst in Hmo.
    assert (e ∈ opp_queue buy s1) as Hein by (rewrite He; by left).
    destruct (inv_opp_entry _ _ _ _ _ _ Hi' Hein Hseq Hmo)
      as (_ & Hkey & Hsdm & _).
    assert (entry_le (key_of mo) (key_of o)) as Hle.
    { rewrite <- Hkey. eapply sorted_head_le; [|by rewrite <- He].
      rewrite <- He.
      destruct buy; [apply (inv_asks_sorted _ _ Hi')|apply (inv_bids_sorted _ _ Hi')]. }
    unfold key_of, entry_le in Hle. rewrite Hsd, Hsdm in Hle.
    unfold no_cross in *. destruct buy; simpl in *.
    + apply Z.gtb_lt in Hnc. apply Z.gtb_lt. lia.
    + apply Z.ltb_lt in Hnc. apply Z.ltb_lt. lia.
Qed.

Lemma uncrossed_add_order sd p q s s' r :
  inv None s → uncrossed s → add_order sd p q s = Ok (s', r) → uncrossed s'.
Proof.
  intros Hi Hu H.
  destruct (Z_le_gt_dec q 0) as [Hq|Hq].
  { rewrite add_order_rejected in H by done. by simplify_eq. }
  apply Z.gt_lt in Hq.
  destruct (add_order_summary_loop _ _ _ _ _ _ Hi Hq H)
    as (s1 & t & new & Hloop & Hi1 & Hpg & Ht & Hend & Hi' & Htr & Hst).
  set (tk := length (store s)) in *.
  assert (store (alloc sd p q s) !! tk
          = Some (mkOrder (_next_order_id s) sd p q (_seq s))) as Ht0.
  { unfold alloc. simpl. by apply list_lookup_middle. }
  destruct (pg_store _ _ _ _ _ _ Hpg _ _ Ht0)
    as (t1 & Ht1 & _ & Hsdt & Hprt & _).
  assert (t1 = t) as -> by congruence. simpl in Hsdt, Hprt.
  assert (∀ l o', resting s' l o' → l ≠ tk →
            ∃ o, resting s l o ∧ side o' = side o ∧ price o' = price o) as Hold.
  { intros l o' Hrest Hne.
    destruct (resting_facts _ _ _ _ Hi' Hrest) as (_ & _ & _ & Hpos & Hlt & _).
    destruct Hrest as (Ho' & _). rewrite Hst in Ho', Hlt.
    rewrite (pg_len _ _ _ _ _ _ Hpg) in Hlt. unfold alloc in Hlt.
    simpl in Hlt. rewrite length_app in Hlt. simpl in Hlt.
    assert ((l < length (store s))%nat) as Hlt' by (unfold tk in Hne; lia).
    destruct (lookup_lt_is_Some_2 _ _ Hlt') as [o Ho].
    assert (store (alloc sd p q s) !! l = Some o) as Ho0.
    { unfold alloc. simpl. by apply lookup_app_l_Some. }
    destruct (pg_store _ _ _ _ _ _ Hpg _ _ Ho0)
      as (o'' & Ho'' & _ & Hsd & Hpr & _ & Hqty).
    assert (o'' = o') as -> by congruence.
    pose proof (filled_nonneg (S l) new
                  (trade_ok_quantity _ _ _ _ _ (pg_new _ _ _ _ _ _ Hpg))).
    exists o. split_and!; try done. apply live_resting; [done..|lia]. }
  assert (∀ l o', resting s' l o' → l ≠ tk →
            _by_seq s1 !! l = Some l ∧ store s1 !! l = Some o') as Hin1.
  { intros l o' Hrest Hne.
    destruct (resting_facts _ _ _ _ Hi' Hrest) as (_ & _ & _ & Hpos & _).
    destruct Hrest as (Ho' & _). rewrite Hst in Ho'. split; [|done].
    eapply (inv_live _ _ Hi1); [done..|congruence]. }
  assert (∀ o', resting s' tk o' → o' = t ∧ 0 < quantity t) as Htaker.
  { intros o' Hrest.
    destruct (resting_facts _ _ _ _ Hi' Hrest) as (_ & _ & _ & Hpos & _).
    destruct Hrest as (Ho' & _). rewrite Hst in Ho'.
    assert (o' = t) as -> by congruence. done. }
  intros l1 o1 l2 o2 Hr1 Hr2 Hs1 Hs2.
  destruct (decide (l1 = tk)) as [->|Hn1], (decide (l2 = tk)) as [->|Hn2].
  - destruct (Htaker _ Hr1) as [-> _]. destruct (Htaker _ Hr2) as [-> _]. done.
  - destruct (Htaker _ Hr1) as [-> Hpos].
    destruct (Hin1 _ _ Hr2 Hn2) as [Hl2 Ho2].
    assert (String.eqb sd "buy" = true) as Hbuy.
    { apply String.eqb_eq. congruence. }
    rewrite Hbuy in Hloop.
    pose proof (match_loop_exhausts _ _ _ _ _ _ (inv_alloc sd p q s Hi Hq)
                  Hloop Ht Hpos _ _ Hl2 Ho2) as Hnc.
    unfold no_cross in Hnc. simpl in Hnc.
    rewrite (proj2 (String.eqb_neq _ _) Hs2) in Hnc.
    specialize (Hnc eq_refl). apply Z.gtb_lt in Hnc. lia.
  - destruct (Htaker _ Hr2) as [-> Hpos].
    destruct (Hin1 _ _ Hr1 Hn1) as [Hl1 Ho1].
    assert (String.eqb sd "buy" = false) as Hbuy.
    { apply String.eqb_neq. congruence. }
    rewrite Hbuy in Hloop.
    pose proof (match_loop_exhausts _ _ _ _ _ _ (inv_alloc sd p q s Hi Hq)
                  Hloop Ht Hpos _ _ Hl1 Ho1) as Hnc.
    unfold no_cross in Hnc. simpl in Hnc.
    rewrite (proj2 (String.eqb_eq _ _) Hs1) in Hnc.
    specialize (Hnc eq_refl). apply Z.ltb_lt in Hnc. lia.
  - destruct (Hold _ _ Hr1 Hn1) as (o1' & Hr1' & Hsd1 & Hpr1).
    destruct (Hold _ _ Hr2 Hn2) as (o2' & Hr2' & Hsd2 & Hpr2).
    rewrite Hpr1, Hpr2. eapply Hu; try done; congruence.
Qed.

Lemma resting_same s s' l o :
  store s' = store s → _by_seq s' = _by_seq s → _by_id s' = _by_id s →
  resting s' l o → resting s l o.
Proof. unfold resting. by intros -> -> ->. Qed.

Lemma best_bid_same s s' r :
  best_bid s = Ok (s', r) →
  store s' = store s ∧ _by_seq s' = _by_seq s ∧ _by_id s' = _by_id s.
Proof.
  unfold best_bid. intros H. apply bind_Ok in H as ([s1 o] & Hpeek & H).
  apply peek_top_frame in Hpeek as (? & ? & ? & _).
  destruct o; [apply bind_Ok in H as (? & _ & H)|]; by simplify_eq.
Qed.

Lemma best_ask_same s s' r :
  best_ask s = Ok (s', r) →
  store s' = store s ∧ _by_seq s' = _by_seq s ∧ _by_id s' = _by_id s.
Proof.
  unfold best_ask. intros H. apply bind_Ok in H as ([s1 o] & Hpeek & H).
  apply peek_top_frame in Hpeek as (? & ? & ? & _).
  destruct o; [apply bind_Ok in H as (? & _ & H)|]; by simplify_eq.
Qed.

Lemma uncrossed_run cs s s' ids :
  inv None s → uncrossed s → run cs s = Ok (s', ids) → uncrossed s'.
Proof.
  revert s s' ids. induction cs as [|c cs IH]; intros s s' ids Hi Hu H;
    simpl in H.
  { by simplify_eq. }
  apply bind_Ok in H as ([s1 x] & Hstep & H).
  apply bind_Ok in H as ([s2 xs] & Hrun & H). simplify_eq.
  pose proof (step_inv _ _ _ _ Hi Hstep) as Hi1.
  eapply IH; [done| |done].
  destruct c as [sd p q| |]; simpl in Hstep;
    apply bind_Ok in Hstep as ([s3 y] & Hcall & Hstep); simplify_eq.
  - exact (uncrossed_add_order _ _ _ _ _ _ Hi Hu Hcall).
  - apply best_bid_same in Hcall as (E1 & E2 & E3).
    intros l1 o1 l2 o2 Hr1 Hr2. eapply Hu; by eapply resting_same.
  - apply best_ask_same in Hcall as (E1 & E2 & E3).
    intros l1 o1 l2 o2 Hr1 Hr2. eapply Hu; by eapply resting_same.
Qed.

Lemma uncrossed_init : uncrossed init.
Proof. by intros l1 o1 l2 o2 (Ho & _). Qed.

(** X5: the book is never crossed or locked: in a reachable state every
    resting buy order has a price strictly below the price of every order
    resting on the ask side, because [add_order] matches a new order until
    it is filled or no resting order of the other side crosses it. *)
Theorem book_never_crossed s l1 o1 l2 o2 :
  reachable s → resting s l1 o1 → resting s l2 o2 →
  side o1 = "buy" → side o2 ≠ "buy" → price o1 < price o2.
Proof.
  intros (cs & ids & Hrun). revert l1 o1 l2 o2.
  by apply (uncrossed_run _ _ _ _ inv_init uncrossed_init Hrun).
Qed.

(** X6: in a reachable state the best bid is strictly below the best ask
    whenever [best_bid] and [best_ask] both return a price. *)
Theorem best_bid_below_best_ask s s1 s2 pb qb pa qa :
  reachable s →
  best_bid s = Ok (s1, Some (pb, qb)) → best_ask s = Ok (s2, Some (pa, qa)) →
  pb < pa.
Proof.
  intros Hr Hb Ha. pose proof (reachable_inv _ Hr) as Hi.
  destruct Hr as (cs & ids & Hrun).
  pose proof (uncrossed_run _ _ _ _ inv_init uncrossed_init Hrun) as Hu.
  unfold best_bid, best_ask, _peek_top in Hb, Ha. simpl in Hb, Ha.
  apply bind_Ok in Hb as ([sb ob] & Hpb & Hb).
  apply bind_Ok in Hpb as ([hb rb] & Hpb & Hsb). simplify_eq.
  apply bind_Ok in Ha as ([sa oa] & Hpa & Ha).
  apply bind_Ok in Hpa as ([ha ra] & Hpa & Hsa). simplify_eq.
  destruct ob as [b|]; [|done]. destruct oa as [a|]; [|done].
  apply bind_Ok in Hb as (bo & Hbo & Hb). apply deref_Ok in Hbo.
  apply bind_Ok in Ha as (ao & Hao & Ha). apply deref_Ok in Hao.
  simpl in Hbo, Hao. simplify_eq.
  destruct (peek_loop_best _ false _ _ _ Hi Hpb) as (bo' & Hrb & Hsb & _).
  destruct (peek_loop_best _ true _ _ _ Hi Hpa) as (ao' & Hra & Hsa & _).
  assert (bo' = bo) as -> by (destruct Hrb; congruence).
  assert (ao' = ao) as -> by (destruct Hra; congruence).
  eapply Hu; try done.
  - by apply String.eqb_eq.
  - by apply String.eqb_neq.
Qed.

(** ** The queues hold the resting orders and nothing else *)

Lemma heappush_perm h x : heappush h x ≡ₚ x :: h.
Proof.
  induction h as [|y h IH]; simpl; [done|].
  destruct (entry_leb x y); [done|]. rewrite IH. apply Permutation_swap.
Qed.

Lemma NoDup_heappush h x : NoDup h → x ∉ h → NoDup (heappush h x).
Proof.
  intros Hh Hx. rewrite heappush_perm. by constructor.
Qed.

Lemma tight_init : tight init.
Proof.
  split_and!; try by constructor.
  intros e [He|He]; by apply elem_of_nil in He.
Qed.

Lemma tight_drop buy s d h :
  tight s → opp_queue buy s = d ++ h → tight (set_opp buy h s).
Proof.
  intros (Hb & Ha & Hreg) Hq.
  assert (NoDup h ∧ ∀ e, e ∈ h → e ∈ opp_queue buy s) as [Hh Hsub].
  { split.
    - assert (NoDup (opp_queue buy s)) as Hnd by by destruct buy.
      rewrite Hq in Hnd. by apply NoDup_app in Hnd as (_ & _ & ?).
    - intros e He. rewrite Hq. apply elem_of_app. by right. }
  destruct buy; simpl in *.
  - split_and!; try done. intros e [He|He]; apply Hreg; auto.
  - split_and!; try done. intros e [He|He]; apply Hreg; auto.
Qed.

(** A turn that trades keeps the queues tight. *)
Lemma tight_fill tk buy s e rest m t mo :
  inv (Some tk) s → tight s → opp_queue buy s = e :: rest →
  _by_seq s !! e.2 = Some m → store s !! m = Some mo →
  tight (fill buy tk m t mo rest s).
Proof.
  intros Hi (Hb & Ha & Hreg) Hq Hseq Hmo.
  assert (e ∈ opp_queue buy s) as He by (rewrite Hq; by left).
  destruct (inv_opp_entry _ _ _ _ _ _ Hi He Hseq Hmo)
    as (Hem & Hkey & Hsd & Hsqm & Hidm & Hregm).
  assert (NoDup (e :: rest)) as Hnd by (rewrite <- Hq; by destruct buy).
  apply NoDup_cons in Hnd as [Hne Hrest].
  assert (∀ x, x ∈ rest → x.2 ≠ m) as Hrest_m.
  { intros x Hx Hxm.
    assert (x ∈ opp_queue buy s) as Hxin by (rewrite Hq; by right).
    assert (_by_seq s !! x.2 = Some m) as Hxs by (rewrite Hxm; done).
    destruct (inv_opp_entry _ _ _ _ _ _ Hi Hxin Hxs Hmo) as (_ & Hxk & _).
    apply Hne. by rewrite Hkey, <- Hxk. }
  assert (∀ x, x ∈ (if buy then bids s else asks s) → x.2 ≠ m) as Hown_m.
  { intros x Hx Hxm. destruct buy; simpl in *.
    - destruct (inv_bids _ _ Hi _ Hx) as (o & Ho & _ & Hso).
      rewrite Hxm in Ho. assert (o = mo) as -> by congruence.
      apply String.eqb_neq in Hsd. done.
    - destruct (inv_asks _ _ Hi _ Hx) as (o & Ho & _ & Hso).
      rewrite Hxm in Ho. assert (o = mo) as -> by congruence.
      apply String.eqb_eq in Hsd. done. }
  assert ((if negb buy then (- price mo, m) else (price mo, m)) = e) as Hkm.
  { rewrite Hkey. unfold key_of. by rewrite Hsd, Hsqm. }
  unfold fill. rewrite Hsd, Hsqm.
  destruct (0 <? _); destruct buy; simpl in *; rewrite ?Hkm; unfold tight;
    simpl.
  - split_and!; [done|by apply NoDup_heappush|].
    intros x [Hx|Hx]; [by apply Hreg; left|].
    apply elem_of_heappush in Hx as [->|Hx]; apply Hreg; right; rewrite Hq;
      [by left|by right].
  - split_and!; [by apply NoDup_heappush|done|].
    intros x [Hx|Hx]; [|by apply Hreg; right].
    apply elem_of_heappush in Hx as [->|Hx]; apply Hreg; left; rewrite Hq;
      [by left|by right].
  - split_and!; try done.
    intros x [Hx|Hx]; rewrite lookup_delete_ne.
    + apply Hreg. by left.
    + intros Hm. symmetry in Hm. by eapply Hown_m.
    + apply Hreg. right. rewrite Hq. by right.
    + intros Hm. symmetry in Hm. by eapply Hrest_m.
  - split_and!; try done.
    intros x [Hx|Hx]; rewrite lookup_delete_ne.
    + apply Hreg. left. rewrite Hq. by right.
    + intros Hm. symmetry in Hm. by eapply Hrest_m.
    + apply Hreg. by right.
    + intros Hm. symmetry in Hm. by eapply Hown_m.
Qed.

Lemma match_iter_tight buy tk s s' c :
  inv (Some tk) s → tight s → match_iter buy tk s = Ok (s', c) → tight s'.
Proof.
  intros Hi Ht H.
  apply match_iter_exec in H as (t & d & h & Htk & Hq & Hd & H);
    [|intros k; by apply inv_unregistered].
  pose proof (inv_drop _ _ _ _ _ Hi Hq Hd) as Hi1.
  pose proof (tight_drop _ _ _ _ Ht Hq) as Ht1.
  destruct c.
  - destruct H as (_ & e & rest & m & mo & -> & Hseq & Hmo & _ & _ & ->).
    rewrite <- (fill_set_opp _ _ _ _ _ _ (e :: rest)).
    eapply tight_fill; try done.
    + apply opp_queue_set_opp.
    + by destruct buy.
    + by destruct buy.
  - by destruct H as [-> _].
Qed.

Lemma tight_settle tk s t :
  inv (Some tk) s → tight s → store s !! tk = Some t →
  tight (settle tk (S tk) tk t s).
Proof.
  intros Hi (Hb & Ha & Hreg) Ht.
  destruct (inv_store _ _ Hi _ _ Ht) as (Hsq & _).
  destruct (inv_taker _ _ Hi tk eq_refl) as [_ Hnone].
  assert (∀ x : entry, x ∈ bids s ∨ x ∈ asks s → x.2 ≠ tk) as Hfresh.
  { intros x Hx Hxt. apply Hreg in Hx. rewrite Hxt in Hx. congruence. }
  assert (∀ x : entry, x ∈ bids s ∨ x ∈ asks s →
            <[tk := tk]> (_by_seq s) !! x.2 = Some x.2) as Hold.
  { intros x Hx. rewrite lookup_insert_ne by (apply not_eq_sym; by apply Hfresh).
    by apply Hreg. }
  unfold settle. rewrite Hsq.
  destruct (String.eqb (side t) "buy"); simpl.
  - split_and!; [|done|].
    + apply NoDup_heappush; [done|]. intros Hin.
      by apply (Hfresh (- price t, tk)); [left|].
    + intros x [Hx|Hx]; [|by apply Hold; right].
      apply elem_of_heappush in Hx as [->|Hx]; [|by apply Hold; left].
      simpl. apply lookup_insert_eq.
  - split_and!; [done| |].
    + apply NoDup_heappush; [done|]. intros Hin.
      by apply (Hfresh (price t, tk)); [right|].
    + intros x [Hx|Hx]; [by apply Hold; left|].
      apply elem_of_heappush in Hx as [->|Hx]; [|by apply Hold; right].
      simpl. apply lookup_insert_eq.
Qed.

Lemma tight_add_order sd p q s s' r :
  inv None s → tight s → add_order sd p q s = Ok (s', r) → tight s'.
Proof.
  intros Hi Ht H.
  destruct (Z_le_gt_dec q 0) as [Hq|Hq].
  { rewrite add_order_rejected in H by done. by simplify_eq. }
  apply Z.gt_lt in Hq.
  destruct (add_order_summary_loop _ _ _ _ _ _ Hi Hq H)
    as (s1 & t & new & Hloop & Hi1 & Hpg & Htk & Hend & _).
  assert (tight s1) as Ht1.
  { apply (match_loop_rule _ _ (λ x, inv (Some (length (store s))) x ∧ tight x))
      in Hloop; [by destruct Hloop| |].
    - intros x x' c [Hix Htx] Hiter.
      split; [by eapply match_iter_inv|by eapply match_iter_tight].
    - split; [by apply inv_alloc|done]. }
  destruct Hend as [(_ & _ & ->)|(_ & _ & ->)]; [|done].
  rewrite (inv_seq _ _ Hi), (inv_next_id _ _ Hi). by apply tight_settle.
Qed.

Lemma tight_peek_top sd s s' r : tight s → _peek_top sd s = Ok (s', r) → tight s'.
Proof.
  intros Ht H. unfold _peek_top in H.
  destruct (String.eqb sd "buy");
    apply bind_Ok in H as ([h r'] & Hpeek & H); simplify_eq;
    apply peek_loop_spec in Hpeek as (d & Hd & _).
  - by apply (tight_drop false _ d).
  - by apply (tight_drop true _ d).
Qed.

Lemma tight_run cs s s' ids :
  inv None s → tight s → run cs s = Ok (s', ids) → tight s'.
Proof.
  revert s s' ids. induction cs as [|c cs IH]; intros s s' ids Hi Ht H;
    simpl in H.
  { by simplify_eq. }
  apply bind_Ok in H as ([s1 x] & Hstep & H).
  apply bind_Ok in H as ([s2 xs] & Hrun & H). simplify_eq.
  pose proof (step_inv _ _ _ _ Hi Hstep) as Hi1.
  eapply IH; [done| |done].
  destruct c as [sd p q| |]; simpl in Hstep;
    apply bind_Ok in Hstep as ([s3 y] & Hcall & Hstep); simplify_eq.
  - exact (tight_add_order _ _ _ _ _ _ Hi Ht Hcall).
  - unfold best_bid in Hcall.
    apply bind_Ok in Hcall as ([s4 o] & Hpeek & Hcall).
    apply tight_peek_top in Hpeek; [|done].
    destruct o; [apply bind_Ok in Hcall as (? & _ & ?)|]; by simplify_eq.
  - unfold best_ask in Hcall.
    apply bind_Ok in Hcall as ([s4 o] & Hpeek & Hcall).
    apply tight_peek_top in Hpeek; [|done].
    destruct o; [apply bind_Ok in Hcall as (? & _ & ?)|]; by simplify_eq.
Qed.

Lemma reachable_tight s : reachable s → tight s.
Proof. intros (cs & ids & H). eapply tight_run; [apply inv_init|apply tight_init|done]. Qed.

Lemma tight_entry_resting s (e : entry) :
  inv None s → tight s → e ∈ bids s ∨ e ∈ asks s →
  ∃ o, resting s e.2 o ∧ e = key_of o.
Proof.
  intros Hi (_ & _ & Hreg) He. pose proof (Hreg _ He) as Hl.
  destruct (inv_by_seq _ _ Hi _ _ Hl) as (_ & o & Ho & Hpos & _).
  exists o. split; [by apply live_resting|].
  destruct He as [He|He].
  - destruct (inv_bids _ _ Hi _ He) as (o' & Ho' & ? & _). congruence.
  - destruct (inv_asks _ _ Hi _ He) as (o' & Ho' & ? & _). congruence.
Qed.

(** X7: in a reachable state the two queues hold the resting orders and
    nothing else: every entry of [bids] is [(-price, sequence)] of a resting
    buy order, every entry of [asks] is [(price, sequence)] of an order
    resting on the ask side, no entry occurs twice, and every resting order
    has its entry in its queue.  No entry is ever stale: an order is filled
    only after its entry has been popped. *)
Theorem queues_hold_resting_orders s :
  reachable s →
  (∀ e, e ∈ bids s →
     ∃ l o, resting s l o ∧ side o = "buy" ∧ e = (- price o, sequence o))
  ∧ (∀ e, e ∈ asks s →
       ∃ l o, resting s l o ∧ side o ≠ "buy" ∧ e = (price o, sequence o))
  ∧ NoDup (bids s) ∧ NoDup (asks s)
  ∧ (∀ l o, resting s l o →
       if String.eqb (side o) "buy" then (- price o, sequence o) ∈ bids s
       else (price o, sequence o) ∈ asks s).
Proof.
  intros Hr. pose proof (reachable_inv _ Hr) as Hi.
  pose proof (reachable_tight _ Hr) as Ht.
  split_and!; try apply Ht.
  - intros e He.
    destruct (tight_entry_resting s e Hi Ht (or_introl He)) as (o & Hrest & Hk).
    destruct (inv_bids _ _ Hi _ He) as (o' & Ho' & _ & Hs).
    assert (o' = o) as -> by (destruct Hrest; congruence).
    exists e.2, o. split_and!; try done.
    rewrite Hk. unfold key_of. by rewrite (proj2 (String.eqb_eq _ _) Hs).
  - intros e He.
    destruct (tight_entry_resting s e Hi Ht (or_intror He)) as (o & Hrest & Hk).
    destruct (inv_asks _ _ Hi _ He) as (o' & Ho' & _ & Hs).
    assert (o' = o) as -> by (destruct Hrest; congruence).
    exists e.2, o. split_and!; try done.
    rewrite Hk. unfold key_of. by rewrite (proj2 (String.eqb_neq _ _) Hs).
  - intros l o Hrest.
    destruct (resting_facts _ _ _ _ Hi Hrest) as (_ & _ & _ & _ & _ & Hin).
    unfold key_of, queue_of in Hin. by destruct (String.eqb (side o) "buy").
Qed.

Lemma no_tombstone s (e : entry) :
  inv None s → tight s → e ∈ bids s ∨ e ∈ asks s → ¬ tombstone s e.
Proof.
  intros Hi (_ & _ & Hreg) He Htomb. pose proof (Hreg _ He) as Hl.
  unfold tombstone in Htomb. rewrite Hl in Htomb.
  destruct Htomb as (o & Ho & Hle).
  destruct (inv_by_seq _ _ Hi _ _ Hl) as (_ & o' & Ho' & Hpos & _).
  assert (o' = o) as -> by congruence. lia.
Qed.

Lemma peek_top_unchanged sd s s' r :
  inv None s → tight s → _peek_top sd s = Ok (s', r) → s' = s.
Proof.
  intros Hi Ht H. unfold _peek_top in H.
  destruct (String.eqb sd "buy");
    apply bind_Ok in H as ([h r'] & Hpeek & H); simplify_eq;
    apply peek_loop_spec in Hpeek as (d & Hd & Hdrop & _);
    (destruct d as [|e d];
     [simpl in Hd; subst h; by destruct s|]);
    exfalso; apply Forall_cons in Hdrop as [Htomb _];
    apply (no_tombstone s e Hi Ht); [|done|  |done]; rewrite Hd; [left|right];
    by left.
Qed.

(** X8: in a reachable state [best_bid] and [best_ask] change nothing at
    all: the state after the call is the state before it.  The loop of
    [_peek_top] never finds an entry to discard. *)
Theorem reads_leave_state s s' r :
  reachable s → best_bid s = Ok (s', r) ∨ best_ask s = Ok (s', r) → s' = s.
Proof.
  intros Hr H. pose proof (reachable_inv _ Hr) as Hi.
  pose proof (reachable_tight _ Hr) as Ht.
  unfold best_bid, best_ask in H.
  destruct H as [H|H]; apply bind_Ok in H as ([s1 o] & Hpeek & H);
    apply peek_top_unchanged in Hpeek; try done; subst s1;
    (destruct o; [apply bind_Ok in H as (? & _ & H)|]); by simplify_eq.
Qed.

(** ** What a call returns, and the trade log *)


Lemma trade_wf_mono n n' t : (n ≤ n')%nat → trade_wf n t → trade_wf n' t.
Proof. unfold trade_wf. intros ? (? & ? & ? & ? & ?). split_and!; try done; lia. Qed.

Lemma trades_wf_add_order sd p q s s' r :
  inv None s → Forall (trade_wf (_next_order_id s)) (trades s) →
  add_order sd p q s = Ok (s', r) →
  Forall (trade_wf (_next_order_id s')) (trades s').
Proof.
  intros Hi Hwf H.
  destruct (Z_le_gt_dec q 0) as [Hq|Hq].
  { rewrite add_order_rejected in H by done. by simplify_eq. }
  apply Z.gt_lt in Hq.
  destruct (add_order_counters _ _ _ _ _ _ Hi Hq H) as (Hn & _).
  destruct (add_order_summary _ _ _ _ _ _ Hi Hq H)
    as (s1 & t & new & _ & Hpg & _ & _ & _ & Htr & _).
  rewrite Htr, Hn. apply Forall_app. split.
  - eapply Forall_impl; [exact Hwf|]. intros x. apply trade_wf_mono. lia.
  - eapply Forall_impl; [apply (pg_new _ _ _ _ _ _ Hpg)|].
    intros x Hx.
    apply trade_ok_resting in Hx as (l & o & Hrest & Hxe & _ & _ & Hxq); [|done].
    destruct (resting_facts _ _ _ _ Hi Hrest) as (_ & Hid & _ & _ & Hlt & _).
    rewrite (inv_next_id _ _ Hi) in Hxe |- *. unfold trade_wf.
    rewrite Hxe. simpl. split_and!; try lia.
    unfold side_name. destruct (String.eqb sd "buy"); auto.
Qed.

Lemma trades_wf_run cs s s' ids :
  inv None s → Forall (trade_wf (_next_order_id s)) (trades s) →
  run cs s = Ok (s', ids) →
  Forall (trade_wf (_next_order_id s')) (trades s').
Proof.
  revert s s' ids. induction cs as [|c cs IH]; intros s s' ids Hi Hwf H;
    simpl in H.
  { by simplify_eq. }
  apply bind_Ok in H as ([s1 x] & Hstep & H).
  apply bind_Ok in H as ([s2 xs] & Hrun & H). simplify_eq.
  pose proof (step_inv _ _ _ _ Hi Hstep) as Hi1.
  eapply IH; [done| |done].
  destruct c as [sd p q| |]; simpl in Hstep;
    apply bind_Ok in Hstep as ([s3 y] & Hcall & Hstep); simplify_eq.
  - exact (trades_wf_add_order _ _ _ _ _ _ Hi Hwf Hcall).
  - unfold best_bid in Hcall.
    apply bind_Ok in Hcall as ([s4 o] & Hpeek & Hcall).
    apply peek_top_frame in Hpeek as (_ & _ & _ & Htr & _ & Hn & _).
    assert (s1 = s4) as ->.
    { destruct o; [apply bind_Ok in Hcall as (? & _ & ?)|]; by simplify_eq. }
    by rewrite Htr, Hn.
  - unfold best_ask in Hcall.
    apply bind_Ok in Hcall as ([s4 o] & Hpeek & Hcall).
    apply peek_top_frame in Hpeek as (_ & _ & _ & Htr & _ & Hn & _).
    assert (s1 = s4) as ->.
    { destruct o; [apply bind_Ok in Hcall as (? & _ & ?)|]; by simplify_eq. }
    by rewrite Htr, Hn.
Qed.

(** X10: every record of the trade log of a reachable state has a positive
    quantity, a taker side that is ["buy"] or ["sell"], and the ids of two
    orders that have been created, the maker's id smaller than the taker's:
    an order never trades with itself, and the maker is always the older
    order. *)
Theorem trade_log_well_formed s t :
  reachable s → t ∈ trades s →
  0 < t_quantity t
  ∧ (1 ≤ maker_order_id t)%nat
  ∧ (maker_order_id t < taker_order_id t)%nat
  ∧ (taker_order_id t < _next_order_id s)%nat
  ∧ (taker_side t = "buy" ∨ taker_side t = "sell").
Proof.
  intros (cs & ids & Hrun) Hin.
  assert (Forall (trade_wf (_next_order_id s)) (trades s)) as Hwf.
  { eapply trades_wf_run; [apply inv_init| |done]. by constructor. }
  rewrite Forall_forall in Hwf. by apply Hwf.
Qed.

Lemma filled_member i pre t post :
  Forall (λ t, 0 < t_quantity t) (pre ++ t :: post) →
  participates i t = true →
  filled i pre + t_quantity t ≤ filled i (pre ++ t :: post).
Proof.
  intros Hall Hp. apply Forall_app in Hall as [_ Hall].
  apply Forall_cons in Hall as [_ Hpost].
  rewrite filled_app. simpl. rewrite Hp.
  pose proof (filled_nonneg i post Hpost). lia.
Qed.

(** X11: the trades of one call go through the book from the best price
    on: of two trades of the same call the earlier one is at a price that
    is at least as good for the taker, lower or equal for a buy and higher
    or equal for any other side. *)
Theorem trade_prices_in_order s sd p q s' r pre t1 mid t2 post :
  reachable s → add_order sd p q s = Ok (s', r) →
  trades s' = trades s ++ pre ++ t1 :: mid ++ t2 :: post →
  if String.eqb sd "buy" then t_price t1 ≤ t_price t2
  else t_price t2 ≤ t_price t1.
Proof.
  intros Hr H Hsplit. apply reachable_inv in Hr.
  destruct (Z_le_gt_dec q 0) as [Hq|Hq].
  { rewrite add_order_rejected in H by done. simplify_eq.
    rewrite <- (app_nil_r (trades s')) in Hsplit at 1.
    apply app_inv_head in Hsplit. by destruct pre. }
  apply Z.gt_lt in Hq.
  destruct (add_order_summary_loop _ _ _ _ _ _ Hr Hq H)
    as (s1 & tt & new & Hloop & Hi1 & Hpg & Ht & Hend & Hi' & Htr & Hst).
  eapply match_loop_queue_order in Hloop as (new' & Hpg' & Hqo);
    [|by apply inv_alloc| |reflexivity]; cycle 1.
  { unfold alloc. simpl. by apply list_lookup_middle. }
  simpl in Hpg'.
  assert (new' = new) as ->.
  { pose proof (pg_trades _ _ _ _ _ _ Hpg) as E1.
    pose proof (pg_trades _ _ _ _ _ _ Hpg') as E2.
    rewrite E1 in E2. by apply app_inv_head in E2. }
  rewrite Htr in Hsplit. apply app_inv_head in Hsplit.
  pose proof (pg_new _ _ _ _ _ _ Hpg) as Hnew.
  pose proof (trade_ok_quantity _ _ _ _ _ Hnew) as Hpos.
  rewrite Forall_forall in Hnew.
  destruct (Hnew t1) as (m1 & o1 & Hm1 & Ho1 & _ & Hsd1 & _ & _ & Ht1).
  { rewrite Hsplit. apply elem_of_app. right. by left. }
  destruct (Hnew t2) as (m2 & o2 & Hm2 & Ho2 & _ & Hsd2 & _ & Hq2 & Ht2).
  { rewrite Hsplit. apply elem_of_app. right. right.
    apply elem_of_app. right. by left. }
  assert (t_price t1 = price o1) as -> by by rewrite Ht1.
  assert (t_price t2 = price o2) as -> by by rewrite Ht2.
  destruct (decide (entry_le (key_of o1) (key_of o2))) as [Hle|Hnle].
  { unfold key_of, entry_le in Hle. rewrite Hsd1, Hsd2 in Hle.
    destruct (String.eqb sd "buy"); simpl in Hle; lia. }
  exfalso.
  assert (filled (S m2) pre = quantity o2) as Hfull.
  { eapply (Hqo m2 m1 o2 o1 pre t1 (mid ++ t2 :: post)); try done.
    by rewrite Ht1. }
  assert (participates (S m2) t2 = true) as Hp2.
  { rewrite Ht2. unfold participates. simpl. by rewrite Nat.eqb_refl. }
  assert (filled (S m2) pre + t_quantity t2 ≤ filled (S m2) new) as Hbig.
  { rewrite Hsplit.
    change (pre ++ t1 :: mid ++ t2 :: post)
      with (pre ++ (t1 :: mid) ++ t2 :: post).
    rewrite app_assoc. rewrite Hsplit in Hpos.
    change (pre ++ t1 :: mid ++ t2 :: post)
      with (pre ++ (t1 :: mid) ++ t2 :: post) in Hpos.
    rewrite app_assoc in Hpos.
    pose proof (filled_member (S m2) _ _ _ Hpos Hp2) as Hmem.
    rewrite filled_app in Hmem.
    apply Forall_app in Hpos as [Hpos _]. apply Forall_app in Hpos as [_ Hpos].
    pose proof (filled_nonneg (S m2) _ Hpos). lia. }
  destruct (pg_store _ _ _ _ _ _ Hpg _ _ Ho2) as (o2' & Ho2' & _ & _ & _ & _ & Hqty).
  destruct (inv_store _ _ Hi1 _ _ Ho2') as (_ & _ & Hge). lia.
Qed.

(** ** The further properties on concrete books *)

Lemma best_bid_is_highest_witness :
  ∃ l o, resting (state_after one_bid) l o ∧ side o = "buy"
    ∧ price o = 100 ∧ quantity o = 5
    ∧ ∀ l' o', resting (state_after one_bid) l' o' → side o' = "buy" →
        price o' ≤ 100 ∧ (price o' = 100 → (sequence o ≤ sequence o')%nat).
Proof.
  apply (best_bid_is_highest (state_after one_bid) (state_after one_bid)
           (Some (100, 5))).
  - apply reachable_state_after. do 2 eexists. vm_compute. reflexivity.
  - vm_compute. reflexivity.
Defined.

Lemma best_ask_is_lowest_witness :
  ∃ l o, resting (state_after two_levels) l o ∧ side o ≠ "buy"
    ∧ price o = 99 ∧ quantity o = 4
    ∧ ∀ l' o', resting (state_after two_levels) l' o' → side o' ≠ "buy" →
        99 ≤ price o' ∧ (price o' = 99 → (sequence o ≤ sequence o')%nat).
Proof.
  apply (best_ask_is_lowest (state_after two_levels) (state_after two_levels)
           (Some (99, 4))).
  - apply reachable_state_after. do 2 eexists. vm_compute. reflexivity.
  - vm_compute. reflexivity.
Defined.

(** A buy for 5 at 101 takes the ask at 99 whole before it touches the
    older ask at 100. *)
Lemma queue_order_priority_witness :
  filled 2 [mkTrade 99 4 "buy" 2 3] = 4.
Proof.
  apply (queue_order_priority (state_after two_levels) "buy" 101 5
           (state_after (two_levels ++ [AddOrder "buy" 101 5])) 0%nat
           1%nat 0%nat (mkOrder 2 "sell" 99 4 1) (mkOrder 1 "sell" 100 3 0)
           [mkTrade 99 4 "buy" 2 3] (mkTrade 100 1 "buy" 1 3) []).
  - apply reachable_state_after. do 2 eexists. vm_compute. reflexivity.
  - vm_compute. reflexivity.
  - unfold resting. split_and!; vm_compute; reflexivity.
  - unfold resting. split_and!; vm_compute; reflexivity.
  - reflexivity.
  - left. simpl. lia.
  - vm_compute. reflexivity.
  - reflexivity.
Defined.

Lemma book_never_crossed_witness : 90 < 95.
Proof.
  apply (book_never_crossed (state_after bid_and_ask)
           0%nat (mkOrder 1 "buy" 90 5 0) 1%nat (mkOrder 2 "sell" 95 5 1)).
  - apply reachable_state_after. do 2 eexists. vm_compute. reflexivity.
  - unfold resting. split_and!; vm_compute; reflexivity.
  - unfold resting. split_and!; vm_compute; reflexivity.
  - reflexivity.
  - discriminate.
Defined.

Lemma best_bid_below_best_ask_witness : 90 < 95.
Proof.
  apply (best_bid_below_best_ask (state_after bid_and_ask)
           (state_after bid_and_ask) (state_after bid_and_ask) 90 5 95 5).
  - apply reachable_state_after. do 2 eexists. vm_compute. reflexivity.
  - vm_compute. reflexivity.
  - vm_compute. reflexivity.
Defined.

Lemma queues_hold_resting_orders_witness :
  (∀ e, e ∈ bids (state_after bid_and_ask) →
     ∃ l o, resting (state_after bid_and_ask) l o ∧ side o = "buy"
       ∧ e = (- price o, sequence o))
  ∧ (∀ e, e ∈ asks (state_after bid_and_ask) →
       ∃ l o, resting (state_after bid_and_ask) l o ∧ side o ≠ "buy"
         ∧ e = (price o, sequence o))
  ∧ NoDup (bids (state_after bid_and_ask))
  ∧ NoDup (asks (state_after bid_and_ask))
  ∧ (∀ l o, resting (state_after bid_and_ask) l o →
       if String.eqb (side o) "buy"
       then (- price o, sequence o) ∈ bids (state_after bid_and_ask)
       else (price o, sequence o) ∈ asks (state_after bid_and_ask)).
Proof.
  apply (queues_hold_resting_orders (state_after bid_and_ask)).
  apply reachable_state_after. do 2 eexists. vm_compute. reflexivity.
Defined.

Lemma reads_leave_state_witness :
  state_after bid_and_ask = state_after bid_and_ask.
Proof.
  apply (reads_leave_state (state_after bid_and_ask)
           (state_after bid_and_ask) (Some (95, 5))).
  - apply reachable_state_after. do 2 eexists. vm_compute. reflexivity.
  - right. vm_compute. reflexivity.
Defined.


Lemma trade_log_well_formed_witness :
  0 < t_quantity (mkTrade 100 3 "buy" 1 3)
  ∧ (1 ≤ maker_order_id (mkTrade 100 3 "buy" 1 3))%nat
  ∧ (maker_order_id (mkTrade 100 3 "buy" 1 3)
     < taker_order_id (mkTrade 100 3 "buy" 1 3))%nat
  ∧ (taker_order_id (mkTrade 100 3 "buy" 1 3)
     < _next_order_id (state_after (two_asks ++ [AddOrder "buy" 101 5])))%nat
  ∧ (taker_side (mkTrade 100 3 "buy" 1 3) = "buy"
     ∨ taker_side (mkTrade 100 3 "buy" 1 3) = "sell").
Proof.
  apply (trade_log_well_formed
           (state_after (two_asks ++ [AddOrder "buy" 101 5]))
           (mkTrade 100 3 "buy" 1 3)).
  - apply reachable_state_after. do 2 eexists. vm_compute. reflexivity.
  - replace (trades (state_after (two_asks ++ [AddOrder "buy" 101 5])))
      with [mkTrade 100 3 "buy" 1 3; mkTrade 100 2 "buy" 2 3]
      by (vm_compute; reflexivity).
    by left.
Defined.

Lemma trade_prices_in_order_witness :
  t_price (mkTrade 99 4 "buy" 2 3) ≤ t_price (mkTrade 100 1 "buy" 1 3).
Proof.
  apply (trade_prices_in_order (state_after two_levels) "buy" 101 5
           (state_after (two_levels ++ [AddOrder "buy" 101 5])) 0%nat
           [] (mkTrade 99 4 "buy" 2 3) [] (mkTrade 100 1 "buy" 1 3) []).
  - apply reachable_state_after. do 2 eexists. vm_compute. reflexivity.
  - vm_compute. reflexivity.
  - vm_compute. reflexivity.
Defined.

(** * The hash table: [_next_pow2] *)

Lemma next_pow2_loop_spec n fuel j :
  0 ≤ j → (j = 0 ∨ 2 ^ (j - 1) < n) →
  (Z.to_nat (Z.log2_up n - j) < fuel)%nat ∨ (n ≤ 2 ^ j ∧ (0 < fuel)%nat) →
  ∃ k, next_pow2_loop fuel (2 ^ j) n = Ret (2 ^ k)
       ∧ j ≤ k ∧ n ≤ 2 ^ k ∧ (k = 0 ∨ 2 ^ (k - 1) < n).
Proof.
  revert j. induction fuel as [|fuel IH]; intros j Hj Hlow Hfuel.
  { destruct Hfuel as [?|[_ ?]]; lia. }
  simpl. destruct (2 ^ j <? n) eqn:Hlt.
  - apply Z.ltb_lt in Hlt.
    assert (j < Z.log2_up n) as Hjl.
    { destruct (Z_lt_le_dec j (Z.log2_up n)) as [?|Hge]; [done|].
      assert (0 < n) as Hn by (pose proof (Z.pow_pos_nonneg 2 j); lia).
      pose proof (Z.log2_up_spec n) as Hs.
      destruct (Z_le_gt_dec n 1) as [Hn1|Hn1].
      - pose proof (Z.pow_pos_nonneg 2 j). lia.
      - specialize (Hs ltac:(lia)).
        pose proof (Z.pow_le_mono_r 2 (Z.log2_up n) j). lia. }
    rewrite Z.shiftl_mul_pow2 by lia.
    replace (2 ^ j * 2 ^ 1) with (2 ^ (j + 1)) by (rewrite Z.pow_add_r; lia).
    destruct (IH (j + 1)) as (k & Hk & ? & ? & ?).
    + lia.
    + right. by replace (j + 1 - 1) with j by lia.
    + left. destruct Hfuel as [Hf|[Hle _]]; lia.
    + exists k. split_and!; try done; lia.
  - apply Z.ltb_ge in Hlt. exists j. split_and!; try done; lia.
Qed.

(** X12: [_next_pow2 n] returns the smallest power of two that is not
    below [n]: 1 when [n <= 1], and otherwise a power of two [c] with
    [n <= c < 2 * n]. *)
Theorem next_pow2_smallest n :
  ∃ k, _next_pow2 n = Ret (2 ^ k) ∧ 0 ≤ k ∧ n ≤ 2 ^ k
       ∧ (n ≤ 1 → k = 0) ∧ (1 < n → 2 ^ k < 2 * n).
Proof.
  unfold _next_pow2.
  destruct (next_pow2_loop_spec n (S (Z.to_nat (Z.log2_up n))) 0)
    as (k & Hk & Hge & Hle & Hmin); [done|by left|left; lia|].
  exists k. split_and!; try done.
  - intros Hn. destruct Hmin as [?|Hmin]; [done|].
    destruct (Z_le_gt_dec k 0) as [?|Hk0]; [lia|].
    pose proof (Z.pow_pos_nonneg 2 (k - 1)). lia.
  - intros Hn. destruct Hmin as [->|Hmin]; [simpl; lia|].
    destruct (Z_le_gt_dec k 0) as [?|Hk0].
    + assert (k = 0) as -> by lia. simpl. lia.
    + replace k with (k - 1 + 1) by lia. rewrite Z.pow_add_r by lia. lia.
Qed.

(** * The maze *)

(** ** [neighbors] *)

Lemma elem_of_neighbors a rows cols b :
  b ∈ neighbors a rows cols ↔
    0 ≤ b.1 < rows ∧ 0 ≤ b.2 < cols ∧ Z.abs (b.1 - a.1) + Z.abs (b.2 - a.2) = 1.
Proof.
  destruct a as [r c], b as [nr nc]. unfold neighbors. cbn [fst snd].
  rewrite list_elem_of_omap. split.
  - intros ([dr dc] & Hin & Hd).
    destruct (_ && _) eqn:Hb; [|done]. injection Hd as <- <-.
    repeat (apply andb_true_iff in Hb as [Hb ?]).
    repeat (apply elem_of_cons in Hin as [[= -> ->]|Hin]); try lia.
    by apply elem_of_nil in Hin.
  - intros (Hr & Hc & Hd).
    exists (nr - r, nc - c). split.
    + assert ((nr - r = 1 ∧ nc - c = 0) ∨ (nr - r = -1 ∧ nc - c = 0)
              ∨ (nr - r = 0 ∧ nc - c = 1) ∨ (nr - r = 0 ∧ nc - c = -1))
        as [[-> ->]|[[-> ->]|[[-> ->]|[-> ->]]]] by lia;
        repeat first [by left|right].
    + replace (r + (nr - r)) with nr by lia.
      replace (c + (nc - c)) with nc by lia.
      assert ((0 <=? nr) && (nr <? rows) && (0 <=? nc) && (nc <? cols) = true)
        as ->; [|done].
      repeat (apply andb_true_iff; split); lia.
Qed.

(** X13: [neighbors (r, c) rows cols] yields exactly the cells of the grid
    that are one step up, down, left or right of [(r, c)], each once. *)
Theorem neighbors_adjacent r c rows cols nr nc :
  ((nr, nc) ∈ neighbors (r, c) rows cols ↔
     0 ≤ nr < rows ∧ 0 ≤ nc < cols ∧ Z.abs (nr - r) + Z.abs (nc - c) = 1)
  ∧ NoDup (neighbors (r, c) rows cols).
Proof.
  split; [apply (elem_of_neighbors (r, c) rows cols (nr, nc))|].
  unfold neighbors. simpl.
  repeat match goal with
  | |- context [if ?b then _ else _] => destruct b
  end; repeat constructor; rewrite ?elem_of_cons, ?elem_of_nil;
    intros H; repeat destruct H as [H|H]; try done;
    injection H; lia.
Qed.

(** ** The two searches *)

Lemma popleft_spec l :
  match popleft l with
  | None => l = []
  | Some (x, r) => l ≡ₚ x :: r
  end.
Proof. destruct l; simpl; done. Qed.

Lemma pop_spec l :
  match pop l with
  | None => l = []
  | Some (x, r) => l ≡ₚ x :: r
  end.
Proof.
  unfold pop. destruct (reverse l) as [|x r] eqn:Hr.
  - apply (f_equal reverse) in Hr. by rewrite reverse_involutive in Hr.
  - apply (f_equal reverse) in Hr.
    rewrite reverse_involutive, reverse_cons in Hr. subst l.
    by rewrite Permutation_app_comm.
Qed.

(** *** Chains of parents *)

Lemma chain_last parent c l : chain parent c l → last l = Some c.
Proof. destruct 1; [done|apply last_snoc]. Qed.

Lemma chain_insert parent c l n v :
  parent !! n = None → chain parent c l → chain (<[n := v]> parent) c l.
Proof.
  intros Hn. induction 1 as [c Hc|c p l Hc _ IH].
  - apply chain_root. rewrite lookup_insert_ne; [done|congruence].
  - eapply chain_step; [|done]. rewrite lookup_insert_ne; [done|congruence].
Qed.

Lemma create_path_loop_chain parent c l :
  chain parent c l →
  ∀ fuel path, (length l ≤ fuel)%nat →
    create_path_loop fuel (Some c) parent path = Ret (l ++ reverse path).
Proof.
  induction 1 as [c Hc|c p l Hc _ IH]; intros fuel path Hlen.
  - destruct fuel as [|fuel]; [simpl in Hlen; lia|].
    simpl. rewrite Hc. destruct fuel; simpl; by rewrite reverse_snoc.
  - destruct fuel as [|fuel]; [rewrite length_app in Hlen; simpl in Hlen; lia|].
    simpl. rewrite Hc. rewrite IH.
    + by rewrite reverse_snoc, <-app_assoc.
    + rewrite length_app in Hlen. simpl in Hlen. lia.
Qed.

Lemma NoDup_length_size (l : list (Z * Z)) (X : gset (Z * Z)) :
  NoDup l → (∀ x, x ∈ l → x ∈ X) → (length l ≤ size X)%nat.
Proof.
  intros Hnd Hsub. rewrite <-(size_list_to_set (C := gset (Z * Z)) l) by done.
  apply subseteq_size. intros x Hx. apply Hsub. by apply elem_of_list_to_set in Hx.
Qed.

(** *** Walks *)

Lemma walk_snoc R l a b :
  walk R l → last l = Some a → R a b → walk R (l ++ [b]).
Proof.
  induction l as [|x l IH]; [done|]. intros Hw Hl HR.
  destruct l as [|y l].
  - simpl in *. by injection Hl as ->.
  - destruct Hw as [Hxy Hw]. simpl. split; [done|]. by apply IH.
Qed.

Lemma walk_rtc R l a b :
  walk R l → head l = Some a → last l = Some b → rtc R a b.
Proof.
  revert a. induction l as [|x l IH]; [done|]. intros a Hw [= ->] Hl.
  destruct l as [|y l].
  - simpl in Hl. injection Hl as ->. apply rtc_refl.
  - destruct Hw as [Hxy Hw]. eapply rtc_l; [done|]. by apply IH.
Qed.

Lemma rtc_walk R a b :
  rtc R a b → ∃ l, walk R l ∧ head l = Some a ∧ last l = Some b.
Proof.
  induction 1 as [a|a b c Hab _ (l & Hw & Hh & Hl)].
  - by exists [a].
  - exists (a :: l). destruct l as [|x l]; [done|].
    injection Hh as ->. by split_and!.
Qed.

(** *** The containers of a search *)

Lemma sinv_init grid rows cols start goal :
  sinv grid rows cols start goal None (mkSearch [start] {[start]} {[start := None]}).
Proof.
  split; simpl.
  - intros c. rewrite elem_of_singleton. split.
    + intros ->. by rewrite lookup_singleton_eq.
    + intros [v Hv]. by apply lookup_singleton_Some in Hv as [<- _].
  - intros c. rewrite list_elem_of_singleton, elem_of_singleton. done.
  - apply NoDup_singleton.
  - by apply elem_of_singleton.
  - intros c ->%elem_of_singleton. exists [start]. split_and!; try done.
    + apply chain_root. by rewrite lookup_singleton_eq.
    + apply NoDup_singleton.
    + intros x ->%list_elem_of_singleton. by apply elem_of_singleton.
  - intros c ->%elem_of_singleton. by left.
  - intros c ->%elem_of_singleton Hc. destruct Hc. by apply list_elem_of_singleton.
  - done.
Qed.

Lemma size_list_to_set_le (l : list (Z * Z)) :
  (size (list_to_set (C := gset (Z * Z)) l) ≤ length l)%nat.
Proof.
  induction l as [|x l IH].
  - by rewrite list_to_set_nil, size_empty.
  - rewrite list_to_set_cons.
    pose proof (size_union_alt (C := gset (Z * Z)) {[x]} (list_to_set l)) as Hu.
    rewrite size_singleton in Hu.
    assert (size (list_to_set (C := gset (Z * Z)) l ∖ {[x]})
            ≤ size (list_to_set (C := gset (Z * Z)) l))%nat
      by apply subseteq_size, (subseteq_difference_l _ _ _ (reflexivity _)).
    simpl length. lia.
Qed.

Lemma box_size (X : gset (Z * Z)) rows cols start :
  (∀ c, c ∈ X → c = start ∨ (0 ≤ c.1 < rows ∧ 0 ≤ c.2 < cols)) →
  (size X ≤ S (Z.to_nat rows * Z.to_nat cols))%nat.
Proof.
  intros Hbox.
  set (cells := list_prod (seqZ 0 rows) (seqZ 0 cols)).
  assert (X ⊆ {[start]} ∪ list_to_set cells) as Hsub.
  { intros c Hc. apply elem_of_union.
    destruct (Hbox c Hc) as [->|[Hr Hcol]]; [left; by apply elem_of_singleton|].
    right. apply elem_of_list_to_set, list_elem_of_In.
    destruct c as [r c]. apply in_prod; apply list_elem_of_In, elem_of_seqZ;
      simpl in *; lia. }
  apply subseteq_size in Hsub.
  pose proof (size_union_alt (C := gset (Z * Z)) {[start]} (list_to_set cells)) as Hu.
  pose proof (size_list_to_set_le cells) as Hle.
  assert (size (list_to_set (C := gset (Z * Z)) cells ∖ {[start]})
          ≤ size (list_to_set (C := gset (Z * Z)) cells))%nat
    by apply subseteq_size, (subseteq_difference_l _ _ _ (reflexivity _)).
  rewrite size_singleton in Hu. unfold cells in *.
  rewrite length_prod, !length_seqZ in Hle. lia.
Qed.

Lemma sinv_size grid rows cols start goal cur st :
  sinv grid rows cols start goal cur st →
  (size (visited st) ≤ S (Z.to_nat rows * Z.to_nat cols))%nat.
Proof. intros Hi. eapply box_size, si_box, Hi. Qed.

Lemma visit_inv grid rows cols start goal cur st n st' :
  sinv grid rows cols start goal (Some cur) st →
  n ∈ neighbors cur rows cols →
  visit grid cur st n = Ret st' →
  sinv grid rows cols start goal (Some cur) st'
  ∧ visited st ⊆ visited st'
  ∧ (grid_at grid n = Ret 1 → n ∈ visited st')
  ∧ (length (pending st') + size (visited st)
     = length (pending st) + size (visited st'))%nat.
Proof.
  intros Hi Hn. unfold visit. case_bool_decide as Hv.
  { intros [= <-]. by split_and!. }
  destruct (grid_at grid n) as [v|e] eqn:Hg; [|done]. simpl.
  destruct (v =? 1) eqn:Hv1; intros [= <-].
  { apply Z.eqb_eq in Hv1 as ->.
    destruct Hi as [si_dom0 si_pend0 si_nodup0 si_start0 si_chain0 si_box0
                      si_done0 si_cur0].
    assert (parent st !! n = None) as Hpn.
    { apply eq_None_not_Some. intros Hs. by apply si_dom0 in Hs. }
    destruct (si_cur0 cur eq_refl) as (Hcv & Hcp & Hcg).
    split_and!; simpl.
    - split; simpl.
      + intros c. rewrite elem_of_union, elem_of_singleton, si_dom0.
        destruct (decide (c = n)) as [->|Hne].
        * rewrite lookup_insert_eq. split; [by eexists|by left].
        * rewrite lookup_insert_ne by done. split; [by intros [?|?]|by right].
      + intros c. rewrite elem_of_app, list_elem_of_singleton, elem_of_union,
          elem_of_singleton. intros [Hc| ->]; [right; by apply si_pend0|by left].
      + apply NoDup_app. split_and!; [done| |apply NoDup_singleton].
        intros c Hc ->%list_elem_of_singleton. by apply Hv, si_pend0.
      + apply elem_of_union. by right.
      + intros c [->%elem_of_singleton|Hc]%elem_of_union.
        * destruct (si_chain0 cur Hcv) as (l & Hch & Hh & Hnd & Hsub & Hw).
          exists (l ++ [n]). split_and!.
          -- eapply chain_step; [by rewrite lookup_insert_eq|by apply chain_insert].
          -- destruct l; [done|]. done.
          -- apply NoDup_app. split_and!; [done| |apply NoDup_singleton].
             intros c Hc ->%list_elem_of_singleton. by apply Hv, Hsub.
          -- intros x [Hx| ->%list_elem_of_singleton]%elem_of_app;
               apply elem_of_union; [right; by apply Hsub|left; by apply elem_of_singleton].
          -- eapply walk_snoc; [done|by eapply chain_last|done].
        * destruct (si_chain0 c Hc) as (l & Hch & Hh & Hnd & Hsub & Hw).
          exists l. split_and!; try done.
          -- by apply chain_insert.
          -- intros x Hx. apply elem_of_union. right. by apply Hsub.
      + intros c [->%elem_of_singleton|Hc]%elem_of_union; [|by apply si_box0].
        right. apply elem_of_neighbors in Hn. lia.
      + intros c [->%elem_of_singleton|Hc]%elem_of_union Hcp' Hcc.
        * destruct Hcp'. apply elem_of_app. right. by apply list_elem_of_singleton.
        * destruct (si_done0 c Hc) as [Hg' Hcl]; [|done|].
          { intros Hp. apply Hcp'. apply elem_of_app. by left. }
          split; [done|]. intros m Hm. apply elem_of_union. right. by apply Hcl.
      + intros c [= <-]. split_and!; [apply elem_of_union; by right| |done].
        intros [Hc| ->%list_elem_of_singleton]%elem_of_app; [done|by apply Hv].
    - apply union_subseteq_r.
    - intros _. apply elem_of_union. left. by apply elem_of_singleton.
    - rewrite length_app, size_union, size_singleton; [simpl; lia|].
      intros x ->%elem_of_singleton. done. }
  split_and!; try done. intros [= ->]. done.
Qed.

Lemma for_neighbors_inv grid rows cols start goal cur ns st st' :
  sinv grid rows cols start goal (Some cur) st →
  (∀ n, n ∈ ns → n ∈ neighbors cur rows cols) →
  for_neighbors grid cur st ns = Ret st' →
  sinv grid rows cols start goal (Some cur) st'
  ∧ visited st ⊆ visited st'
  ∧ (∀ n, n ∈ ns → grid_at grid n = Ret 1 → n ∈ visited st')
  ∧ (length (pending st') + size (visited st)
     = length (pending st) + size (visited st'))%nat.
Proof.
  revert st. induction ns as [|n ns IH]; intros st Hi Hns; simpl.
  { intros [= <-]. split_and!; try done. intros n Hn. by apply elem_of_nil in Hn. }
  destruct (visit grid cur st n) as [st1|e] eqn:Hv; [|done]. simpl. intros Hf.
  destruct (visit_inv _ _ _ _ _ _ _ _ _ Hi (Hns n ltac:(left)) Hv)
    as (Hi1 & Hsub1 & Hn1 & Hc1).
  destruct (IH st1 Hi1 (λ m Hm, Hns m ltac:(by right)) Hf)
    as (Hi' & Hsub' & Hn' & Hc').
  split_and!; [done|by etrans| |lia].
  intros m [->|Hm]%elem_of_cons Hg; [by apply Hsub', Hn1|by apply Hn'].
Qed.

Lemma sinv_take grid rows cols start goal st cur rest :
  sinv grid rows cols start goal None st →
  pending st ≡ₚ cur :: rest → cur ≠ goal →
  sinv grid rows cols start goal (Some cur)
       (mkSearch rest (visited st) (parent st)).
Proof.
  intros [Hdom Hpend Hnd Hstart Hchain Hbox Hdone _] Hperm Hcur.
  rewrite Hperm in Hnd. apply NoDup_cons in Hnd as [Hcr Hnd].
  split; simpl; try done.
  - intros c Hc. apply Hpend. rewrite Hperm. by right.
  - intros c Hc Hcr' Hcc. apply Hdone; [done| |done].
    rewrite Hperm. intros [->|?]%elem_of_cons; [by destruct Hcc|done].
  - intros c [= <-]. split_and!; [|done|done].
    apply Hpend. rewrite Hperm. by left.
Qed.

Lemma sinv_close grid rows cols start goal st cur :
  sinv grid rows cols start goal (Some cur) st →
  (∀ n, n ∈ neighbors cur rows cols → grid_at grid n = Ret 1 → n ∈ visited st) →
  sinv grid rows cols start goal None st.
Proof.
  intros [Hdom Hpend Hnd Hstart Hchain Hbox Hdone Hc] Hcl.
  split; try done.
  intros c Hcv Hcp _. destruct (decide (c = cur)) as [->|Hne].
  - destruct (Hc cur eq_refl) as (_ & _ & Hg). split; [done|].
    intros n [Hn Hg1]. by apply Hcl.
  - apply Hdone; [done|done|congruence].
Qed.

Lemma create_path_chain grid rows cols start goal cur st c :
  sinv grid rows cols start goal cur st → c ∈ visited st →
  ∃ l, _create_path c (parent st) = Ret l ∧ chain (parent st) c l
       ∧ head l = Some start ∧ last l = Some c ∧ NoDup l
       ∧ walk (move grid rows cols) l.
Proof.
  intros Hi Hc. destruct (si_chain _ _ _ _ _ _ _ Hi c Hc)
    as (l & Hch & Hh & Hnd & Hsub & Hw).
  exists l. split_and!; try done; [|by eapply chain_last].
  unfold _create_path. rewrite (create_path_loop_chain _ _ _ Hch).
  - by rewrite reverse_nil, app_nil_r.
  - rewrite <-size_dom. etrans; [|apply Nat.le_succ_diag_r].
    apply NoDup_length_size; [done|]. intros x Hx.
    apply elem_of_dom, (si_dom _ _ _ _ _ _ _ Hi), Hsub, Hx.
Qed.

Section search_facts.
Variable take : list (Z * Z) → option ((Z * Z) * list (Z * Z)).
Hypothesis take_spec : ∀ l,
  match take l with
  | None => l = []
  | Some (x, r) => l ≡ₚ x :: r
  end.
Variables (grid : list (list Z)) (rows cols : Z) (start goal : Z * Z).

Lemma search_loop_sound fuel st path :
  sinv grid rows cols start goal None st →
  search_loop take fuel grid rows cols goal st = Ret path →
  (path = [] ∧ ¬ rtc (move grid rows cols) start goal)
  ∨ (head path = Some start ∧ last path = Some goal ∧ NoDup path
     ∧ walk (move grid rows cols) path).
Proof.
  revert st. induction fuel as [|fuel IH]; intros st Hi; [done|]. simpl.
  pose proof (take_spec (pending st)) as Ht.
  destruct (take (pending st)) as [[cur rest]|].
  - case_bool_decide as Hcg.
    + subst cur. intros Hp. right.
      destruct (create_path_chain _ _ _ _ _ _ _ goal Hi) as (l & Hl & _ & ?).
      { apply (si_pend _ _ _ _ _ _ _ Hi). rewrite Ht. by left. }
      rewrite Hl in Hp. by injection Hp as <-.
    + pose proof (sinv_take _ _ _ _ _ _ _ _ Hi Ht Hcg) as Hi0.
      destruct (for_neighbors _ _ _ _) as [st'|e] eqn:Hf; [|done]. simpl.
      destruct (for_neighbors_inv _ _ _ _ _ _ _ _ _ Hi0 (λ n Hn, Hn) Hf)
        as (Hi' & _ & Hcl & _).
      apply IH. by eapply sinv_close.
  - intros [= <-]. left. split; [done|]. intros Hr.
    assert (∀ x, rtc (move grid rows cols) start x → x ∈ visited st) as Hall.
    { apply rtc_ind_r.
      - apply (si_start _ _ _ _ _ _ _ Hi).
      - intros y z _ Hyz IHy.
        destruct (si_done _ _ _ _ _ _ _ Hi y IHy) as [_ Hcl]; [|done|by apply Hcl].
        rewrite Ht. apply not_elem_of_nil. }
    destruct (si_done _ _ _ _ _ _ _ Hi goal (Hall goal Hr)) as [Hg _]; [|done|done].
    rewrite Ht. apply not_elem_of_nil.
Qed.

Hypothesis grid_total : ∀ n,
  0 ≤ n.1 < rows → 0 ≤ n.2 < cols → ∃ v, grid_at grid n = Ret v.

Lemma visit_returns cur st n :
  n ∈ neighbors cur rows cols → ∃ st', visit grid cur st n = Ret st'.
Proof.
  intros Hn%elem_of_neighbors. unfold visit.
  case_bool_decide; [by eexists|].
  destruct (grid_total n) as [v ->]; [lia|lia|]. simpl.
  destruct (v =? 1); by eexists.
Qed.

Lemma for_neighbors_returns cur ns st :
  (∀ n, n ∈ ns → n ∈ neighbors cur rows cols) →
  ∃ st', for_neighbors grid cur st ns = Ret st'.
Proof.
  revert st. induction ns as [|n ns IH]; intros st Hns; simpl; [by eexists|].
  destruct (visit_returns cur st n) as [st1 ->]; [apply Hns; by left|]. simpl.
  apply IH. intros m Hm. apply Hns. by right.
Qed.

Lemma search_loop_returns fuel st :
  sinv grid rows cols start goal None st →
  (turns_left rows cols st < fuel)%nat →
  ∃ path, search_loop take fuel grid rows cols goal st = Ret path.
Proof.
  revert st. induction fuel as [|fuel IH]; intros st Hi Hfuel; [lia|]. simpl.
  pose proof (take_spec (pending st)) as Ht.
  destruct (take (pending st)) as [[cur rest]|]; [|by eexists].
  case_bool_decide as Hcg.
  - subst cur. destruct (create_path_chain _ _ _ _ _ _ _ goal Hi) as (l & Hl & ?).
    { apply (si_pend _ _ _ _ _ _ _ Hi). rewrite Ht. by left. }
    by exists l.
  - pose proof (sinv_take _ _ _ _ _ _ _ _ Hi Ht Hcg) as Hi0.
    destruct (for_neighbors_returns cur (neighbors cur rows cols)
                (mkSearch rest (visited st) (parent st))) as [st' Hf]; [done|].
    rewrite Hf. simpl.
    destruct (for_neighbors_inv _ _ _ _ _ _ _ _ _ Hi0 (λ n Hn, Hn) Hf)
      as (Hi' & Hsub & Hcl & Hcount).
    apply IH; [by eapply sinv_close|].
    pose proof (sinv_size _ _ _ _ _ _ _ Hi') as Hb.
    apply subseteq_size in Hsub. simpl in Hsub, Hcount.
    apply Permutation_length in Ht. simpl in Ht.
    unfold turns_left in *. lia.
Qed.
End search_facts.

Lemma maze_problem_unfold take grid row0 start goal :
  grid !! 0%nat = Some row0 →
  maze_problem take grid start goal =
    if (start.1 >? rows_of grid) || (goal.1 >? rows_of grid)
       || (start.2 >? cols_of grid) || (goal.2 >? cols_of grid)
    then Raise ValueError
    else search_loop take (S (S (length grid * length row0))) grid
           (rows_of grid) (cols_of grid) goal
           (mkSearch [start] {[start]} {[start := None]}).
Proof.
  intros H0. unfold maze_problem, getitem, rows_of, cols_of.
  change (0 <? 0) with false. cbv iota. change (Z.to_nat 0) with 0%nat.
  rewrite H0. reflexivity.
Qed.

Lemma maze_problem_sound take grid start goal path :
  (∀ l, match take l with
        | None => l = []
        | Some (x, r) => l ≡ₚ x :: r
        end) →
  maze_problem take grid start goal = Ret path →
  (path = [] ∧ ¬ rtc (move grid (rows_of grid) (cols_of grid)) start goal)
  ∨ (head path = Some start ∧ last path = Some goal ∧ NoDup path
     ∧ walk (move grid (rows_of grid) (cols_of grid)) path).
Proof.
  intros Htake. destruct (grid !! 0%nat) as [row0|] eqn:H0.
  - rewrite (maze_problem_unfold _ _ _ _ _ H0). destruct (_ || _); [done|].
    apply search_loop_sound; [done|apply sinv_init].
  - unfold maze_problem, getitem.
    change (0 <? 0) with false. cbv iota. change (Z.to_nat 0) with 0%nat.
    by rewrite H0.
Qed.

Lemma rectangular_rows grid :
  rectangular grid = true →
  ∃ row0, grid !! 0%nat = Some row0
          ∧ ∀ row, row ∈ grid → length row = length row0.
Proof.
  destruct grid as [|row0 grid]; [done|]. unfold rectangular.
  rewrite forallb_forall. intros Hall. exists row0. split; [done|].
  intros row Hrow%list_elem_of_In. by apply Nat.eqb_eq, Hall.
Qed.

Lemma rectangular_total grid n :
  rectangular grid = true →
  0 ≤ n.1 < rows_of grid → 0 ≤ n.2 < cols_of grid →
  ∃ v, grid_at grid n = Ret v.
Proof.
  intros (row0 & H0 & Hrows)%rectangular_rows Hr Hc. unfold rows_of, cols_of in *.
  rewrite H0 in Hc. simpl in Hc.
  destruct (lookup_lt_is_Some_2 grid (Z.to_nat n.1)) as [row Hrow]; [lia|].
  pose proof (Hrows row (list_elem_of_lookup_2 _ _ _ Hrow)) as Hlen.
  destruct (lookup_lt_is_Some_2 row (Z.to_nat n.2)) as [v Hv]; [lia|].
  exists v. unfold grid_at, getitem.
  destruct (n.1 <? 0) eqn:E1; [lia|]. rewrite E1, Hrow. simpl.
  destruct (n.2 <? 0) eqn:E2; [lia|]. by rewrite E2, Hv.
Qed.

Lemma maze_problem_returns take grid start goal :
  (∀ l, match take l with
        | None => l = []
        | Some (x, r) => l ≡ₚ x :: r
        end) →
  rectangular grid = true →
  start.1 ≤ rows_of grid → goal.1 ≤ rows_of grid →
  start.2 ≤ cols_of grid → goal.2 ≤ cols_of grid →
  ∃ path, maze_problem take grid start goal = Ret path.
Proof.
  intros Htake Hrect Hs1 Hg1 Hs2 Hg2.
  pose proof (rectangular_rows _ Hrect) as (row0 & H0 & Hrows).
  rewrite (maze_problem_unfold _ _ _ _ _ H0).
  assert ((start.1 >? rows_of grid) || (goal.1 >? rows_of grid)
          || (start.2 >? cols_of grid) || (goal.2 >? cols_of grid) = false) as ->.
  { repeat (apply orb_false_iff; split); lia. }
  eapply search_loop_returns; [done| |apply sinv_init|].
  - intros n. by apply rectangular_total.
  - unfold turns_left, rows_of, cols_of. rewrite H0.
    cbn [pending visited default length].
    rewrite size_singleton, !Nat2Z.id. unfold Datatypes.id. lia.
Qed.

(** X14: a non-empty list returned by [bfs_maze_problem] begins with
    [start], ends with [goal], holds no cell twice, and each of its cells
    but the first is a cell that [neighbors] yields for the cell before it
    and that holds 1 in the grid. *)
Theorem bfs_path_is_walk grid start goal path :
  bfs_maze_problem grid start goal = Ret path → path ≠ [] →
  head path = Some start ∧ last path = Some goal ∧ NoDup path
  ∧ walk (move grid (rows_of grid) (cols_of grid)) path.
Proof.
  intros Hp Hne.
  by destruct (maze_problem_sound popleft _ _ _ _ popleft_spec Hp) as [[? _]|?].
Qed.

(** X15: the same holds of a non-empty list returned by
    [dfs_maze_problem]. *)
Theorem dfs_path_is_walk grid start goal path :
  dfs_maze_problem grid start goal = Ret path → path ≠ [] →
  head path = Some start ∧ last path = Some goal ∧ NoDup path
  ∧ walk (move grid (rows_of grid) (cols_of grid)) path.
Proof.
  intros Hp Hne.
  by destruct (maze_problem_sound pop _ _ _ _ pop_spec Hp) as [[? _]|?].
Qed.

(** X16: on a grid whose rows have one length, and for a [start] and a
    [goal] that pass the test of the first lines, [bfs_maze_problem]
    returns a list, and the list is empty exactly when [goal] cannot be
    reached from [start] by moves to neighbouring cells that hold 1. *)
Theorem bfs_finds_goal grid start goal :
  rectangular grid = true →
  start.1 ≤ rows_of grid → goal.1 ≤ rows_of grid →
  start.2 ≤ cols_of grid → goal.2 ≤ cols_of grid →
  ∃ path, bfs_maze_problem grid start goal = Ret path
          ∧ (path = [] ↔ ¬ rtc (move grid (rows_of grid) (cols_of grid)) start goal).
Proof.
  intros Hrect Hs1 Hg1 Hs2 Hg2.
  destruct (maze_problem_returns popleft grid start goal popleft_spec)
    as [path Hp]; try done.
  exists path. split; [done|].
  destruct (maze_problem_sound popleft _ _ _ _ popleft_spec Hp)
    as [[-> Hn]|(Hh & Hl & _ & Hw)]; [done|].
  split; [intros ->; done|]. intros Hn. destruct Hn. by eapply walk_rtc.
Qed.

(** X17: the same holds of [dfs_maze_problem]. *)
Theorem dfs_finds_goal grid start goal :
  rectangular grid = true →
  start.1 ≤ rows_of grid → goal.1 ≤ rows_of grid →
  start.2 ≤ cols_of grid → goal.2 ≤ cols_of grid →
  ∃ path, dfs_maze_problem grid start goal = Ret path
          ∧ (path = [] ↔ ¬ rtc (move grid (rows_of grid) (cols_of grid)) start goal).
Proof.
  intros Hrect Hs1 Hg1 Hs2 Hg2.
  destruct (maze_problem_returns pop grid start goal pop_spec)
    as [path Hp]; try done.
  exists path. split; [done|].
  destruct (maze_problem_sound pop _ _ _ _ pop_spec Hp)
    as [[-> Hn]|(Hh & Hl & _ & Hw)]; [done|].
  split; [intros ->; done|]. intros Hn. destruct Hn. by eapply walk_rtc.
Qed.

(** *** Breadth first: the number of moves *)

Lemma chain_inj parent c l1 l2 :
  chain parent c l1 → chain parent c l2 → l1 = l2.
Proof.
  intros H1. revert l2. induction H1 as [c Hc|c p l Hc _ IH]; intros l2 H2.
  - destruct H2 as [c Hc'|c p' l' Hc' _]; [done|congruence].
  - destruct H2 as [c Hc'|c p' l' Hc' H2]; [congruence|].
    assert (p' = p) as -> by congruence. by rewrite (IH _ H2).
Qed.

Lemma depth_inj parent c d1 d2 :
  depth parent c d1 → depth parent c d2 → d1 = d2.
Proof.
  intros (l1 & H1 & Hl1) (l2 & H2 & Hl2).
  rewrite (chain_inj _ _ _ _ H1 H2) in Hl1. lia.
Qed.

Lemma depth_insert parent c d n v :
  parent !! n = None → depth parent c d → depth (<[n := v]> parent) c d.
Proof. intros Hn (l & Hl & Hd). exists l. split; [by apply chain_insert|done]. Qed.

Lemma depth_visited grid rows cols start goal cur st c :
  sinv grid rows cols start goal cur st → c ∈ visited st →
  ∃ d, depth (parent st) c d.
Proof.
  intros Hi Hc. destruct (si_chain _ _ _ _ _ _ _ Hi c Hc) as (l & Hl & Hh & _).
  destruct l as [|x l]; [done|]. exists (length l), (x :: l). done.
Qed.

Lemma binv_init grid rows cols start :
  binv grid rows cols start None
       (mkSearch [start] {[start]} {[start := None]}) 0 [start] [].
Proof.
  assert (depth ({[start := None]} : gmap (Z * Z) (option (Z * Z))) start 0) as Hd.
  { exists [start]. split; [|done]. apply chain_root. by rewrite lookup_singleton_eq. }
  split; simpl; try done.
  - by apply Forall_singleton.
  - intros a ->%elem_of_singleton Ha. destruct Ha. by apply list_elem_of_singleton.
  - intros a b da ->%elem_of_singleton Ha. destruct Ha. by apply list_elem_of_singleton.
Qed.

Lemma binv_take grid rows cols start goal st D A B cur rest :
  sinv grid rows cols start goal None st →
  binv grid rows cols start None st D A B →
  pending st = cur :: rest →
  ∃ D' A' B', binv grid rows cols start (Some cur)
                   (mkSearch rest (visited st) (parent st)) D' A' B'.
Proof.
  intros Hi [Hfront _ HA HB Hstart Hdone Hnext] Hp.
  pose proof (si_nodup _ _ _ _ _ _ _ Hi) as Hnd.
  rewrite Hp in Hnd. apply NoDup_cons in Hnd as [Hcr _].
  assert (∀ a, a ∉ rest → Some cur ≠ Some a → a ∉ pending st) as Hout.
  { intros a Ha Hca. rewrite Hp. intros [->|?]%elem_of_cons; [by destruct Hca|done]. }
  rewrite Hp in Hfront. destruct A as [|a0 A].
  - simpl in Hfront. subst B. apply Forall_cons in HB as [Hc HB].
    exists (S D), rest, []. split; simpl.
    + by rewrite app_nil_r.
    + by intros c [= <-].
    + done.
    + done.
    + done.
    + intros a Ha Har Hac. destruct (Hdone a) as (da & Hda & ?); [done|by apply Hout|done|].
      exists da. split; [done|lia].
    + intros a b da Ha Har Hac. apply Hnext; [done|by apply Hout|done].
  - injection Hfront as -> ->. apply Forall_cons in HA as [Hc HA].
    exists D, A, B. split; simpl; try done.
    + by intros c [= <-].
    + intros a Ha Har Hac. apply Hdone; [done|by apply Hout|done].
    + intros a b da Ha Har Hac. apply Hnext; [done|by apply Hout|done].
Qed.

Lemma binv_visit grid rows cols start goal cur st D A B n st' :
  sinv grid rows cols start goal (Some cur) st →
  binv grid rows cols start (Some cur) st D A B →
  visit grid cur st n = Ret st' →
  ∃ B', binv grid rows cols start (Some cur) st' D A B'
        ∧ (grid_at grid n = Ret 1 →
           ∃ dn, depth (parent st') n dn ∧ (dn ≤ S D)%nat).
Proof.
  intros Hi [Hfront Hcur HA HB Hstart Hdone Hnext]. unfold visit.
  case_bool_decide as Hv.
  { intros [= <-]. exists B. split; [done|]. intros _.
    destruct (decide (n ∈ pending st)) as [Hp|Hp].
    - rewrite Hfront in Hp. apply elem_of_app in Hp as [Hp|Hp].
      + exists D. split; [|lia]. by eapply (proj1 (Forall_forall _ _) HA).
      + exists (S D). split; [|lia]. by eapply (proj1 (Forall_forall _ _) HB).
    - destruct (decide (n = cur)) as [->|Hne].
      + exists D. split; [by apply Hcur|lia].
      + destruct (Hdone n) as (dn & Hdn & ?); [done|done|congruence|].
        exists dn. split; [done|lia]. }
  destruct (grid_at grid n) as [v|e] eqn:Hg; [|done]. simpl.
  destruct (v =? 1) eqn:Hv1; intros [= <-].
  - assert (parent st !! n = None) as Hpn.
    { apply eq_None_not_Some. intros Hs. by apply (si_dom _ _ _ _ _ _ _ Hi) in Hs. }
    assert (depth (<[n := Some cur]> (parent st)) n (S D)) as Hdn.
    { destruct (Hcur cur eq_refl) as (l & Hl & Hlen).
      exists (l ++ [n]). split.
      - eapply chain_step; [by rewrite lookup_insert_eq|by apply chain_insert].
      - rewrite length_app. simpl. lia. }
    exists (B ++ [n]). split; [|intros _; exists (S D); split; [done|lia]].
    split; simpl.
    + by rewrite Hfront, app_assoc.
    + intros c Hc. by apply depth_insert, Hcur.
    + eapply Forall_impl; [done|]. intros a Ha. by apply depth_insert.
    + apply Forall_app. split; [|by apply Forall_singleton].
      eapply Forall_impl; [done|]. intros a Ha. by apply depth_insert.
    + by apply depth_insert.
    + intros a Ha Hap Hac.
      assert (a ∈ visited st ∧ a ∉ pending st) as [Hav Hap'].
      { split.
        - apply elem_of_union in Ha as [->%elem_of_singleton|?]; [|done].
          destruct Hap. apply elem_of_app. right. by apply list_elem_of_singleton.
        - intros ?. apply Hap, elem_of_app. by left. }
      destruct (Hdone a Hav Hap' Hac) as (da & Hda & ?).
      exists da. split; [by apply depth_insert|done].
    + intros a b da Ha Hap Hac Hab Hda.
      assert (a ∈ visited st ∧ a ∉ pending st) as [Hav Hap'].
      { split.
        - apply elem_of_union in Ha as [->%elem_of_singleton|?]; [|done].
          destruct Hap. apply elem_of_app. right. by apply list_elem_of_singleton.
        - intros ?. apply Hap, elem_of_app. by left. }
      destruct (Hdone a Hav Hap' Hac) as (da' & Hda' & _).
      assert (da = da') as <-.
      { eapply depth_inj; [done|]. by apply depth_insert. }
      destruct (Hnext a b da Hav Hap' Hac Hab Hda') as (db & Hdb & ?).
      exists db. split; [by apply depth_insert|done].
  - exists B. split; [done|]. by intros [= ->].
Qed.

Lemma chain_dom parent c l : chain parent c l → is_Some (parent !! c).
Proof. destruct 1; by eexists. Qed.

Lemma visit_depth grid rows cols start goal cur st n st' c d :
  sinv grid rows cols start goal (Some cur) st →
  visit grid cur st n = Ret st' →
  depth (parent st) c d → depth (parent st') c d.
Proof.
  intros Hi. unfold visit. case_bool_decide as Hv; [by intros [= <-]|].
  destruct (grid_at grid n) as [v|e]; [|done]. simpl.
  destruct (v =? 1); intros [= <-]; [|done]. simpl.
  apply depth_insert, eq_None_not_Some. intros Hs.
  by apply (si_dom _ _ _ _ _ _ _ Hi) in Hs.
Qed.

Lemma for_neighbors_depth grid rows cols start goal cur ns st st' c d :
  sinv grid rows cols start goal (Some cur) st →
  (∀ n, n ∈ ns → n ∈ neighbors cur rows cols) →
  for_neighbors grid cur st ns = Ret st' →
  depth (parent st) c d → depth (parent st') c d.
Proof.
  revert st. induction ns as [|n ns IH]; intros st Hi Hns; simpl.
  { by intros [= <-]. }
  destruct (visit grid cur st n) as [st1|e] eqn:Hv; [|done]. simpl. intros Hf Hd.
  destruct (visit_inv _ _ _ _ _ _ _ _ _ Hi (Hns n ltac:(left)) Hv) as (Hi1 & _).
  apply (IH st1 Hi1 (λ m Hm, Hns m ltac:(by right)) Hf).
  exact (visit_depth _ _ _ _ _ _ _ _ _ _ _ Hi Hv Hd).
Qed.

Lemma binv_for grid rows cols start goal cur ns st D A B st' :
  sinv grid rows cols start goal (Some cur) st →
  (∀ n, n ∈ ns → n ∈ neighbors cur rows cols) →
  binv grid rows cols start (Some cur) st D A B →
  for_neighbors grid cur st ns = Ret st' →
  ∃ B', binv grid rows cols start (Some cur) st' D A B'
        ∧ ∀ n, n ∈ ns → grid_at grid n = Ret 1 →
               ∃ dn, depth (parent st') n dn ∧ (dn ≤ S D)%nat.
Proof.
  revert st B. induction ns as [|n ns IH]; intros st B Hi Hns Hb; simpl.
  { intros [= <-]. exists B. split; [done|]. intros n Hn. by apply elem_of_nil in Hn. }
  destruct (visit grid cur st n) as [st1|e] eqn:Hv; [|done]. simpl. intros Hf.
  destruct (visit_inv _ _ _ _ _ _ _ _ _ Hi (Hns n ltac:(left)) Hv) as (Hi1 & _).
  destruct (binv_visit _ _ _ _ _ _ _ _ _ _ _ _ Hi Hb Hv) as (B1 & Hb1 & Hn1).
  destruct (IH st1 B1 Hi1 (λ m Hm, Hns m ltac:(by right)) Hb1 Hf)
    as (B' & Hb' & Hrest).
  exists B'. split; [done|].
  intros m [->|Hm]%elem_of_cons Hg; [|by apply Hrest].
  destruct (Hn1 Hg) as (dn & Hdn & ?). exists dn. split; [|done].
  eapply for_neighbors_depth; [exact Hi1| |exact Hf|exact Hdn].
  intros k Hk. apply Hns. by right.
Qed.

Lemma binv_close grid rows cols start cur st D A B :
  binv grid rows cols start (Some cur) st D A B →
  (∀ n, move grid rows cols cur n →
        ∃ dn, depth (parent st) n dn ∧ (dn ≤ S D)%nat) →
  binv grid rows cols start None st D A B.
Proof.
  intros [Hfront Hcur HA HB Hstart Hdone Hnext] Hcl. split; try done.
  - intros a Ha Hap _. destruct (decide (a = cur)) as [->|Hne].
    + exists D. split; [by apply Hcur|lia].
    + apply Hdone; [done|done|congruence].
  - intros a b da Ha Hap _ Hab Hda. destruct (decide (a = cur)) as [->|Hne].
    + rewrite (depth_inj _ _ _ _ Hda (Hcur cur eq_refl)). by apply Hcl.
    + apply (Hnext a b da); [done|done|congruence|done|done].
Qed.

Lemma walk_nsteps R l a b :
  walk R l → head l = Some a → last l = Some b →
  nsteps R (pred (length l)) a b.
Proof.
  revert a. induction l as [|x l IH]; [done|]. intros a Hw [= ->] Hl.
  destruct l as [|y l].
  - simpl in Hl. injection Hl as ->. apply nsteps_O.
  - destruct Hw as [Hxy Hw]. eapply nsteps_l; [done|]. by apply IH.
Qed.

Lemma bfs_loop_shortest grid rows cols start goal fuel st D A B path k :
  sinv grid rows cols start goal None st →
  binv grid rows cols start None st D A B →
  search_loop popleft fuel grid rows cols goal st = Ret path →
  path ≠ [] →
  nsteps (move grid rows cols) k start goal →
  (length path ≤ S k)%nat.
Proof.
  revert st D A B. induction fuel as [|fuel IH]; intros st D A B Hi Hb; [done|].
  simpl. destruct (pending st) as [|cur rest] eqn:Hp; simpl; [by intros [= <-]|].
  destruct (binv_take _ _ _ _ _ _ _ _ _ _ _ Hi Hb Hp) as (D' & A' & B' & Hb0).
  assert (pending st ≡ₚ cur :: rest) as Hperm by by rewrite Hp.
  case_bool_decide as Hcg.
  - subst cur. intros Hcp _ Hk.
    destruct (create_path_chain _ _ _ _ _ _ _ goal Hi) as (l & Hl & Hch & _).
    { apply (si_pend _ _ _ _ _ _ _ Hi). rewrite Hp. by left. }
    rewrite Hl in Hcp. injection Hcp as <-.
    destruct Hb0 as [Hfront Hcur HA HB Hstart Hdone Hnext]. simpl in *.
    pose proof (Hcur goal eq_refl) as Hgd.
    assert (length l = S D') as ->.
    { destruct Hgd as (l' & Hl' & Hlen). by rewrite (chain_inj _ _ _ _ Hch Hl'). }
    assert (∀ k x, nsteps (move grid rows cols) k start x → (k < D')%nat →
                   ∃ d, depth (parent st) x d ∧ (d ≤ k)%nat) as Hnear.
    { intros j. induction j as [|j IHk]; intros x Hx Hlt.
      - inversion Hx; subst. by exists O.
      - apply nsteps_inv_r in Hx as (y & Hy & Hyx).
        destruct (IHk y Hy ltac:(lia)) as (dy & Hdy & Hle).
        destruct (Hnext y x dy) as (dx & Hdx & ?); try done.
        + destruct Hdy as (ly & Hly & _).
          by apply (si_dom _ _ _ _ _ _ _ Hi), (chain_dom _ _ _ Hly).
        + rewrite Hfront. intros [Hin|Hin]%elem_of_app.
          * pose proof (proj1 (Forall_forall _ _) HA y Hin) as Hd.
            pose proof (depth_inj _ _ _ _ Hdy Hd). lia.
          * pose proof (proj1 (Forall_forall _ _) HB y Hin) as Hd.
            pose proof (depth_inj _ _ _ _ Hdy Hd). lia.
        + intros [= ->]. pose proof (depth_inj _ _ _ _ Hdy Hgd). lia.
        + exists dx. split; [done|lia]. }
    destruct (decide (k < D')%nat) as [Hlt|]; [|lia].
    destruct (Hnear k goal Hk Hlt) as (d & Hd & ?).
    pose proof (depth_inj _ _ _ _ Hd Hgd). lia.
  - pose proof (sinv_take _ _ _ _ _ _ _ _ Hi Hperm Hcg) as Hi0.
    destruct (for_neighbors _ _ _ _) as [st'|e] eqn:Hf; [|done]. simpl.
    destruct (for_neighbors_inv _ _ _ _ _ _ _ _ _ Hi0 (λ n Hn, Hn) Hf)
      as (Hi' & _ & Hcl & _).
    destruct (binv_for _ _ _ _ _ _ _ _ _ _ _ _ Hi0 (λ n Hn, Hn) Hb0 Hf)
      as (B1 & Hb1 & Hdepth).
    eapply IH; [by eapply sinv_close|].
    eapply binv_close; [done|]. intros n [Hn Hg]. by apply Hdepth.
Qed.

(** X18: no list of cells from [start] to [goal] in which every cell but
    the first is a cell that [neighbors] yields for the cell before it and
    that holds 1 is shorter than a non-empty list returned by
    [bfs_maze_problem]. *)
Theorem bfs_path_is_shortest grid start goal path other :
  bfs_maze_problem grid start goal = Ret path → path ≠ [] →
  walk (move grid (rows_of grid) (cols_of grid)) other →
  head other = Some start → last other = Some goal →
  (length path ≤ length other)%nat.
Proof.
  intros Hp Hne Hw Hh Hl.
  pose proof (walk_nsteps _ _ _ _ Hw Hh Hl) as Hk.
  assert (length other = S (pred (length other))) as ->
    by (destruct other; [done|simpl; lia]).
  unfold bfs_maze_problem in Hp.
  destruct (grid !! 0%nat) as [row0|] eqn:H0.
  - rewrite (maze_problem_unfold _ _ _ _ _ H0) in Hp.
    destruct (_ || _); [done|].
    eapply bfs_loop_shortest; [apply sinv_init|apply binv_init|done..].
  - unfold maze_problem, getitem in Hp.
    change (0 <? 0) with false in Hp. cbv iota in Hp.
    change (Z.to_nat 0) with 0%nat in Hp. by rewrite H0 in Hp.
Qed.

(** ** The maze searches on concrete grids *)

Lemma bfs_path_is_walk_witness :
  let path := [(0, 0); (0, 1); (0, 2); (1, 2); (2, 2); (2, 1); (2, 0)] in
  head path = Some (0, 0) ∧ last path = Some (2, 0) ∧ NoDup path
  ∧ walk (move corridor_grid (rows_of corridor_grid) (cols_of corridor_grid)) path.
Proof.
  apply (bfs_path_is_walk corridor_grid (0, 0) (2, 0)); [vm_compute; reflexivity|done].
Defined.

Lemma dfs_path_is_walk_witness :
  let path := [(0, 0); (0, 1); (0, 2); (1, 2); (2, 2)] in
  head path = Some (0, 0) ∧ last path = Some (2, 2) ∧ NoDup path
  ∧ walk (move ring_grid (rows_of ring_grid) (cols_of ring_grid)) path.
Proof.
  apply (dfs_path_is_walk ring_grid (0, 0) (2, 2)); [vm_compute; reflexivity|done].
Defined.

Lemma bfs_finds_goal_witness :
  ∃ path, bfs_maze_problem ring_grid (0, 0) (1, 1) = Ret path
          ∧ (path = [] ↔ ¬ rtc (move ring_grid (rows_of ring_grid) (cols_of ring_grid)) (0, 0) (1, 1)).
Proof.
  apply (bfs_finds_goal ring_grid (0, 0) (1, 1)); [reflexivity|by vm_compute..].
Defined.

Lemma dfs_finds_goal_witness :
  ∃ path, dfs_maze_problem corridor_grid (3, 0) (0, 0) = Ret path
          ∧ (path = [] ↔ ¬ rtc (move corridor_grid (rows_of corridor_grid) (cols_of corridor_grid))
                               (3, 0) (0, 0)).
Proof.
  apply (dfs_finds_goal corridor_grid (3, 0) (0, 0)); [reflexivity|by vm_compute..].
Defined.

Lemma bfs_path_is_shortest_witness :
  let path := [(0, 0); (1, 0); (2, 0); (2, 1); (2, 2)] in
  let other := [(0, 0); (0, 1); (0, 2); (1, 2); (2, 2)] in
  (length path ≤ length other)%nat.
Proof.
  apply (bfs_path_is_shortest ring_grid (0, 0) (2, 2));
    [vm_compute; reflexivity|done| |reflexivity|reflexivity].
  simpl. unfold move. split_and!; try done;
    first [apply list_elem_of_In; vm_compute; tauto|vm_compute; reflexivity].
Defined.

(** * The hash table: the methods *)

Import OpenAddressingHashTable.

(** ** Indexing and probing *)

Lemma getitem_lookup {A} (l : list A) i x :
  0 ≤ i → l !! Z.to_nat i = Some x → getitem l i = Ret x.
Proof.
  intros Hi Hx. unfold getitem.
  destruct (i <? 0) eqn:E; [lia|]. by rewrite E, Hx.
Qed.

Lemma setitem_insert {A} (l : list A) i x :
  0 ≤ i < Z.of_nat (length l) →
  setitem l i x = Ret (<[Z.to_nat i := x]> l).
Proof.
  intros Hi. unfold setitem.
  destruct (i <? 0) eqn:E; [lia|]. rewrite E.
  destruct (Z.of_nat (length l) <=? i) eqn:E'; [lia|]. done.
Qed.

Lemma probe_range c h j : 0 < c → 0 ≤ probe c h j < c.
Proof. intros Hc. unfold probe. by apply Z.mod_pos_bound. Qed.

Lemma land_mask h n : 0 ≤ n → Z.land h (2 ^ n - 1) = h mod 2 ^ n.
Proof.
  intros Hn. rewrite <-Z.land_ones by done. by rewrite Z.ones_equiv, <-Z.sub_1_r.
Qed.

Lemma probe_0 h n : 0 ≤ n → Z.land h (2 ^ n - 1) = probe (2 ^ n) h 0.
Proof. intros Hn. unfold probe. by rewrite land_mask, Z.add_0_r. Qed.

Lemma probe_S h n j :
  0 ≤ n → Z.land (probe (2 ^ n) h j + 1) (2 ^ n - 1) = probe (2 ^ n) h (S j).
Proof.
  intros Hn. unfold probe. rewrite land_mask by done.
  rewrite Zplus_mod_idemp_l. f_equal. lia.
Qed.

Lemma probe_inj c h j1 j2 :
  0 < c → Z.of_nat j1 < c → Z.of_nat j2 < c →
  probe c h j1 = probe c h j2 → j1 = j2.
Proof.
  intros Hc H1 H2. unfold probe. intros Heq.
  assert ((Z.of_nat j1 - Z.of_nat j2) mod c = 0) as Hm.
  { replace (Z.of_nat j1 - Z.of_nat j2)
      with ((h + Z.of_nat j1) - (h + Z.of_nat j2)) by lia.
    rewrite Zminus_mod, Heq, Z.sub_diag. by apply Z.mod_0_l, Z.neq_sym, Z.lt_neq. }
  apply Z.mod_divide in Hm as [q Hq]; [|lia].
  assert (- c < q * c < c) as Hb by lia.
  assert (q = 0) as -> by nia. lia.
Qed.

Lemma probe_surj c h i :
  0 < c → 0 ≤ i < c → ∃ j, Z.of_nat j < c ∧ probe c h j = i.
Proof.
  intros Hc Hi. exists (Z.to_nat ((i - h) mod c)).
  pose proof (Z.mod_pos_bound (i - h) c Hc). split; [lia|].
  unfold probe. rewrite Z2Nat.id by lia.
  rewrite Zplus_mod_idemp_r. replace (h + (i - h)) with i by lia.
  by apply Z.mod_small.
Qed.

(** ** Counting cells *)

Section counting.
Context {K V : Type}.
Implicit Types l : list (slot K V).

Lemma count_entries_range l : 0 ≤ count_entries l ≤ Z.of_nat (length l).
Proof. induction l as [|[] l IH]; simpl; lia. Qed.

Lemma count_deleted_range l : 0 ≤ count_deleted l ≤ Z.of_nat (length l).
Proof. induction l as [|[] l IH]; simpl; lia. Qed.

Lemma count_replicate_empty n :
  count_entries (replicate n (@EMPTY K V)) = 0
  ∧ count_deleted (replicate n (@EMPTY K V)) = 0.
Proof. induction n; simpl; [done|]. done. Qed.

Lemma exists_empty l :
  count_entries l + count_deleted l < Z.of_nat (length l) →
  ∃ i, l !! i = Some EMPTY.
Proof.
  induction l as [|s l IH]; simpl; [lia|]. intros Hlt.
  destruct s; [by exists 0%nat| |]; destruct IH as [i Hi]; try lia;
    by exists (S i).
Qed.

Lemma count_insert l i s s' :
  l !! i = Some s →
  count_entries (<[i := s']> l)
  = count_entries l - count_entries [s] + count_entries [s']
  ∧ count_deleted (<[i := s']> l)
    = count_deleted l - count_deleted [s] + count_deleted [s'].
Proof.
  revert i. induction l as [|x l IH]; intros i Hi; [done|].
  destruct i as [|i]; simpl in Hi.
  - injection Hi as ->. destruct s, s'; simpl; lia.
  - destruct (IH i Hi) as [He Hd]. destruct x; simpl in *; lia.
Qed.

Lemma count_entries_app l1 l2 :
  count_entries (l1 ++ l2) = count_entries l1 + count_entries l2.
Proof. induction l1 as [|[] l1 IH]; simpl; lia. Qed.

End counting.

(** ** The probe of a key *)

Lemma least_nat (P : nat → Prop) (j0 : nat) :
  (∀ j, P j ∨ ¬ P j) → P j0 →
  ∃ e, (e ≤ j0)%nat ∧ P e ∧ ∀ j, (j < e)%nat → ¬ P j.
Proof.
  intros Hdec. induction j0 as [j0 IH] using lt_wf_ind. intros Hj0.
  destruct (Hdec 0%nat) as [H0|H0].
  { exists 0%nat. split_and!; [lia|done|lia]. }
  assert (∀ m, (m ≤ j0)%nat →
            (∃ e, (e < m)%nat ∧ P e) ∨ (∀ j, (j < m)%nat → ¬ P j)) as Hscan.
  { induction m as [|m IHm]; intros Hm; [right; lia|].
    destruct IHm as [(e & He & HP)|Hnone]; [lia|left; exists e; split; [lia|done]|].
    destruct (Hdec m) as [HPm|HPm].
    - left. exists m. split; [lia|done].
    - right. intros j Hj. destruct (decide (j = m)) as [->|]; [done|].
      apply Hnone. lia. }
  destruct (Hscan j0 (Nat.le_refl _)) as [(e & He & HP)|Hnone].
  - destruct (IH e He HP) as (e' & He' & HP' & Hmin).
    exists e'. split_and!; [lia|done|done].
  - exists j0. by split_and!.
Qed.

Section probing.
Context {K V : Type} `{EqDecision K}.
Variable hash : K → Z.
Variable t : table K V.
Hypothesis Ht : wf_core hash t.

Lemma wf_capacity_pos : 8 ≤ _capacity t.
Proof.
  destruct (wf_cap _ _ Ht) as (n & Hn & ->).
  change 8 with (2 ^ 3). apply Z.pow_le_mono_r; lia.
Qed.

Lemma wf_probe_0 h : Z.land h (_mask t) = probe (_capacity t) h 0.
Proof.
  rewrite (wf_mask _ _ Ht). destruct (wf_cap _ _ Ht) as (n & Hn & ->).
  apply probe_0. lia.
Qed.

Lemma wf_probe_S h j :
  Z.land (probe (_capacity t) h j + 1) (_mask t) = probe (_capacity t) h (S j).
Proof.
  rewrite (wf_mask _ _ Ht). destruct (wf_cap _ _ Ht) as (n & Hn & ->).
  apply probe_S. lia.
Qed.

Lemma wf_probe_lt h j :
  (Z.to_nat (probe (_capacity t) h j) < length (_storage t))%nat.
Proof.
  pose proof wf_capacity_pos. pose proof (wf_len _ _ Ht).
  pose proof (probe_range (_capacity t) h j). lia.
Qed.

Lemma wf_slot h j :
  ∃ s, _storage t !! Z.to_nat (probe (_capacity t) h j) = Some s.
Proof. apply lookup_lt_is_Some_2, wf_probe_lt. Qed.

Lemma wf_getitem h j s :
  _storage t !! Z.to_nat (probe (_capacity t) h j) = Some s →
  getitem (_storage t) (probe (_capacity t) h j) = Ret s.
Proof.
  intros Hs. apply getitem_lookup; [|done].
  pose proof wf_capacity_pos. pose proof (probe_range (_capacity t) h j). lia.
Qed.

Lemma wf_setitem h j s :
  setitem (_storage t) (probe (_capacity t) h j) s
  = Ret (<[Z.to_nat (probe (_capacity t) h j) := s]> (_storage t)).
Proof.
  apply setitem_insert.
  pose proof wf_capacity_pos. pose proof (wf_len _ _ Ht).
  pose proof (probe_range (_capacity t) h j). lia.
Qed.

Lemma wf_exists_empty : ∃ i, _storage t !! i = Some EMPTY.
Proof.
  apply exists_empty. rewrite <-(wf_size _ _ Ht), <-(wf_deleted _ _ Ht), (wf_len _ _ Ht).
  apply (wf_room _ _ Ht).
Qed.

Lemma wf_index_probe h i :
  (i < length (_storage t))%nat →
  ∃ j, (j < length (_storage t))%nat ∧ probe (_capacity t) h j = Z.of_nat i.
Proof.
  intros Hi. pose proof wf_capacity_pos. pose proof (wf_len _ _ Ht).
  destruct (probe_surj (_capacity t) h (Z.of_nat i)) as (j & Hj & Hp); [lia|lia|].
  exists j. split; [lia|done].
Qed.

Lemma wf_probe_inj h j1 j2 :
  (j1 < length (_storage t))%nat → (j2 < length (_storage t))%nat →
  probe (_capacity t) h j1 = probe (_capacity t) h j2 → j1 = j2.
Proof.
  intros H1 H2. pose proof wf_capacity_pos. pose proof (wf_len _ _ Ht).
  apply probe_inj; lia.
Qed.

(** Every probe ends: at an empty cell or at the key. *)
Lemma stop_exists h key : ∃ js, stop_at t h key js.
Proof.
  destruct wf_exists_empty as [i Hi].
  destruct (wf_index_probe h i) as (j0 & Hj0 & Hp); [by eapply lookup_lt_Some|].
  destruct (least_nat
    (λ j, ∃ s, _storage t !! Z.to_nat (probe (_capacity t) h j) = Some s
               ∧ stops h key s = true) j0) as (js & Hjs & Hs & Hmin).
  - intros j. destruct (wf_slot h j) as [s Hs].
    destruct (stops h key s) eqn:E; [left; by exists s|].
    right. intros (s' & Hs' & E'). congruence.
  - exists EMPTY. split; [|done]. by rewrite Hp, Nat2Z.id.
  - exists js. split_and!; [lia|done|].
    intros j Hj. destruct (wf_slot h j) as [s Hsj]. exists s. split; [done|].
    destruct (stops h key s) eqn:E; [|done].
    destruct (Hmin j Hj). by exists s.
Qed.

(** The probe of a key the table holds ends at its entry. *)
Lemma stop_holds key v js :
  holds t key v → stop_at t (hash key) key js →
  ∃ h, _storage t !! Z.to_nat (probe (_capacity t) (hash key) js)
       = Some (Entry key v h).
Proof.
  intros (i & h & Hi) (Hjs & (s & Hs & Hstop) & Hbefore).
  destruct (wf_placed _ _ Ht i key v h Hi) as (-> & j0 & Hj0 & Hp & Hne).
  assert (js = j0) as ->; [|exists (hash key); by rewrite Hp, Nat2Z.id].
  destruct (lt_eq_lt_dec js j0) as [[Hlt|Heq]|Hgt]; [|done|].
  - destruct s as [| |k' v' h']; simpl in Hstop; [|done|].
    + by destruct (Hne js Hlt).
    + apply andb_true_iff in Hstop as [_ Hk]. apply bool_decide_eq_true in Hk as ->.
      pose proof (wf_unique _ _ Ht _ _ _ _ _ _ _ Hi Hs) as Hij.
      apply (f_equal Z.of_nat) in Hij. rewrite <-Hp in Hij.
      pose proof wf_capacity_pos. pose proof (probe_range (_capacity t) (hash key) js).
      rewrite Z2Nat.id in Hij by lia.
      apply wf_probe_inj in Hij; lia.
  - destruct (Hbefore j0 Hgt) as (s0 & Hs0 & Hns).
    rewrite Hp, Nat2Z.id, Hi in Hs0. injection Hs0 as <-. simpl in Hns.
    rewrite Z.eqb_refl, bool_decide_eq_true_2 in Hns; done.
Qed.

(** The probe of a key the table does not hold ends at an empty cell. *)
Lemma stop_absent key js :
  (∀ v, ¬ holds t key v) → stop_at t (hash key) key js →
  _storage t !! Z.to_nat (probe (_capacity t) (hash key) js) = Some EMPTY.
Proof.
  intros Habs (Hjs & (s & Hs & Hstop) & _).
  destruct s as [| |k' v' h']; simpl in Hstop; [done|done|].
  apply andb_true_iff in Hstop as [_ Hk]. apply bool_decide_eq_true in Hk as ->.
  destruct (Habs v'). by eexists _, _.
Qed.

(** ** The three loops *)

Lemma get_loop_stop key h js s fuel j :
  stop_at t h key js →
  _storage t !! Z.to_nat (probe (_capacity t) h js) = Some s →
  (j ≤ js)%nat → (js - j < fuel)%nat →
  get_loop fuel t key h (probe (_capacity t) h j)
  = Ret (match s with Entry _ v _ => Some v | _ => None end).
Proof.
  intros (Hjs & (s' & Hs' & Hstop) & Hbefore) Hs. rewrite Hs in Hs'.
  injection Hs' as <-. revert j.
  induction fuel as [|fuel IH]; intros j Hj Hfuel; [lia|]. simpl.
  destruct (decide (j = js)) as [->|Hne].
  - rewrite (wf_getitem _ _ _ Hs). simpl. destruct s as [| |k v h']; [done|done|].
    simpl in Hstop. by rewrite Hstop.
  - destruct (Hbefore j ltac:(lia)) as (s0 & Hs0 & Hns).
    rewrite (wf_getitem _ _ _ Hs0). simpl. rewrite wf_probe_S.
    destruct s0 as [| |k v h']; simpl in Hns; [done| |rewrite Hns]; apply IH; lia.
Qed.

Lemma delete_loop_stop key h js s fuel j :
  stop_at t h key js →
  _storage t !! Z.to_nat (probe (_capacity t) h js) = Some s →
  (j ≤ js)%nat → (js - j < fuel)%nat →
  delete_loop fuel t key h (probe (_capacity t) h j)
  = match s with
    | Entry _ _ _ =>
        let t' := mkTable (_capacity t)
                    (<[Z.to_nat (probe (_capacity t) h js) := DELETED]> (_storage t))
                    (_mask t) (_size t - 1) (_max_load t) (_resize_threshold t)
                    (_deleted_count t + 1) in
        if ge_mul (_deleted_count t') _deleted_clean_ratio (_capacity t')
        then _rehash_clean t' else Ret t'
    | _ => Raise KeyError
    end.
Proof.
  intros (Hjs & (s' & Hs' & Hstop) & Hbefore) Hs. rewrite Hs in Hs'.
  injection Hs' as <-. revert j.
  induction fuel as [|fuel IH]; intros j Hj Hfuel; [lia|]. simpl.
  destruct (decide (j = js)) as [->|Hne].
  - rewrite (wf_getitem _ _ _ Hs). simpl. destruct s as [| |k v h']; [done|done|].
    simpl in Hstop. rewrite Hstop. by rewrite wf_setitem.
  - destruct (Hbefore j ltac:(lia)) as (s0 & Hs0 & Hns).
    rewrite (wf_getitem _ _ _ Hs0). simpl. rewrite wf_probe_S.
    destruct s0 as [| |k v h']; simpl in Hns; [done| |rewrite Hns]; apply IH; lia.
Qed.

Lemma insert_loop_found key value h js k v h' fuel j fd :
  stop_at t h key js →
  _storage t !! Z.to_nat (probe (_capacity t) h js) = Some (Entry k v h') →
  (j ≤ js)%nat → (js - j < fuel)%nat →
  insert_loop fuel t key value h (probe (_capacity t) h j) fd
  = Ret (mkTable (_capacity t)
           (<[Z.to_nat (probe (_capacity t) h js) := Entry k value h']> (_storage t))
           (_mask t) (_size t) (_max_load t) (_resize_threshold t)
           (_deleted_count t)).
Proof.
  intros (Hjs & (s' & Hs' & Hstop) & Hbefore) Hs. rewrite Hs in Hs'.
  injection Hs' as <-. revert j fd.
  induction fuel as [|fuel IH]; intros j fd Hj Hfuel; [lia|]. simpl.
  destruct (decide (j = js)) as [->|Hne].
  - rewrite (wf_getitem _ _ _ Hs). simpl. simpl in Hstop. rewrite Hstop.
    by rewrite wf_setitem.
  - destruct (Hbefore j ltac:(lia)) as (s0 & Hs0 & Hns).
    rewrite (wf_getitem _ _ _ Hs0). simpl. rewrite wf_probe_S.
    destruct s0 as [| |k0 v0 h0]; simpl in Hns; [done| |rewrite Hns]; apply IH; lia.
Qed.

Lemma insert_loop_new key value h js fuel j fd :
  stop_at t h key js →
  _storage t !! Z.to_nat (probe (_capacity t) h js) = Some EMPTY →
  (j ≤ js)%nat → (js - j < fuel)%nat →
  match fd with
  | None => True
  | Some i => ∃ jd, (jd < j)%nat ∧ i = probe (_capacity t) h jd
                    ∧ _storage t !! Z.to_nat i = Some DELETED
  end →
  ∃ jt s0, (jt ≤ js)%nat
    ∧ _storage t !! Z.to_nat (probe (_capacity t) h jt) = Some s0
    ∧ (s0 = EMPTY ∨ s0 = DELETED)
    ∧ insert_loop fuel t key value h (probe (_capacity t) h j) fd
      = Ret (mkTable (_capacity t)
               (<[Z.to_nat (probe (_capacity t) h jt) := Entry key value h]>
                  (_storage t))
               (_mask t) (_size t + 1) (_max_load t) (_resize_threshold t)
               (_deleted_count t - count_deleted [s0])).
Proof.
  intros (Hjs & _ & Hbefore) Hs. revert j fd.
  induction fuel as [|fuel IH]; intros j fd Hj Hfuel Hfd; [lia|]. simpl.
  destruct (decide (j = js)) as [->|Hne].
  - rewrite (wf_getitem _ _ _ Hs). simpl. destruct fd as [i|]; simpl.
    + destruct Hfd as (jd & Hjd & -> & Hd). rewrite wf_setitem. simpl.
      exists jd, DELETED. split_and!; [lia|done|by right|done].
    + rewrite wf_setitem. simpl. exists js, EMPTY.
      split_and!; [lia|done|by left|]. simpl. by rewrite Z.sub_0_r.
  - destruct (Hbefore j ltac:(lia)) as (s0 & Hs0 & Hns).
    rewrite (wf_getitem _ _ _ Hs0). simpl. rewrite wf_probe_S.
    destruct s0 as [| |k0 v0 h0]; simpl in Hns; [done| |rewrite Hns].
    + apply IH; [lia|lia|]. destruct fd as [i|].
      * destruct Hfd as (jd & Hjd & -> & Hd). exists jd. split_and!; [lia|done|done].
      * exists j. split_and!; [lia|done|done].
    + apply IH; [lia|lia|]. destruct fd as [i|]; [|done].
      destruct Hfd as (jd & Hjd & -> & Hd). exists jd. split_and!; [lia|done|done].
Qed.

End probing.

(** ** Writing one cell *)

Lemma insert_not_empty {K V} (l : list (slot K V)) i s x :
  s ≠ EMPTY → l !! x ≠ Some EMPTY → <[i := s]> l !! x ≠ Some EMPTY.
Proof.
  intros Hs Hx Hn. apply list_lookup_insert_Some in Hn as [(_ & -> & _)|[_ Hn]]; done.
Qed.

Lemma wf_core_update {K V} `{EqDecision K} (hash : K → Z) (t : table K V)
    i s s' size' deleted' :
  wf_core hash t →
  _storage t !! i = Some s → s' ≠ EMPTY →
  size' = _size t - count_entries [s] + count_entries [s'] →
  deleted' = _deleted_count t - count_deleted [s] + count_deleted [s'] →
  size' + deleted' < _capacity t →
  (∀ k v h, s' = Entry k v h →
     h = hash k
     ∧ (∃ j, (j < length (_storage t))%nat
             ∧ probe (_capacity t) h j = Z.of_nat i
             ∧ ∀ j', (j' < j)%nat →
                 _storage t !! Z.to_nat (probe (_capacity t) h j') ≠ Some EMPTY)
     ∧ ∀ i0 v0 h0, _storage t !! i0 = Some (Entry k v0 h0) → i0 = i) →
  wf_core hash (mkTable (_capacity t) (<[i := s']> (_storage t)) (_mask t)
                  size' (_max_load t) (_resize_threshold t) deleted').
Proof.
  intros Ht Hi Hs' Hsize Hdel Hroom Hnew.
  destruct (count_insert (_storage t) i s s' Hi) as [Hce Hcd].
  split; simpl.
  - apply (wf_cap _ _ Ht).
  - apply (wf_mask _ _ Ht).
  - rewrite length_insert. apply (wf_len _ _ Ht).
  - rewrite Hce, Hsize, (wf_size _ _ Ht). done.
  - rewrite Hcd, Hdel, (wf_deleted _ _ Ht). done.
  - done.
  - apply (wf_threshold _ _ Ht).
  - intros i0 k v h Hi0. rewrite length_insert.
    apply list_lookup_insert_Some in Hi0 as [(<- & -> & _)|[Hne Hi0]].
    + destruct (Hnew k v h eq_refl) as (Hh & (j & Hj & Hp & Hbefore) & _).
      split; [done|]. exists j. split_and!; [done|done|].
      intros j' Hj'. by apply insert_not_empty, Hbefore.
    + destruct (wf_placed _ _ Ht i0 k v h Hi0) as (Hh & j & Hj & Hp & Hbefore).
      split; [done|]. exists j. split_and!; [done|done|].
      intros j' Hj'. by apply insert_not_empty, Hbefore.
  - intros i1 i2 k v v' h h' H1 H2.
    apply list_lookup_insert_Some in H1 as [(<- & -> & _)|[Hne1 H1]];
      apply list_lookup_insert_Some in H2 as [(<- & Heq & _)|[Hne2 H2]]; try done.
    + destruct (Hnew k v h eq_refl) as (_ & _ & Huniq). symmetry. by eapply Huniq.
    + subst s'. destruct (Hnew k v' h' eq_refl) as (_ & _ & Huniq). by eapply Huniq.
    + by eapply (wf_unique _ _ Ht).
  - apply (wf_load _ _ Ht).
Qed.

Lemma holds_update {K V} (t : table K V) i s s' cap mask size ml thr del k w :
  _storage t !! i = Some s →
  holds (mkTable cap (<[i := s']> (_storage t)) mask size ml thr del) k w
  ↔ (∃ h, s' = Entry k w h)
    ∨ (∃ i0 h, i0 ≠ i ∧ _storage t !! i0 = Some (Entry k w h)).
Proof.
  intros Hi. unfold holds. simpl. split.
  - intros (i0 & h & Hi0).
    apply list_lookup_insert_Some in Hi0 as [(<- & -> & _)|[Hne Hi0]].
    + left. by exists h.
    + right. by exists i0, h.
  - intros [[h ->]|(i0 & h & Hne & Hi0)].
    + exists i, h. apply list_lookup_insert_eq. by eapply lookup_lt_Some.
    + exists i0, h. by rewrite list_lookup_insert_ne.
Qed.

(** ** Rebuilding the storage *)

Lemma next_pow2_pow2 n : 0 ≤ n → _next_pow2 (2 ^ n) = Ret (2 ^ n).
Proof.
  intros Hn. unfold _next_pow2.
  destruct (next_pow2_loop_spec (2 ^ n) (S (Z.to_nat (Z.log2_up (2 ^ n)))) 0)
    as (k & Hk & Hk0 & Hle & Hmin); [done|by left|left; lia|].
  change (2 ^ 0) with 1 in Hk. rewrite Hk. do 2 f_equal.
  assert (n ≤ k) by (by apply (Z.pow_le_mono_r_iff 2); [lia|lia|]).
  destruct Hmin as [->|Hlt]; [lia|].
  destruct (Z_lt_le_dec (k - 1) n) as [?|Hge]; [lia|].
  pose proof (Z.pow_le_mono_r 2 n (k - 1)). lia.
Qed.

Lemma rehash_probe_spec {K V} (nt : list (slot K V)) n h :
  0 ≤ n → Z.of_nat (length nt) = 2 ^ n →
  (∃ i, nt !! i = Some EMPTY) →
  ∃ e, (e < length nt)%nat
       ∧ nt !! Z.to_nat (probe (2 ^ n) h e) = Some EMPTY
       ∧ (∀ j, (j < e)%nat → nt !! Z.to_nat (probe (2 ^ n) h j) ≠ Some EMPTY)
       ∧ rehash_probe (length nt) nt (2 ^ n - 1) (Z.land h (2 ^ n - 1))
         = Ret (probe (2 ^ n) h e).
Proof.
  intros Hn Hlen [i Hi].
  assert (0 < 2 ^ n) as Hc by (apply Z.pow_pos_nonneg; lia).
  destruct (probe_surj (2 ^ n) h (Z.of_nat i)) as (j0 & Hj0 & Hp); [done| |].
  { apply lookup_lt_Some in Hi. lia. }
  destruct (least_nat (λ j, nt !! Z.to_nat (probe (2 ^ n) h j) = Some EMPTY) j0)
    as (e & He & Hempty & Hmin).
  { intros j. destruct (nt !! Z.to_nat (probe (2 ^ n) h j)) as [[]|];
      [by left|by right..]. }
  { by rewrite Hp, Nat2Z.id. }
  exists e. split_and!; [lia|done|done|].
  rewrite probe_0 by done.
  assert (∀ fuel j, (j ≤ e)%nat → (e - j < fuel)%nat →
            rehash_probe fuel nt (2 ^ n - 1) (probe (2 ^ n) h j)
            = Ret (probe (2 ^ n) h e)) as Hloop.
  { induction fuel as [|fuel IH]; intros j Hj Hfuel; [lia|]. simpl.
    pose proof (probe_range (2 ^ n) h j Hc) as Hr.
    destruct (decide (j = e)) as [->|Hne].
    - by rewrite (getitem_lookup _ _ _ (proj1 Hr) Hempty).
    - destruct (lookup_lt_is_Some_2 nt (Z.to_nat (probe (2 ^ n) h j))) as [s Hs]; [lia|].
      rewrite (getitem_lookup _ _ _ (proj1 Hr) Hs). simpl.
      rewrite probe_S by done.
      destruct s; [by destruct (Hmin j ltac:(lia))|apply IH; lia..]. }
  apply Hloop; lia.
Qed.

Lemma rehash_loop_spec {K V} `{EqDecision K} (hash : K → Z)
    (slots : list (slot K V)) n ml :
  3 ≤ n → load_ok ml →
  count_entries slots < 2 ^ n →
  (∀ i k v h, slots !! i = Some (Entry k v h) → h = hash k) →
  (∀ i j k v v' h h',
     slots !! i = Some (Entry k v h) → slots !! j = Some (Entry k v' h') → i = j) →
  ∀ rest done nt,
    slots = done ++ rest →
    wf_core hash (mkTable (2 ^ n) nt (2 ^ n - 1) (count_entries done) ml
                    (int_mul (2 ^ n) ml) 0) →
    (∀ k v, (∃ i h, nt !! i = Some (Entry k v h)) ↔ ∃ h, Entry k v h ∈ done) →
    ∃ nt',
      rehash_loop rest nt (2 ^ n - 1) = Ret nt'
      ∧ wf_core hash (mkTable (2 ^ n) nt' (2 ^ n - 1) (count_entries slots) ml
                        (int_mul (2 ^ n) ml) 0)
      ∧ ∀ k v, (∃ i h, nt' !! i = Some (Entry k v h)) ↔ ∃ h, Entry k v h ∈ slots.
Proof.
  intros Hn Hml Hcount Hhash Huniq.
  induction rest as [|s rest IH]; intros done nt Hslots Hwf Hmem; simpl.
  { rewrite app_nil_r in Hslots. subst done. by exists nt. }
  assert (slots = (done ++ [s]) ++ rest) as Hslots'
    by (by rewrite <-app_assoc).
  assert (count_entries slots
          = count_entries done + count_entries [s] + count_entries rest) as Hsum.
  { rewrite Hslots', !count_entries_app. done. }
  pose proof (count_entries_range rest) as Hrest.
  destruct s as [| |k v h].
  - apply (IH (done ++ [EMPTY]) nt Hslots').
    + by rewrite count_entries_app, Z.add_0_r.
    + intros k v. rewrite Hmem. split; intros [h Hh]; exists h.
      * apply elem_of_app. by left.
      * apply elem_of_app in Hh as [?|Hh%list_elem_of_singleton]; done.
  - apply (IH (done ++ [DELETED]) nt Hslots').
    + by rewrite count_entries_app, Z.add_0_r.
    + intros k v. rewrite Hmem. split; intros [h Hh]; exists h.
      * apply elem_of_app. by left.
      * apply elem_of_app in Hh as [?|Hh%list_elem_of_singleton]; done.
  - simpl in Hsum.
    pose proof (wf_len _ _ Hwf) as Hlen. simpl in Hlen.
    destruct (rehash_probe_spec nt n h) as (e & He & Hempty & Hmin & ->);
      [lia|done| |].
    { apply exists_empty. pose proof (wf_size _ _ Hwf) as Hsz.
      pose proof (wf_deleted _ _ Hwf) as Hdl. simpl in Hsz, Hdl. lia. }
    simpl.
    assert (0 < 2 ^ n) as Hc by (apply Z.pow_pos_nonneg; lia).
    pose proof (probe_range (2 ^ n) h e Hc) as Hr.
    rewrite setitem_insert by lia. simpl.
    assert (slots !! length done = Some (Entry k v h)) as Hhere.
    { rewrite Hslots. by rewrite list_lookup_middle. }
    apply (IH (done ++ [Entry k v h])
              (<[Z.to_nat (probe (2 ^ n) h e) := Entry k v h]> nt) Hslots').
    + rewrite count_entries_app. simpl count_entries.
      apply (wf_core_update hash
               (mkTable (2 ^ n) nt (2 ^ n - 1) (count_entries done) ml
                  (int_mul (2 ^ n) ml) 0)
               (Z.to_nat (probe (2 ^ n) h e)) EMPTY (Entry k v h));
        simpl; try done; try lia.
      intros k' v' h' [= <- <- <-]. split_and!.
      * by eapply Hhash.
      * exists e. split_and!; [done|lia|done].
      * intros i0 v0 h0 Hi0.
        assert (∃ h1, Entry k v0 h1 ∈ done) as [h1 Hin] by (apply Hmem; eauto).
        apply list_elem_of_lookup in Hin as [i1 Hi1].
        assert (slots !! i1 = Some (Entry k v0 h1)) as Hi1'.
        { rewrite Hslots. by apply lookup_app_l_Some. }
        pose proof (Huniq _ _ _ _ _ _ _ Hi1' Hhere) as ->.
        apply lookup_lt_Some in Hi1. lia.
    + intros k' v'. split.
      * intros (i0 & h0 & Hi0).
        apply list_lookup_insert_Some in Hi0 as [(_ & [= <- <- <-] & _)|[_ Hi0]].
        -- exists h. apply elem_of_app. right. by apply list_elem_of_singleton.
        -- destruct (proj1 (Hmem k' v')) as [h1 Hh1]; [eauto|].
           exists h1. apply elem_of_app. by left.
      * intros [h0 [Hin|Hin%list_elem_of_singleton]%elem_of_app].
        -- destruct (proj2 (Hmem k' v')) as (i0 & h1 & Hi0); [eauto|].
           exists i0, h1. rewrite list_lookup_insert_ne; [done|].
           intros <-. congruence.
        -- injection Hin as -> -> ->. exists (Z.to_nat (probe (2 ^ n) h e)), h.
           apply list_lookup_insert_eq. lia.
Qed.

(** ** The thresholds *)

Lemma int_mul_nonneg c r :
  0 ≤ c → 0 ≤ numer r → 0 < denom r → 0 ≤ int_mul c r.
Proof. intros Hc Hn Hd. unfold int_mul. apply Z.quot_pos; nia. Qed.

Lemma clean_ratio_pos : 0 ≤ numer _deleted_clean_ratio ∧ 0 < denom _deleted_clean_ratio.
Proof. by vm_compute. Qed.

Lemma load_room c ml :
  load_ok ml → 0 < c → int_mul c ml + int_mul c _deleted_clean_ratio < c.
Proof.
  intros (Hd & Hn & Hsum) Hc. destruct clean_ratio_pos as [Hp Hq].
  unfold int_mul. rewrite !Z.quot_div_nonneg by nia.
  pose proof (Z.mul_div_le (c * numer ml) (denom ml) Hd) as H1.
  pose proof (Z.mul_div_le (c * numer _deleted_clean_ratio)
                (denom _deleted_clean_ratio) Hq) as H2.
  set (T := c * numer ml / denom ml) in *.
  set (L := c * numer _deleted_clean_ratio / denom _deleted_clean_ratio) in *.
  set (a := numer ml) in *. set (b := denom ml) in *.
  set (p := numer _deleted_clean_ratio) in *.
  set (q := denom _deleted_clean_ratio) in *.
  assert ((T + L) * (b * q) < c * (b * q)) as Hlt; [|nia].
  assert (T * b * q ≤ c * a * q) by nia.
  assert (L * q * b ≤ c * p * b) by nia.
  nia.
Qed.

Lemma ge_mul_false d c :
  ge_mul d _deleted_clean_ratio c = false → d ≤ int_mul c _deleted_clean_ratio.
Proof.
  destruct clean_ratio_pos as [Hp Hq]. unfold ge_mul, int_mul.
  intros Hlt%Z.leb_gt.
  destruct (Z_le_gt_dec 0 c) as [Hc|Hc].
  - rewrite Z.quot_div_nonneg by nia. apply Z.div_le_lower_bound; lia.
  - assert (d < 0) by nia.
    pose proof (Z.quot_opp_l (- (c * numer _deleted_clean_ratio))
                  (denom _deleted_clean_ratio) ltac:(lia)) as Ho.
    rewrite Z.opp_involutive in Ho. rewrite Ho.
    rewrite Z.quot_div_nonneg by nia.
    assert (- (c * numer _deleted_clean_ratio) / denom _deleted_clean_ratio ≤ - d);
      [|lia].
    apply Z.div_le_upper_bound; [done|]. lia.
Qed.

(** ** [_rehash_into], [_resize], [_rehash_clean], [_maybe_grow_or_clean] *)

Section methods.
Context {K V : Type} `{EqDecision K}.
Variable hash : K → Z.
Implicit Types t : table K V.

Lemma wf_core_empty n ml :
  3 ≤ n → load_ok ml →
  wf_core hash (mkTable (K := K) (V := V) (2 ^ n)
                  (replicate (Z.to_nat (2 ^ n)) EMPTY) (2 ^ n - 1) 0 ml
                  (int_mul (2 ^ n) ml) 0).
Proof.
  intros Hn Hml. assert (0 < 2 ^ n) by (apply Z.pow_pos_nonneg; lia).
  destruct (count_replicate_empty (K := K) (V := V) (Z.to_nat (2 ^ n))) as [He Hd].
  split; simpl; try done.
  - by exists n.
  - rewrite length_replicate. lia.
  - intros i k v h [? _]%lookup_replicate_1. done.
  - intros i j k v v' h h' [? _]%lookup_replicate_1. done.
Qed.

Lemma rehash_into_spec t nc n :
  wf_core hash t → 3 ≤ n →
  _next_pow2 (Z.max 8 nc) = Ret (2 ^ n) → _size t < 2 ^ n →
  ∃ t', _rehash_into t nc = Ret t'
        ∧ wf hash t'
        ∧ (∀ k v, holds t' k v ↔ holds t k v)
        ∧ _capacity t' = 2 ^ n ∧ _size t' = _size t
        ∧ _deleted_count t' = 0 ∧ _max_load t' = _max_load t.
Proof.
  intros Ht Hn Hnp Hsize. unfold _rehash_into. rewrite Hnp. simpl.
  assert (0 < 2 ^ n) by (apply Z.pow_pos_nonneg; lia).
  destruct (rehash_loop_spec hash (_storage t) n (_max_load t) Hn (wf_load _ _ Ht))
    with (rest := _storage t) (done := @nil (slot K V))
         (nt := replicate (Z.to_nat (2 ^ n)) (@EMPTY K V))
    as (nt' & -> & Hwf & Hmem).
  - by rewrite <-(wf_size _ _ Ht).
  - intros i k v h Hi. by destruct (wf_placed _ _ Ht i k v h Hi).
  - apply (wf_unique _ _ Ht).
  - done.
  - apply wf_core_empty; [done|apply (wf_load _ _ Ht)].
  - intros k v. split.
    + intros (i & h & [? _]%lookup_replicate_1). done.
    + intros [h Hh]. by apply elem_of_nil in Hh.
  - simpl. rewrite <-(wf_size _ _ Ht) in Hwf. eexists. split; [done|].
    split_and!; simpl; try done.
    + split; [done|]. simpl. destruct clean_ratio_pos.
      apply int_mul_nonneg; lia.
    + intros k v. unfold holds. simpl. rewrite Hmem. split.
      * intros [h (i & Hi)%list_elem_of_lookup]. by exists i, h.
      * intros (i & h & Hi). exists h. by eapply list_elem_of_lookup_2.
Qed.

Lemma resize_spec t :
  wf_core hash t →
  ∃ t', _resize t = Ret t'
        ∧ wf hash t'
        ∧ (∀ k v, holds t' k v ↔ holds t k v)
        ∧ _capacity t' = 2 * _capacity t ∧ _size t' = _size t
        ∧ _deleted_count t' = 0 ∧ _max_load t' = _max_load t.
Proof.
  intros Ht. destruct (wf_cap _ _ Ht) as (n & Hn & Hc).
  pose proof (wf_room _ _ Ht) as Hroom.
  pose proof (count_deleted_range (_storage t)) as Hd.
  rewrite <-(wf_deleted _ _ Ht) in Hd.
  assert (Z.shiftl (_capacity t) 1 = 2 ^ (n + 1)) as Hs.
  { rewrite Z.shiftl_mul_pow2, Hc, Z.pow_add_r by lia. done. }
  assert (2 ^ (n + 1) = 2 * _capacity t) as H2.
  { rewrite Hc, Z.pow_add_r by lia. lia. }
  destruct (rehash_into_spec t (Z.shiftl (_capacity t) 1) (n + 1) Ht)
    as (t' & Hr & Hwf & Hh & Hcap & Hrest); [lia| |lia|].
  - rewrite Hs. rewrite Z.max_r.
    + apply next_pow2_pow2. lia.
    + change 8 with (2 ^ 3). apply Z.pow_le_mono_r; lia.
  - exists t'. split_and!; try done; [|apply Hrest..]. by rewrite Hcap.
Qed.

Lemma rehash_clean_spec t :
  wf_core hash t →
  ∃ t', _rehash_clean t = Ret t'
        ∧ wf hash t'
        ∧ (∀ k v, holds t' k v ↔ holds t k v)
        ∧ _capacity t' = _capacity t ∧ _size t' = _size t
        ∧ _deleted_count t' = 0 ∧ _max_load t' = _max_load t.
Proof.
  intros Ht. destruct (wf_cap _ _ Ht) as (n & Hn & Hc).
  pose proof (wf_room _ _ Ht) as Hroom.
  pose proof (count_deleted_range (_storage t)) as Hd.
  rewrite <-(wf_deleted _ _ Ht) in Hd.
  destruct (rehash_into_spec t (_capacity t) n Ht)
    as (t' & Hr & Hwf & Hh & Hcap & Hrest); [lia| |lia|].
  - rewrite Hc. rewrite Z.max_r.
    + apply next_pow2_pow2. lia.
    + change 8 with (2 ^ 3). apply Z.pow_le_mono_r; lia.
  - exists t'. split_and!; try done; [|apply Hrest..]. by rewrite Hcap.
Qed.

Lemma maybe_grow_or_clean_spec t :
  wf hash t →
  ∃ t', _maybe_grow_or_clean t = Ret t'
        ∧ wf hash t'
        ∧ (∀ k v, holds t' k v ↔ holds t k v)
        ∧ _size t' = _size t
        ∧ _size t' + _deleted_count t' + 1 < _capacity t'.
Proof.
  intros [Ht Htombs]. unfold _maybe_grow_or_clean.
  pose proof (wf_room _ _ Ht) as Hroom.
  pose proof (count_deleted_range (_storage t)) as Hd.
  rewrite <-(wf_deleted _ _ Ht) in Hd.
  pose proof (wf_capacity_pos hash t Ht) as Hcap.
  pose proof (load_room (_capacity t) (_max_load t) (wf_load _ _ Ht) ltac:(lia)) as Hlr.
  destruct clean_ratio_pos as [Hp Hq].
  pose proof (int_mul_nonneg (_capacity t) _deleted_clean_ratio ltac:(lia) Hp Hq).
  destruct (_size t + 1 >? _resize_threshold t) eqn:Hgrow.
  - destruct (resize_spec t Ht) as (t' & -> & Hwf & Hh & Hc & Hs & Hdel & _).
    exists t'. split_and!; try done. lia.
  - rewrite Z.gtb_ltb in Hgrow. apply Z.ltb_ge in Hgrow.
    rewrite (wf_threshold _ _ Ht) in Hgrow.
    destruct (_deleted_count t >? int_mul (_capacity t) _deleted_clean_ratio) eqn:Hclean.
    + destruct (rehash_clean_spec t Ht) as (t' & -> & Hwf & Hh & Hc & Hs & Hdel & _).
      exists t'. split_and!; try done. lia.
    + exists t. split_and!; try done. lia.
Qed.

Lemma holds_dec t key :
  wf_core hash t → (∃ v, holds t key v) ∨ (∀ v, ¬ holds t key v).
Proof.
  intros Ht. destruct (stop_exists hash t Ht (hash key) key) as [js Hstop].
  pose proof Hstop as (Hjs & (s & Hs & Hst) & _).
  destruct s as [| |k v h]; simpl in Hst; [|done|].
  - right. intros v Hv. destruct (stop_holds hash t Ht key v js Hv Hstop) as [h Hh].
    congruence.
  - apply andb_true_iff in Hst as [_ Hk]. apply bool_decide_eq_true in Hk as ->.
    left. exists v. by eexists _, _.
Qed.

Lemma holds_inj t key v w :
  wf_core hash t → holds t key v → holds t key w → v = w.
Proof.
  intros Ht (i & h & Hi) (j & h' & Hj).
  pose proof (wf_unique _ _ Ht _ _ _ _ _ _ _ Hi Hj) as ->. congruence.
Qed.

Lemma get_holds t key v :
  wf_core hash t → holds t key v → get hash t key = Ret (Some v).
Proof.
  intros Ht Hv. destruct (stop_exists hash t Ht (hash key) key) as [js Hstop].
  destruct (stop_holds hash t Ht key v js Hv Hstop) as [h Hs].
  unfold get. rewrite (wf_probe_0 hash t Ht).
  rewrite (get_loop_stop hash t Ht key (hash key) js _ _ 0 Hstop Hs); [done|lia|].
  destruct Hstop as [? _]. lia.
Qed.

Lemma get_absent t key :
  wf_core hash t → (∀ v, ¬ holds t key v) → get hash t key = Ret None.
Proof.
  intros Ht Hv. destruct (stop_exists hash t Ht (hash key) key) as [js Hstop].
  pose proof (stop_absent hash t key js Hv Hstop) as Hs.
  unfold get. rewrite (wf_probe_0 hash t Ht).
  rewrite (get_loop_stop hash t Ht key (hash key) js _ _ 0 Hstop Hs); [done|lia|].
  destruct Hstop as [? _]. lia.
Qed.

Lemma get_Some t key v :
  wf_core hash t → get hash t key = Ret (Some v) ↔ holds t key v.
Proof.
  intros Ht. split; [|by apply get_holds].
  destruct (holds_dec t key Ht) as [[w Hw]|Habs].
  - rewrite (get_holds t key w Ht Hw). by intros [= <-].
  - by rewrite (get_absent t key Ht Habs).
Qed.

Lemma get_None t key :
  wf_core hash t → get hash t key = Ret None ↔ ∀ v, ¬ holds t key v.
Proof.
  intros Ht. split; [|by apply get_absent].
  destruct (holds_dec t key Ht) as [[w Hw]|Habs]; [|done].
  by rewrite (get_holds t key w Ht Hw).
Qed.

Lemma get_returns t key : wf_core hash t → ∃ r, get hash t key = Ret r.
Proof.
  intros Ht. destruct (holds_dec t key Ht) as [[w Hw]|Habs].
  - exists (Some w). by apply get_holds.
  - exists None. by apply get_absent.
Qed.

Lemma final_resize t :
  wf hash t →
  ∃ t', (if _size t >? _resize_threshold t then _resize t else Ret t) = Ret t'
        ∧ wf hash t'
        ∧ (∀ k v, holds t' k v ↔ holds t k v)
        ∧ _size t' = _size t.
Proof.
  intros [Ht Htombs]. destruct (_size t >? _resize_threshold t).
  - destruct (resize_spec t Ht) as (t' & -> & Hwf & Hh & _ & Hs & _).
    by exists t'.
  - by exists t.
Qed.

Lemma insert_spec t key value :
  wf hash t →
  ∃ t', insert hash t key value = Ret t'
        ∧ wf hash t'
        ∧ holds t' key value
        ∧ (∀ k w, k ≠ key → holds t' k w ↔ holds t k w)
        ∧ ((∃ w, holds t key w) → _size t' = _size t)
        ∧ ((∀ w, ¬ holds t key w) → _size t' = _size t + 1).
Proof.
  intros Hwf. unfold insert.
  destruct (maybe_grow_or_clean_spec t Hwf)
    as (t1 & -> & [Ht1 Htombs1] & Hh1 & Hs1 & Hroom1). simpl.
  rewrite (wf_probe_0 hash t1 Ht1).
  destruct (stop_exists hash t1 Ht1 (hash key) key) as [js Hstop].
  pose proof Hstop as (Hjs & (s & Hs & Hst) & Hbefore).
  destruct s as [| |k v h]; simpl in Hst; [|done|].
  - (* a new key *)
    assert (∀ w, ¬ holds t1 key w) as Habs.
    { intros w Hw. destruct (stop_holds hash t1 Ht1 key w js Hw Hstop) as [h Hh].
      congruence. }
    destruct (insert_loop_new hash t1 Ht1 key value (hash key) js
                (length (_storage t1)) 0 None Hstop Hs)
      as (jt & s0 & Hjt & Hs0 & Hs0' & ->); [lia|lia|done|]. simpl.
    set (i := Z.to_nat (probe (_capacity t1) (hash key) jt)) in *.
    set (t2 := mkTable _ _ _ _ _ _ _).
    assert (count_entries [s0] = 0 ∧ 0 ≤ count_deleted [s0]) as [Hce Hcd]
      by (destruct Hs0' as [-> | ->]; simpl; lia).
    simpl in Hce, Hcd.
    assert (wf_core hash t2) as Ht2.
    { apply (wf_core_update hash t1 i s0); simpl; try done; try lia.
      intros k v h [= <- <- <-]. split_and!; [done| |].
      - exists jt. split_and!; [lia| |].
        + unfold i. pose proof (wf_capacity_pos hash t1 Ht1).
          pose proof (probe_range (_capacity t1) (hash key) jt). lia.
        + intros j' Hj'. destruct (Hbefore j' ltac:(lia)) as (s1 & -> & Hns).
          intros [= ->]. done.
      - intros i0 v0 h0 Hi0. destruct (Habs v0). by eexists _, _. }
    assert (wf hash t2) as Hwf2.
    { split; [done|]. simpl. lia. }
    destruct (final_resize t2 Hwf2) as (t' & Hr & Hwf' & Hh' & Hs').
    exists t'. split; [exact Hr|]. split_and!; try done.
    + apply Hh'. unfold t2. apply (holds_update t1 i s0); [done|]. left. by eexists.
    + intros k w Hk. rewrite Hh', <-Hh1. unfold t2.
      rewrite (holds_update t1 i s0) by done. split.
      * intros [[h [= ? ? ?]]|(i0 & h & _ & Hi0)]; [done|by eexists _, _].
      * intros (i0 & h & Hi0). right. exists i0, h. split; [|done].
        intros ->. fold i in Hs0. rewrite Hs0 in Hi0. injection Hi0 as ->.
        by destruct Hs0'.
    + intros [w Hw]. destruct (Habs w). by apply Hh1.
    + intros _. rewrite Hs'. simpl. lia.
  - (* the key is there *)
    apply andb_true_iff in Hst as [Hh Hk]. apply bool_decide_eq_true in Hk as ->.
    rewrite (insert_loop_found hash t1 Ht1 key value (hash key) js key v h
               (length (_storage t1)) 0 None Hstop Hs) by lia. simpl.
    set (i := Z.to_nat (probe (_capacity t1) (hash key) js)) in *.
    set (t2 := mkTable _ _ _ _ _ _ _).
    assert (wf_core hash t2) as Ht2.
    { pose proof (wf_room _ _ Ht1).
      apply (wf_core_update hash t1 i (Entry key v h)); simpl; try done; try lia.
      intros k' v' h' [= <- <- <-].
      destruct (wf_placed _ _ Ht1 i key v h Hs) as (Hhk & j & Hj & Hp & Hbf).
      split_and!; [done|by exists j|].
      intros i0 v0 h0 Hi0. by eapply (wf_unique _ _ Ht1). }
    assert (wf hash t2) as Hwf2 by (split; [done|simpl; lia]).
    destruct (final_resize t2 Hwf2) as (t' & Hr & Hwf' & Hh' & Hs').
    exists t'. split; [exact Hr|]. split_and!; try done.
    + apply Hh'. unfold t2. apply (holds_update t1 i (Entry key v h)); [done|].
      left. by eexists.
    + intros k w Hkne. rewrite Hh', <-Hh1. unfold t2.
      rewrite (holds_update t1 i (Entry key v h)) by done. split.
      * intros [[h0 [= ? ? ?]]|(i0 & h0 & _ & Hi0)]; [done|by eexists _, _].
      * intros (i0 & h0 & Hi0). right. exists i0, h0. split; [|done].
        intros ->. rewrite Hs in Hi0. by injection Hi0 as -> _ _.
    + intros _. rewrite Hs'. simpl. lia.
    + intros Habs. destruct (Habs v). apply Hh1. by eexists _, _.
Qed.

Lemma delete_absent t key :
  wf_core hash t → (∀ v, ¬ holds t key v) → delete hash t key = Raise KeyError.
Proof.
  intros Ht Habs. destruct (stop_exists hash t Ht (hash key) key) as [js Hstop].
  pose proof (stop_absent hash t key js Habs Hstop) as Hs.
  unfold delete. rewrite (wf_probe_0 hash t Ht).
  rewrite (delete_loop_stop hash t Ht key (hash key) js _ _ 0 Hstop Hs); [done|lia|].
  destruct Hstop as [? _]. lia.
Qed.

Lemma delete_holds t key v :
  wf hash t → holds t key v →
  ∃ t', delete hash t key = Ret t'
        ∧ wf hash t'
        ∧ (∀ w, ¬ holds t' key w)
        ∧ (∀ k w, k ≠ key → holds t' k w ↔ holds t k w)
        ∧ _size t' = _size t - 1.
Proof.
  intros [Ht Htombs] Hv.
  destruct (stop_exists hash t Ht (hash key) key) as [js Hstop].
  destruct (stop_holds hash t Ht key v js Hv Hstop) as [h Hs].
  unfold delete. rewrite (wf_probe_0 hash t Ht).
  rewrite (delete_loop_stop hash t Ht key (hash key) js _ _ 0 Hstop Hs);
    [|lia|destruct Hstop as [? _]; lia].
  set (i := Z.to_nat (probe (_capacity t) (hash key) js)) in *.
  set (t2 := mkTable _ _ _ _ _ _ _). cbv zeta.
  pose proof (wf_room _ _ Ht) as Hroom.
  assert (wf_core hash t2) as Ht2.
  { apply (wf_core_update hash t i (Entry key v h)); simpl; try done; lia. }
  assert (∀ w, ¬ holds t2 key w) as Hgone.
  { intros w. unfold t2. rewrite (holds_update t i (Entry key v h)) by done.
    intros [[h0 [=]]|(i0 & h0 & Hne & Hi0)].
    destruct Hne. by eapply (wf_unique _ _ Ht). }
  assert (∀ k w, k ≠ key → holds t2 k w ↔ holds t k w) as Hothers.
  { intros k w Hk. unfold t2. rewrite (holds_update t i (Entry key v h)) by done.
    split.
    - intros [[h0 [=]]|(i0 & h0 & _ & Hi0)]. by eexists _, _.
    - intros (i0 & h0 & Hi0). right. exists i0, h0. split; [|done].
      intros ->. rewrite Hs in Hi0. by injection Hi0 as -> _ _. }
  destruct (ge_mul (_deleted_count t2) _deleted_clean_ratio (_capacity t2)) eqn:Hge.
  - destruct (rehash_clean_spec t2 Ht2) as (t' & -> & Hwf & Hh & _ & Hsz & _).
    exists t'. split_and!; try done.
    + intros w Hw. apply (Hgone w). by apply Hh.
    + intros k w Hk. by rewrite Hh, Hothers.
  - exists t2. split_and!; try done.
    split; [done|]. by apply ge_mul_false.
Qed.

Lemma init_spec ic ml :
  load_ok ml →
  ∃ (t : table K V) n,
    __init__ ic ml = Ret t ∧ wf hash t ∧ (∀ k v, ¬ holds t k v)
    ∧ _size t = 0 ∧ _deleted_count t = 0 ∧ _max_load t = ml
    ∧ 3 ≤ n ∧ _capacity t = 2 ^ n ∧ ic ≤ 2 ^ n ∧ (3 < n → 2 ^ n < 2 * ic).
Proof.
  intros Hml. unfold __init__, _next_pow2.
  destruct (next_pow2_loop_spec (Z.max 8 ic)
              (S (Z.to_nat (Z.log2_up (Z.max 8 ic)))) 0)
    as (n & Hn & Hn0 & Hle & Hmin); [done|by left|left; lia|].
  change (2 ^ 0) with 1 in Hn. rewrite Hn. simpl.
  assert (3 ≤ n) as Hn3.
  { destruct (Z_lt_le_dec n 3) as [Hlt|]; [|done].
    pose proof (Z.pow_le_mono_r 2 n 2 ltac:(lia) ltac:(lia)) as Hp.
    change (2 ^ 2) with 4 in Hp. lia. }
  eexists _, n. split; [done|]. split_and!; simpl; try done.
  - split; [by apply wf_core_empty|]. simpl. destruct clean_ratio_pos.
    apply int_mul_nonneg; [|done..].
    pose proof (Z.pow_pos_nonneg 2 n). lia.
  - intros k v (i & h & [? _]%lookup_replicate_1). done.
  - lia.
  - intros Hn4. destruct Hmin as [->|Hmin]; [lia|].
    assert (8 ≤ 2 ^ (n - 1)) as H8.
    { change 8 with (2 ^ 3). apply Z.pow_le_mono_r; lia. }
    replace n with (n - 1 + 1) by lia. rewrite Z.pow_add_r by lia. lia.
Qed.

Lemma built_wf t : built hash t → wf hash t.
Proof.
  induction 1 as [ic ml t Hml Hinit|t key value t' _ IH Hins|t key t' _ IH Hdel].
  - destruct (init_spec ic ml Hml) as (t0 & n & Ht0 & Hwf & _).
    rewrite Ht0 in Hinit. by injection Hinit as <-.
  - destruct (insert_spec t key value IH) as (t0 & Ht0 & Hwf & _).
    rewrite Ht0 in Hins. by injection Hins as <-.
  - destruct (holds_dec t key (proj1 IH)) as [[v Hv]|Habs].
    + destruct (delete_holds t key v IH Hv) as (t0 & Ht0 & Hwf & _).
      rewrite Ht0 in Hdel. by injection Hdel as <-.
    + by rewrite (delete_absent t key (proj1 IH) Habs) in Hdel.
Qed.

End methods.

(** ** Tables that the methods build *)

Section built_tables.
Context {K V : Type} `{EqDecision K}.
Variable hash : K → Z.
Implicit Types t : table K V.

Lemma built_table_run t calls t' :
  built hash t → table_run hash t calls = Ret t' → built hash t'.
Proof.
  revert t. induction calls as [|[key value|key] calls IH]; intros t Ht; simpl.
  - by intros [= <-].
  - destruct (insert hash t key value) as [t1|] eqn:H1; [|done]. simpl.
    apply IH. by eapply built_insert.
  - destruct (delete hash t key) as [t1|] eqn:H1; [|done]. simpl.
    apply IH. by eapply built_delete.
Qed.

Lemma built_table_after ic ml calls t :
  load_ok ml → table_after hash ic ml calls = Ret t → built hash t.
Proof.
  intros Hml. unfold table_after.
  destruct (__init__ ic ml) as [t0|] eqn:H0; [|done]. simpl.
  apply built_table_run. by eapply built_init.
Qed.

Lemma keys_of_spec (l : list (slot K V)) k :
  k ∈ keys_of l ↔ ∃ i v h, l !! i = Some (Entry k v h).
Proof.
  unfold keys_of. rewrite list_elem_of_omap. split.
  - intros (s & (i & Hi)%list_elem_of_lookup & Hs).
    destruct s as [| |k' v h]; [done|done|]. injection Hs as ->. by exists i, v, h.
  - intros (i & v & h & Hi). exists (Entry k v h). split; [|done].
    by eapply list_elem_of_lookup_2.
Qed.

Lemma keys_of_cons s (l : list (slot K V)) :
  keys_of (s :: l)
  = match s with Entry k _ _ => k :: keys_of l | _ => keys_of l end.
Proof. by destruct s. Qed.

Lemma keys_of_length (l : list (slot K V)) :
  Z.of_nat (length (keys_of l)) = count_entries l.
Proof.
  induction l as [|s l IH]; [done|]. rewrite keys_of_cons.
  destruct s; simpl; lia.
Qed.

Lemma keys_of_NoDup (l : list (slot K V)) :
  (∀ i j k v v' h h',
     l !! i = Some (Entry k v h) → l !! j = Some (Entry k v' h') → i = j) →
  NoDup (keys_of l).
Proof.
  induction l as [|s l IH]; intros Huniq; [constructor|].
  assert (NoDup (keys_of l)) as Hnd.
  { apply IH. intros i j k v v' h h' Hi Hj.
    assert (S i = S j) by (by eapply (Huniq (S i) (S j))). lia. }
  rewrite keys_of_cons. destruct s as [| |k v h]; try done.
  constructor; [|done]. intros (i & v' & h' & Hi)%keys_of_spec.
  by pose proof (Huniq 0%nat (S i) k v v' h h' eq_refl Hi).
Qed.

(** X19: on a table that [__init__], [insert] and [delete] have built with
    a [max_load] that is not negative and below [1 - 0.3], [insert] and
    [get] return and [delete] returns or raises [KeyError]: no index is out
    of range, and every probe ends within one round of the cells. *)
Theorem table_methods_return t key value :
  built hash t →
  (∃ t', insert hash t key value = Ret t')
  ∧ (∃ r, get hash t key = Ret r)
  ∧ ((∃ t', delete hash t key = Ret t') ∨ delete hash t key = Raise KeyError).
Proof.
  intros Hwf%built_wf. split_and!.
  - destruct (insert_spec hash t key value Hwf) as (t' & Ht' & _). by exists t'.
  - apply get_returns, Hwf.
  - destruct (holds_dec hash t key (proj1 Hwf)) as [[v Hv]|Habs].
    + left. destruct (delete_holds hash t key v Hwf Hv) as (t' & Ht' & _).
      by exists t'.
    + right. by apply delete_absent; [apply Hwf|].
Qed.

(** X20: after [insert(key, value)], [get(key)] returns [value] and [get]
    of every other key returns what it returned before. *)
Theorem get_after_insert t key value t' :
  built hash t → insert hash t key value = Ret t' →
  get hash t' key = Ret (Some value)
  ∧ ∀ k, k ≠ key → get hash t' k = get hash t k.
Proof.
  intros Hwf%built_wf Hins.
  destruct (insert_spec hash t key value Hwf) as (t0 & Ht0 & Hwf' & Hv & Hothers & _).
  rewrite Ht0 in Hins. injection Hins as <-. split.
  - apply get_holds; [apply Hwf'|done].
  - intros k Hk. destruct (holds_dec hash t k (proj1 Hwf)) as [[w Hw]|Habs].
    + rewrite (get_holds hash t k w (proj1 Hwf) Hw).
      apply get_holds; [apply Hwf'|]. by apply Hothers.
    + rewrite (get_absent hash t k (proj1 Hwf) Habs).
      apply get_absent; [apply Hwf'|]. intros w Hw. apply (Habs w). by apply Hothers.
Qed.

(** X21: after a [delete(key)] that returns, [get(key)] returns the
    default and [get] of every other key returns what it returned
    before. *)
Theorem get_after_delete t key t' :
  built hash t → delete hash t key = Ret t' →
  get hash t' key = Ret None
  ∧ ∀ k, k ≠ key → get hash t' k = get hash t k.
Proof.
  intros Hwf%built_wf Hdel.
  destruct (holds_dec hash t key (proj1 Hwf)) as [[v Hv]|Habs];
    [|by rewrite (delete_absent hash t key (proj1 Hwf) Habs) in Hdel].
  destruct (delete_holds hash t key v Hwf Hv) as (t0 & Ht0 & Hwf' & Hgone & Hothers & _).
  rewrite Ht0 in Hdel. injection Hdel as <-. split.
  - apply get_absent; [apply Hwf'|done].
  - intros k Hk. destruct (holds_dec hash t k (proj1 Hwf)) as [[w Hw]|Habs].
    + rewrite (get_holds hash t k w (proj1 Hwf) Hw).
      apply get_holds; [apply Hwf'|]. by apply Hothers.
    + rewrite (get_absent hash t k (proj1 Hwf) Habs).
      apply get_absent; [apply Hwf'|]. intros w Hw. apply (Habs w). by apply Hothers.
Qed.

(** X22: [delete(key)] raises [KeyError] exactly when [get(key)] returns
    the default. *)
Theorem delete_raises_iff_missing t key :
  built hash t →
  delete hash t key = Raise KeyError ↔ get hash t key = Ret None.
Proof.
  intros Hwf%built_wf.
  destruct (holds_dec hash t key (proj1 Hwf)) as [[v Hv]|Habs].
  - rewrite (get_holds hash t key v (proj1 Hwf) Hv).
    destruct (delete_holds hash t key v Hwf Hv) as (t' & -> & _). done.
  - rewrite (get_absent hash t key (proj1 Hwf) Habs).
    by rewrite (delete_absent hash t key (proj1 Hwf) Habs).
Qed.

(** X23: [len] is the number of keys for which [get] returns a value: the
    keys of the entries in [_storage] are pairwise different, there are
    [__len__()] of them, and they are the keys [get] finds. *)
Theorem len_counts_keys t :
  built hash t →
  NoDup (keys_of (_storage t))
  ∧ Z.of_nat (length (keys_of (_storage t))) = __len__ t
  ∧ ∀ k, k ∈ keys_of (_storage t) ↔ ∃ v, get hash t k = Ret (Some v).
Proof.
  intros [Hwf _]%built_wf. split_and!.
  - apply keys_of_NoDup, (wf_unique _ _ Hwf).
  - rewrite keys_of_length. symmetry. apply (wf_size _ _ Hwf).
  - intros k. rewrite keys_of_spec. split.
    + intros (i & v & h & Hi). exists v. apply get_holds; [done|]. by exists i, h.
    + intros [v (i & h & Hi)%get_Some]; [|done]. by exists i, v, h.
Qed.

(** X24: [insert] adds one to [len] when [get(key)] returned the default
    and leaves it otherwise; a [delete] that returns takes one off. *)
Theorem len_after_insert_delete t key value :
  built hash t →
  (∀ t', insert hash t key value = Ret t' →
         __len__ t' = __len__ t
                      + (if get hash t key is Ret None then 1 else 0))
  ∧ (∀ t', delete hash t key = Ret t' → __len__ t' = __len__ t - 1).
Proof.
  intros Hwf%built_wf. unfold __len__. split; intros t' Hcall.
  - destruct (insert_spec hash t key value Hwf) as (t0 & Ht0 & _ & _ & _ & Hold & Hnew).
    rewrite Ht0 in Hcall. injection Hcall as <-.
    destruct (holds_dec hash t key (proj1 Hwf)) as [[v Hv]|Habs].
    + rewrite (get_holds hash t key v (proj1 Hwf) Hv), Hold; [lia|by exists v].
    + rewrite (get_absent hash t key (proj1 Hwf) Habs). by apply Hnew.
  - destruct (holds_dec hash t key (proj1 Hwf)) as [[v Hv]|Habs];
      [|by rewrite (delete_absent hash t key (proj1 Hwf) Habs) in Hcall].
    destruct (delete_holds hash t key v Hwf Hv) as (t0 & Ht0 & _ & _ & _ & Hsz).
    rewrite Ht0 in Hcall. by injection Hcall as <-.
Qed.

(** X25: [__init__] returns for every [initial_capacity]; the capacity of
    the new table is the smallest power of two that is at least 8 and at
    least [initial_capacity], [_storage] has that many cells, [len] is 0 and
    [get] returns the default for every key. *)
Theorem new_table_is_empty initial_capacity max_load :
  load_ok max_load →
  ∃ (t : table K V) n,
    __init__ initial_capacity max_load = Ret t
    ∧ _capacity t = 2 ^ n ∧ 3 ≤ n ∧ initial_capacity ≤ 2 ^ n
    ∧ (3 < n → 2 ^ n < 2 * initial_capacity)
    ∧ Z.of_nat (length (_storage t)) = _capacity t
    ∧ __len__ t = 0
    ∧ ∀ k, get hash t k = Ret None.
Proof.
  intros Hml.
  destruct (init_spec (V := V) hash initial_capacity max_load Hml)
    as (t & n & Ht & [Hwf _] & Habs & Hsz & _ & _ & Hn & Hc & Hle & Hmin).
  exists t, n. split_and!; try done.
  - apply (wf_len _ _ Hwf).
  - intros k. apply get_absent; [done|apply Habs].
Qed.

(** X26: the note at [insert]: for a table the methods have built,
    [h & self._mask] is [h % self._capacity], for negative [h] too, and is
    an index of [_storage]. *)
Theorem mask_is_modulo t h :
  built hash t →
  Z.land h (_mask t) = h mod _capacity t
  ∧ 0 ≤ Z.land h (_mask t) < Z.of_nat (length (_storage t)).
Proof.
  intros [Hwf _]%built_wf.
  assert (Z.land h (_mask t) = h mod _capacity t) as Hm.
  { rewrite (wf_probe_0 hash t Hwf). unfold probe. by rewrite Z.add_0_r. }
  split; [done|]. rewrite Hm, (wf_len _ _ Hwf).
  apply Z.mod_pos_bound. pose proof (wf_capacity_pos hash t Hwf). lia.
Qed.

(** X27: a table the methods have built always has an [_EMPTY] cell:
    [_size] and [_deleted_count] count the entries and the tombstones of
    [_storage], together they stay below [_capacity], and the tombstones
    stay at or below [int(_capacity * 0.3)]. *)
Theorem table_keeps_an_empty_cell t :
  built hash t →
  _size t = count_entries (_storage t)
  ∧ _deleted_count t = count_deleted (_storage t)
  ∧ _size t + _deleted_count t < _capacity t
  ∧ _deleted_count t ≤ int_mul (_capacity t) _deleted_clean_ratio
  ∧ ∃ i, _storage t !! i = Some EMPTY.
Proof.
  intros [Hwf Htombs]%built_wf. split_and!; try done.
  - apply (wf_size _ _ Hwf).
  - apply (wf_deleted _ _ Hwf).
  - apply (wf_room _ _ Hwf).
  - by eapply wf_exists_empty.
Qed.

End built_tables.

(** X28: when no cell of [_storage] is [_EMPTY] and none holds the key,
    the loops of [get] and [delete] never end: whatever the number of
    turns, they are still probing.  [max_load] is not checked, and with
    [max_load = 1.0] the methods build such a table. *)
Theorem probe_of_full_table_never_ends {K V : Type} `{EqDecision K}
    (hash : K → Z) (t : table K V) n key fuel idx :
  (∀ i s, _storage t !! i = Some s → stops (hash key) key s = false) →
  0 ≤ n → _mask t = 2 ^ n - 1 → Z.of_nat (length (_storage t)) = 2 ^ n →
  0 ≤ idx < 2 ^ n →
  get_loop fuel t key (hash key) idx = Raise OutOfFuel
  ∧ delete_loop fuel t key (hash key) idx = Raise OutOfFuel.
Proof.
  intros Hfull Hn Hmask Hlen. revert idx.
  induction fuel as [|fuel IH]; intros idx Hidx; [done|]. simpl.
  destruct (lookup_lt_is_Some_2 (_storage t) (Z.to_nat idx)) as [s Hs]; [lia|].
  rewrite (getitem_lookup _ _ _ (proj1 Hidx) Hs). simpl.
  pose proof (Hfull _ _ Hs) as Hns.
  assert (0 ≤ Z.land (idx + 1) (_mask t) < 2 ^ n) as Hnext.
  { rewrite Hmask, land_mask by done. apply Z.mod_pos_bound. lia. }
  destruct s as [| |k v h]; simpl in Hns; [done| |rewrite Hns]; by apply IH.
Qed.

(** ** The hash table on concrete tables *)

Example full_table_is_built :
  table_after hash_int 8 float_1_0
    [Insert 0 0; Insert 1 10; Insert 2 20; Insert 3 30;
     Insert 4 40; Insert 5 50; Insert 6 60; Insert 7 70]
  = Ret full_table
  ∧ get hash_int full_table 8 = Raise OutOfFuel.
Proof. split; vm_compute; reflexivity. Qed.

Lemma table_methods_return_witness :
  (∃ t', insert hash_int sample_table 9 91 = Ret t')
  ∧ (∃ r, get hash_int sample_table 9 = Ret r)
  ∧ ((∃ t', delete hash_int sample_table 9 = Ret t')
     ∨ delete hash_int sample_table 9 = Raise KeyError).
Proof.
  apply (table_methods_return hash_int sample_table 9 91).
  apply (built_table_after hash_int 8 float_0_70 sample_calls);
    [by vm_compute|reflexivity].
Defined.

Lemma get_after_insert_witness :
  get hash_int sample_table_17 17 = Ret (Some 170)
  ∧ ∀ k, k ≠ 17 → get hash_int sample_table_17 k = get hash_int sample_table k.
Proof.
  apply (get_after_insert hash_int sample_table 17 170 sample_table_17);
    [|reflexivity].
  apply (built_table_after hash_int 8 float_0_70 sample_calls);
    [by vm_compute|reflexivity].
Defined.

Lemma get_after_delete_witness :
  get hash_int sample_table_no_9 9 = Ret None
  ∧ ∀ k, k ≠ 9 → get hash_int sample_table_no_9 k = get hash_int sample_table k.
Proof.
  apply (get_after_delete hash_int sample_table 9 sample_table_no_9);
    [|reflexivity].
  apply (built_table_after hash_int 8 float_0_70 sample_calls);
    [by vm_compute|reflexivity].
Defined.

Lemma delete_raises_iff_missing_witness :
  delete hash_int sample_table 1 = Raise KeyError
  ↔ get hash_int sample_table 1 = Ret None.
Proof.
  apply (delete_raises_iff_missing hash_int sample_table 1).
  apply (built_table_after hash_int 8 float_0_70 sample_calls);
    [by vm_compute|reflexivity].
Defined.

Lemma len_counts_keys_witness :
  NoDup (keys_of (_storage sample_table))
  ∧ Z.of_nat (length (keys_of (_storage sample_table))) = __len__ sample_table
  ∧ ∀ k, k ∈ keys_of (_storage sample_table)
         ↔ ∃ v, get hash_int sample_table k = Ret (Some v).
Proof.
  apply (len_counts_keys hash_int sample_table).
  apply (built_table_after hash_int 8 float_0_70 sample_calls);
    [by vm_compute|reflexivity].
Defined.

Lemma len_after_insert_delete_witness :
  (∀ t', insert hash_int sample_table 17 170 = Ret t' →
         __len__ t' = __len__ sample_table
                      + (if get hash_int sample_table 17 is Ret None then 1 else 0))
  ∧ (∀ t', delete hash_int sample_table 17 = Ret t' →
           __len__ t' = __len__ sample_table - 1).
Proof.
  apply (len_after_insert_delete hash_int sample_table 17 170).
  apply (built_table_after hash_int 8 float_0_70 sample_calls);
    [by vm_compute|reflexivity].
Defined.

Lemma new_table_is_empty_witness :
  ∃ (t : table Z Z) n,
    __init__ 100 float_0_70 = Ret t
    ∧ _capacity t = 2 ^ n ∧ 3 ≤ n ∧ 100 ≤ 2 ^ n
    ∧ (3 < n → 2 ^ n < 2 * 100)
    ∧ Z.of_nat (length (_storage t)) = _capacity t
    ∧ __len__ t = 0
    ∧ ∀ k, get hash_int t k = Ret None.
Proof.
  apply (new_table_is_empty hash_int 100 float_0_70). by vm_compute.
Defined.

Lemma mask_is_modulo_witness :
  Z.land (-3) (_mask sample_table) = (-3) mod _capacity sample_table
  ∧ 0 ≤ Z.land (-3) (_mask sample_table)
    < Z.of_nat (length (_storage sample_table)).
Proof.
  apply (mask_is_modulo hash_int sample_table (-3)).
  apply (built_table_after hash_int 8 float_0_70 sample_calls);
    [by vm_compute|reflexivity].
Defined.

Lemma table_keeps_an_empty_cell_witness :
  _size sample_table = count_entries (_storage sample_table)
  ∧ _deleted_count sample_table = count_deleted (_storage sample_table)
  ∧ _size sample_table + _deleted_count sample_table < _capacity sample_table
  ∧ _deleted_count sample_table
    ≤ int_mul (_capacity sample_table) _deleted_clean_ratio
  ∧ ∃ i, _storage sample_table !! i = Some EMPTY.
Proof.
  apply (table_keeps_an_empty_cell hash_int sample_table).
  apply (built_table_after hash_int 8 float_0_70 sample_calls);
    [by vm_compute|reflexivity].
Defined.

Lemma probe_of_full_table_never_ends_witness :
  get_loop 1000 full_table 8 (hash_int 8) 0 = Raise OutOfFuel
  ∧ delete_loop 1000 full_table 8 (hash_int 8) 0 = Raise OutOfFuel.
Proof.
  apply (probe_of_full_table_never_ends hash_int full_table 3 8 1000 0).
  - intros i s Hs.
    do 8 (destruct i as [|i]; [injection Hs as <-; reflexivity|]). done.
  - lia.
  - reflexivity.
  - reflexivity.
  - by vm_compute.
Defined.

(** * The unit converter *)

Section parser_facts.
Context {F : Type}.
Variable mul : F → F → F.
Variable inv : F → option F.

Lemma populate_outcome info key value :
  (Parser.populate inv info key value = Raise ZeroDivisionError
   ∧ inv value = None)
  ∨ ∃ r, inv value = Some r
         ∧ Parser.populate inv info key value
           = Ret (<[(key.2, key.1) := r]> (<[key := value]> info)).
Proof.
  unfold Parser.populate. destruct (inv value) as [r|]; [right; by exists r|by left].
Qed.

Lemma populate_keys info key value info' :
  Parser.populate inv info key value = Ret info' →
  (∀ a b, is_Some (info !! (a, b)) → is_Some (info !! (b, a))) →
  is_Some (info' !! key)
  ∧ (∀ k, is_Some (info !! k) → is_Some (info' !! k))
  ∧ ∀ a b, is_Some (info' !! (a, b)) → is_Some (info' !! (b, a)).
Proof.
  intros Hp Hsym.
  destruct (populate_outcome info key value) as [[Hr _]|(r & _ & Hr)];
    rewrite Hr in Hp; [done|]. injection Hp as <-. destruct key as [x y]. simpl.
  split_and!.
  - rewrite !lookup_insert_is_Some. destruct (decide ((y, x) = (x, y))); auto.
  - intros k Hk. rewrite !lookup_insert_is_Some.
    destruct (decide ((y, x) = k)); [by left|right; split; [done|]].
    destruct (decide ((x, y) = k)); [by left|by right].
  - intros a b. rewrite !lookup_insert_is_Some.
    intros [[= -> ->]|[Hne [[= -> ->]|[Hne' Hab]]]].
    + destruct (decide ((a, b) = (b, a))); [by left|right; split; [done|by left]].
    + by left.
    + destruct (decide ((y, x) = (b, a))); [by left|right; split; [done|]].
      destruct (decide ((x, y) = (b, a))); [by left|right; split; [done|]].
      by apply Hsym.
Qed.

Lemma index_lookup rights x position :
  Parser.index rights x = Some position → rights !! position = Some x.
Proof.
  unfold Parser.index. destruct (list_find _ rights) as [[i y]|] eqn:Hf; [|done].
  simpl. intros [= <-]. by apply list_find_Some in Hf as (Hi & -> & _).
Qed.

Lemma parse_fact_outcome st fact :
  Parser.parse_inv st →
  (Parser.parse_fact mul inv st fact = Raise ZeroDivisionError ∧ ∃ x, inv x = None)
  ∨ ∃ st', Parser.parse_fact mul inv st fact = Ret st'
           ∧ Parser.parse_inv st'
           ∧ is_Some (st'.1.1 !! (fact.1.1, fact.2))
           ∧ ∀ k, is_Some (st.1.1 !! k) → is_Some (st'.1.1 !! k).
Proof.
  destruct st as [[info lefts] rights], fact as [[l v] r].
  intros (Hlen & Hpairs & Hsym). simpl in *. unfold Parser.parse_fact.
  destruct (populate_outcome info (l, r) v) as [[-> Hv]|(x & _ & Hp1)];
    [left; split; [done|by exists v]|].
  rewrite Hp1. simpl.
  destruct (populate_keys _ _ _ _ Hp1 Hsym) as (Hk1 & Hmono1 & Hsym1).
  set (info1 := <[_ := x]> _) in *.
  assert (∀ info2 : gmap (string * string) F,
            is_Some (info2 !! (l, r)) →
            (∀ k, is_Some (info !! k) → is_Some (info2 !! k)) →
            (∀ a b, is_Some (info2 !! (a, b)) → is_Some (info2 !! (b, a))) →
            Parser.parse_inv (info2, lefts ++ [l], rights ++ [r])) as Hfinal.
  { intros info2 Hk Hmono Hsym2. split_and!; simpl.
    - rewrite !length_app. simpl. lia.
    - intros i a b Ha Hb.
      destruct (decide (i < length lefts)%nat) as [Hlt|Hge].
      + rewrite lookup_app_l in Ha by done. rewrite lookup_app_l in Hb by lia.
        apply Hmono. by eapply Hpairs.
      + rewrite lookup_app_r in Ha by lia. rewrite lookup_app_r in Hb by lia.
        rewrite Hlen in Ha.
        destruct (i - length rights)%nat; simpl in *; [|done].
        by injection Ha as <-; injection Hb as <-.
    - done. }
  destruct (Parser.index rights l) as [position|] eqn:Hidx; simpl.
  - pose proof (index_lookup _ _ _ Hidx) as Hr.
    destruct (lookup_lt_is_Some_2 lefts position) as [l0 Hl0].
    { rewrite Hlen. by eapply lookup_lt_Some. }
    rewrite (getitem_lookup lefts _ l0), (getitem_lookup rights _ l);
      [|lia|by rewrite Nat2Z.id|lia|by rewrite Nat2Z.id]. simpl.
    destruct (Hmono1 (l0, l) (Hpairs _ _ _ Hl0 Hr)) as [y Hy].
    unfold Parser.dict_get. rewrite Hy. simpl.
    destruct (populate_outcome info1 (l0, r) (mul v y)) as [[-> Hv]|(z & _ & Hp2)];
      [left; split; [done|by eexists]|].
    rewrite Hp2. simpl. right. eexists. split; [done|].
    destruct (populate_keys _ _ _ _ Hp2 Hsym1) as (Hk2 & Hmono2 & Hsym2).
    split_and!; simpl.
    + apply Hfinal; [by apply Hmono2|by intros k Hk; apply Hmono2, Hmono1|done].
    + by apply Hmono2.
    + intros k Hk. by apply Hmono2, Hmono1.
  - right. eexists. split; [done|]. split_and!; simpl; [by apply Hfinal|done|done].
Qed.

Lemma parse_loop_outcome fs st :
  Parser.parse_inv st →
  (Parser.parse_loop mul inv st fs = Raise ZeroDivisionError ∧ ∃ x, inv x = None)
  ∨ ∃ st', Parser.parse_loop mul inv st fs = Ret st'
           ∧ Parser.parse_inv st'
           ∧ (∀ fact, fact ∈ fs → is_Some (st'.1.1 !! (fact.1.1, fact.2)))
           ∧ ∀ k, is_Some (st.1.1 !! k) → is_Some (st'.1.1 !! k).
Proof.
  revert st. induction fs as [|fact fs IH]; intros st Hinv; simpl.
  { right. exists st. split_and!; try done. intros fact Hf. by apply elem_of_nil in Hf. }
  destruct (parse_fact_outcome st fact Hinv) as [[-> Hx]|(st1 & -> & Hinv1 & Hk1 & Hmono1)];
    [by left|]. simpl.
  destruct (IH st1 Hinv1) as [[-> Hx]|(st' & -> & Hinv' & Hk' & Hmono')]; [by left|].
  right. exists st'. split_and!; try done.
  - intros f [->|Hf]%elem_of_cons; [by apply Hmono'|by apply Hk'].
  - intros k Hk. by apply Hmono', Hmono1.
Qed.

Lemma parse_returns (p p' : Parser.Parser F) :
  Parser.parse mul inv p = Ret p' →
  ∃ info,
    p' = Parser.mkParser (Parser.facts p) (Some info)
    ∧ (∀ l v r, (l, v, r) ∈ Parser.facts p → is_Some (info !! (l, r)))
    ∧ ∀ a b, is_Some (info !! (a, b)) → is_Some (info !! (b, a)).
Proof.
  unfold Parser.parse.
  destruct (parse_loop_outcome (Parser.facts p) (∅, [], []))
    as [[-> Hx]|(st & -> & (_ & _ & Hsym) & Hk & _)].
  - split_and!; simpl; [done| |].
    + intros i l r Hl. by rewrite lookup_nil in Hl.
    + intros a b [? Hab]. by rewrite lookup_empty in Hab.
  - done.
  - simpl. intros [= <-]. exists st.1.1. split_and!; [done| |done].
    intros l v r Hf. apply (Hk _ Hf).
Qed.

(** X29: [parse] ends in one of two ways.  It raises [ZeroDivisionError],
    and then some [1 / value] was a division by zero; or it returns, and
    then [parsing_info] has the pair of units of every fact as a key and
    has a pair turned round as a key whenever it has the pair.  It raises
    no [KeyError]: [lefts[position], rights[position]] is always a key. *)
Theorem parse_outcome (p : Parser.Parser F) :
  (Parser.parse mul inv p = Raise ZeroDivisionError ∧ ∃ x, inv x = None)
  ∨ ∃ info,
      Parser.parse mul inv p = Ret (Parser.mkParser (Parser.facts p) (Some info))
      ∧ (∀ l v r, (l, v, r) ∈ Parser.facts p → is_Some (info !! (l, r)))
      ∧ ∀ a b, is_Some (info !! (a, b)) ↔ is_Some (info !! (b, a)).
Proof.
  unfold Parser.parse.
  destruct (parse_loop_outcome (Parser.facts p) (∅, [], []))
    as [[-> Hx]|(st & -> & (_ & _ & Hsym) & Hk & _)].
  - split_and!; simpl; [done| |].
    + intros i l r Hl. by rewrite lookup_nil in Hl.
    + intros a b [? Hab]. by rewrite lookup_empty in Hab.
  - by left.
  - right. exists st.1.1. simpl. split_and!; [done| |].
    + intros l v r Hf. apply (Hk _ Hf).
    + intros a b. split; apply Hsym.
Qed.


End parser_facts.

